(** * Midpoint-rule computation of pi over an MPI worker group

    A shallow embedding of [main] in [MPI_example_code_in_C.c]: every rank
    of the group runs the same round loop; rank 0 reads the number of
    intervals, [MPI_Bcast] hands it to every rank, each rank integrates
    4/(1+x*x) over its strided share of the sample points, [MPI_Reduce]
    adds the partial results on rank 0, and a broadcast 0 ends the run.

    - C [int] is a [Z] in the range [INT_MIN .. INT_MAX]; the one [int]
      operation of the program that can leave the range, [i += numprocs],
      is checked and reported as [Overflow] (undefined behaviour in C).
    - C [double] is an interface [DoubleOps] with two instances:
      [binary64], the IEEE 754 double of the compiled program (Rocq's
      primitive floats), and [exactQ], exact rational arithmetic.
    - The two collectives are modelled at group level: a group is the list
      of the ranks' local variables, indexed by rank. *)

From Stdlib Require Import ZArith List Lia Bool Permutation FinFun.
From Stdlib Require Import QArith Qabs Qpower.
From Stdlib Require Import Floats Uint63.
Import ListNotations.

Local Open Scope Z_scope.

(** ** C integers *)

Definition INT_MAX : Z := 2147483647.
Definition INT_MIN : Z := -2147483648.

Definition in_int (z : Z) : bool := (INT_MIN <=? z) && (z <=? INT_MAX).

(** Result of running a loop of the program: it finishes, its counter
    overflows, or the fuel given to the model is used up. *)
Inductive outcome (A : Type) : Type :=
| Done (a : A)
| Overflow
| OutOfFuel.
Arguments Done {A} a.
Arguments Overflow {A}.
Arguments OutOfFuel {A}.

Definition outcome_map {A B : Type} (f : A -> B) (o : outcome A) : outcome B :=
  match o with
  | Done a => Done (f a)
  | Overflow => Overflow
  | OutOfFuel => OutOfFuel
  end.

(** ** C doubles *)

(** The operations [main] applies to doubles, and the constants it names. *)
Class DoubleOps (D : Type) : Type := {
  d_zero : D;                 (* 0.0 *)
  d_half : D;                 (* 0.5 *)
  d_one : D;                  (* 1.0 *)
  d_four : D;                 (* 4.0 *)
  d_M_PI : D;                 (* M_PI of math.h *)
  d_add : D -> D -> D;
  d_sub : D -> D -> D;
  d_mul : D -> D -> D;
  d_div : D -> D -> D;
  d_fabs : D -> D;
  d_of_int : Z -> D           (* the conversion (double) of an int *)
}.

(** [(double) z] for an [int] [z]: every [int] is a double, so the
    conversion is exact; [of_uint63] converts the magnitude. *)
Definition float_of_int (z : Z) : float :=
  if z <? 0 then PrimFloat.opp (PrimFloat.of_uint63 (Uint63.of_Z (- z)))
  else PrimFloat.of_uint63 (Uint63.of_Z z).

#[global] Instance binary64 : DoubleOps float := {|
  d_zero := 0%float;
  d_half := 0.5%float;
  d_one := 1%float;
  d_four := 4%float;
  d_M_PI := 0x1.921fb54442d18p+1%float;
  d_add := PrimFloat.add;
  d_sub := PrimFloat.sub;
  d_mul := PrimFloat.mul;
  d_div := PrimFloat.div;
  d_fabs := PrimFloat.abs;
  d_of_int := float_of_int
|}.

#[global] Instance exactQ : DoubleOps Q := {|
  d_zero := 0%Q;
  d_half := (1 # 2)%Q;
  d_one := 1%Q;
  d_four := 4%Q;
  d_M_PI := (314159265358979323846 # 100000000000000000000)%Q;
  d_add := Qplus;
  d_sub := Qminus;
  d_mul := Qmult;
  d_div := Qdiv;
  d_fabs := Qabs;
  d_of_int := inject_Z
|}.

(** ** The local variables of [main] *)

Module Var.
Record locals (D : Type) : Type := mk {
  done : Z;
  n : Z;
  myid : Z;
  numprocs : Z;
  i : Z;
  mypi : D;
  pi : D;
  h : D;
  sum : D;
  x : D;
  t0 : D;
  t1 : D
}.
Arguments mk {D}.
Arguments done {D}.
Arguments n {D}.
Arguments myid {D}.
Arguments numprocs {D}.
Arguments i {D}.
Arguments mypi {D}.
Arguments pi {D}.
Arguments h {D}.
Arguments sum {D}.
Arguments x {D}.
Arguments t0 {D}.
Arguments t1 {D}.
End Var.
Abbreviation locals := Var.locals.

Section Assignments.
Context {D : Type}.
Implicit Types (l : locals D) (z : Z) (d : D).

Definition set_n l z : locals D :=
  Var.mk (Var.done l) z (Var.myid l) (Var.numprocs l) (Var.i l) (Var.mypi l)
    (Var.pi l) (Var.h l) (Var.sum l) (Var.x l) (Var.t0 l) (Var.t1 l).
Definition set_i l z : locals D :=
  Var.mk (Var.done l) (Var.n l) (Var.myid l) (Var.numprocs l) z (Var.mypi l)
    (Var.pi l) (Var.h l) (Var.sum l) (Var.x l) (Var.t0 l) (Var.t1 l).
Definition set_mypi l d : locals D :=
  Var.mk (Var.done l) (Var.n l) (Var.myid l) (Var.numprocs l) (Var.i l) d
    (Var.pi l) (Var.h l) (Var.sum l) (Var.x l) (Var.t0 l) (Var.t1 l).
Definition set_pi l d : locals D :=
  Var.mk (Var.done l) (Var.n l) (Var.myid l) (Var.numprocs l) (Var.i l) (Var.mypi l)
    d (Var.h l) (Var.sum l) (Var.x l) (Var.t0 l) (Var.t1 l).
Definition set_h l d : locals D :=
  Var.mk (Var.done l) (Var.n l) (Var.myid l) (Var.numprocs l) (Var.i l) (Var.mypi l)
    (Var.pi l) d (Var.sum l) (Var.x l) (Var.t0 l) (Var.t1 l).
Definition set_sum l d : locals D :=
  Var.mk (Var.done l) (Var.n l) (Var.myid l) (Var.numprocs l) (Var.i l) (Var.mypi l)
    (Var.pi l) (Var.h l) d (Var.x l) (Var.t0 l) (Var.t1 l).
Definition set_x l d : locals D :=
  Var.mk (Var.done l) (Var.n l) (Var.myid l) (Var.numprocs l) (Var.i l) (Var.mypi l)
    (Var.pi l) (Var.h l) (Var.sum l) d (Var.t0 l) (Var.t1 l).
Definition set_t0 l d : locals D :=
  Var.mk (Var.done l) (Var.n l) (Var.myid l) (Var.numprocs l) (Var.i l) (Var.mypi l)
    (Var.pi l) (Var.h l) (Var.sum l) (Var.x l) d (Var.t1 l).
Definition set_t1 l d : locals D :=
  Var.mk (Var.done l) (Var.n l) (Var.myid l) (Var.numprocs l) (Var.i l) (Var.mypi l)
    (Var.pi l) (Var.h l) (Var.sum l) (Var.x l) (Var.t0 l) d.
End Assignments.

(** ** The strided loop *)

(** The loop header [for (i = first; i <= n; i += numprocs)] on its own:
    the values of [i] at which the body runs, in order. *)
Fixpoint owned_loop (fuel : nat) (i n numprocs : Z) : outcome (list Z) :=
  match fuel with
  | O => OutOfFuel
  | S k =>
      if i <=? n then
        if in_int (i + numprocs)
        then outcome_map (cons i) (owned_loop k (i + numprocs) n numprocs)
        else Overflow
      else Done []
  end.

(** Each pass of the loop advances [i] by [numprocs >= 1] from [myid + 1],
    so [n - myid] passes and the closing test fit in this fuel. *)
Definition loop_fuel (n myid : Z) : nat := S (Z.to_nat (n - myid)).

(** The sample indices a rank owns: the loop header run from [myid + 1]. *)
Definition owned (n myid numprocs : Z) : outcome (list Z) :=
  owned_loop (loop_fuel n myid) (myid + 1) n numprocs.

Section Integrator.
Context {D : Type} {ops : DoubleOps D}.

(** [x = h * ((double)i - 0.5); sum += 4.0 / (1.0 + x*x);] *)
Definition loop_body (l : locals D) : locals D :=
  let l1 := set_x l (d_mul (Var.h l) (d_sub (d_of_int (Var.i l)) d_half)) in
  set_sum l1 (d_add (Var.sum l1)
                (d_div d_four (d_add d_one (d_mul (Var.x l1) (Var.x l1))))).

(** The loop from its test on: [i] already holds its current value. *)
Fixpoint for_loop (fuel : nat) (l : locals D) : outcome (locals D) :=
  match fuel with
  | O => OutOfFuel
  | S k =>
      if Var.i l <=? Var.n l then
        let l' := loop_body l in
        if in_int (Var.i l' + Var.numprocs l')
        then for_loop k (set_i l' (Var.i l' + Var.numprocs l'))
        else Overflow
      else Done l
  end.

(** The integration step of one round, from [h = 1.0 / (double) n] to
    [mypi = h * sum]. *)
Definition integrate (l : locals D) : outcome (locals D) :=
  let l1 := set_h l (d_div d_one (d_of_int (Var.n l))) in
  let l2 := set_sum l1 d_zero in
  let l3 := set_i l2 (Var.myid l2 + 1) in
  outcome_map (fun l4 => set_mypi l4 (d_mul (Var.h l4) (Var.sum l4)))
    (for_loop (loop_fuel (Var.n l3) (Var.myid l3)) l3).

End Integrator.

(** ** Processes, events and the two collectives *)

(** What a rank does that another rank, or the console, can observe. *)
Inductive event (D : Type) : Type :=
| EvPrompt                          (* printf of the prompt and fflush *)
| EvScanf (read : option Z)         (* scanf("%d",&n): the int read, if any *)
| EvBcast (v : Z)                   (* MPI_Bcast returned with n = v *)
| EvIntegrate (n : Z) (mypi : D)    (* integration step run with n *)
| EvReduce                          (* MPI_Reduce returned *)
| EvReport (elapsed pi err : D)     (* the two printf of the results *)
| EvFinalize                        (* MPI_Finalize *)
| EvReturn (code : Z).              (* return from main *)
Arguments EvPrompt {D}.
Arguments EvScanf {D} read.
Arguments EvBcast {D} v.
Arguments EvIntegrate {D} n mypi.
Arguments EvReduce {D}.
Arguments EvReport {D} elapsed pi err.
Arguments EvFinalize {D}.
Arguments EvReturn {D} code.

(** A rank: its local variables and what it has done so far, oldest first. *)
Record proc (D : Type) : Type := mkProc {
  vars : locals D;
  log : list (event D)
}.
Arguments mkProc {D}.
Arguments vars {D}.
Arguments log {D}.

(** What the environment supplies in one round: the outcome of rank 0's
    [scanf] ([None]: nothing converted, [n] keeps its value) and the two
    readings [MPI_Wtime] returns on each rank. *)
Record round_input (D : Type) : Type := mkInput {
  typed : option Z;
  wtime0 : Z -> D;
  wtime1 : Z -> D
}.
Arguments mkInput {D}.
Arguments typed {D}.
Arguments wtime0 {D}.
Arguments wtime1 {D}.

Inductive round_result (D : Type) : Type :=
| Continue (g : list (proc D))      (* every rank reached the end of the body *)
| AllBreak (g : list (proc D))      (* every rank took [break] *)
| Desync (g : list (proc D))        (* some ranks took [break], the others wait in MPI_Reduce *)
| Undefined (g : list (proc D))     (* a loop counter overflowed *)
| Hang (g : list (proc D)).         (* a strided loop did not finish *)
Arguments Continue {D} g.
Arguments AllBreak {D} g.
Arguments Desync {D} g.
Arguments Undefined {D} g.
Arguments Hang {D} g.

Inductive exit_path : Type :=
| ByBreak          (* [if (n == 0) break;] *)
| ByCondition.     (* [while (!done)] found [done] set *)

Inductive run_result (D : Type) : Type :=
| Exited (how : exit_path) (g : list (proc D))  (* every rank returned from main *)
| Waiting (g : list (proc D))       (* rank 0 waits for input, the others in MPI_Bcast *)
| Stuck (r : round_result D).       (* a round that did not complete *)
Arguments Exited {D} how g.
Arguments Waiting {D} g.
Arguments Stuck {D} r.

(** All results of a list of loops, or the first failure. *)
Fixpoint all_done {A : Type} (os : list (outcome A)) : outcome (list A) :=
  match os with
  | [] => Done []
  | Done a :: rest => outcome_map (cons a) (all_done rest)
  | Overflow :: _ => Overflow
  | OutOfFuel :: _ => OutOfFuel
  end.

Section Rounds.
Context {D : Type} {ops : DoubleOps D}.
Implicit Types (p : proc D) (g : list (proc D)).

Definition emit p (e : event D) : proc D := mkProc (vars p) (log p ++ [e]).
Definition assign p (f : locals D -> locals D) : proc D := mkProc (f (vars p)) (log p).

(** [if (myid == 0) { printf; fflush; scanf("%d",&n); }] *)
Definition read_input (t : option Z) p : proc D :=
  if Var.myid (vars p) =? 0 then
    let p1 := emit p EvPrompt in
    match t with
    | Some v => emit (assign p1 (fun l => set_n l v)) (EvScanf (Some v))
    | None => emit p1 (EvScanf None)
    end
  else p.

(** [MPI_Bcast(&n, 1, MPI_INT, 0, MPI_COMM_WORLD)]: every rank's [n]
    becomes the [n] of rank 0, the head of the group. *)
Definition root_n g : Z :=
  match g with
  | p0 :: _ => Var.n (vars p0)
  | [] => 0
  end.
Definition MPI_Bcast g : list (proc D) :=
  map (fun p => emit (assign p (fun l => set_n l (root_n g))) (EvBcast (root_n g))) g.

(** [if (n == 0) break;] as each rank decides it. *)
Definition takes_break p : bool := Var.n (vars p) =? 0.

(** [t0 = MPI_Wtime();] and the integration step. *)
Definition compute (w0 : Z -> D) p : outcome (proc D) :=
  let p1 := assign p (fun l => set_t0 l (w0 (Var.myid l))) in
  outcome_map
    (fun l => emit (mkProc l (log p1)) (EvIntegrate (Var.n l) (Var.mypi l)))
    (integrate (vars p1)).

(** The MPI_SUM of the ranks' values, taken in rank order. *)
Definition reduce_sum (partials : list D) : D :=
  match partials with
  | [] => d_zero
  | a :: rest => fold_left d_add rest a
  end.

(** [MPI_Reduce(&mypi, &pi, 1, MPI_DOUBLE, MPI_SUM, 0, MPI_COMM_WORLD)]:
    [pi] is written on rank 0 only. *)
Definition MPI_Reduce g : list (proc D) :=
  let total := reduce_sum (map (fun p => Var.mypi (vars p)) g) in
  map (fun p =>
         emit (if Var.myid (vars p) =? 0
               then assign p (fun l => set_pi l total) else p) EvReduce) g.

(** [t1 = MPI_Wtime(); if (myid == 0) { printf ...; printf ...; }] *)
Definition report (w1 : Z -> D) p : proc D :=
  let p1 := assign p (fun l => set_t1 l (w1 (Var.myid l))) in
  if Var.myid (vars p1) =? 0 then
    emit p1 (EvReport (d_sub (Var.t1 (vars p1)) (Var.t0 (vars p1)))
               (Var.pi (vars p1))
               (d_fabs (d_sub (Var.pi (vars p1)) d_M_PI)))
  else p1.

(** One pass through the body of [while (!done)], for the whole group. *)
Definition round g (ri : round_input D) : round_result D :=
  let g1 := MPI_Bcast (map (read_input (typed ri)) g) in
  if forallb takes_break g1 then AllBreak g1
  else if existsb takes_break g1 then Desync g1
  else
    match all_done (map (compute (wtime0 ri)) g1) with
    | Done g2 => Continue (map (report (wtime1 ri)) (MPI_Reduce g2))
    | Overflow => Undefined g1
    | OutOfFuel => Hang g1
    end.

(** [MPI_Finalize(); return 0;] *)
Definition finalize p : proc D := emit (emit p EvFinalize) (EvReturn 0).

(** [!done] as each rank evaluates it. *)
Definition loops_on p : bool := Var.done (vars p) =? 0.

(** The round loop, fed the inputs of the successive rounds. *)
Fixpoint run (ris : list (round_input D)) g : run_result D :=
  if forallb loops_on g then
    match ris with
    | [] => Waiting g
    | ri :: rest =>
        match round g ri with
        | Continue g' => run rest g'
        | AllBreak g' => Exited ByBreak (map finalize g')
        | r => Stuck r
        end
    end
  else if existsb loops_on g then Stuck (Desync g)
  else Exited ByCondition (map finalize g).

(** [MPI_Init], [MPI_Comm_size] and [MPI_Comm_rank] for a group of
    [size] ranks; [int done = 0] is the only local with an initializer,
    the others start with whatever [junk] holds. *)
Definition launch (size : nat) (junk : Z -> locals D) : list (proc D) :=
  map (fun r : nat =>
         let l := junk (Z.of_nat r) in
         mkProc (Var.mk 0 (Var.n l) (Z.of_nat r) (Z.of_nat size) (Var.i l)
                   (Var.mypi l) (Var.pi l) (Var.h l) (Var.sum l) (Var.x l)
                   (Var.t0 l) (Var.t1 l)) [])
      (seq 0 size).

Definition main (size : nat) (junk : Z -> locals D) (ris : list (round_input D))
  : run_result D :=
  run ris (launch size junk).

End Rounds.

(** * Properties of the strided loop *)

(** The indices the loop header visits, in closed form. *)
Definition strided (i n step : Z) : list Z :=
  map (fun k : nat => i + Z.of_nat k * step) (seq 0 (Z.to_nat ((n - i) / step + 1))).

Lemma strided_nil i n step : 1 <= step -> n < i -> strided i n step = [].
Proof.
  intros Hs Hlt. unfold strided.
  assert ((n - i) / step < 0) by (apply Z.div_lt_upper_bound; lia).
  replace (Z.to_nat ((n - i) / step + 1)) with 0%nat by lia. reflexivity.
Qed.

Lemma strided_cons i n step :
  1 <= step -> i <= n -> strided i n step = i :: strided (i + step) n step.
Proof.
  intros Hs Hle. unfold strided.
  assert (Hq : (n - i) / step = (n - (i + step)) / step + 1).
  { replace (n - i) with ((n - (i + step)) + 1 * step) by lia.
    rewrite Z.div_add by lia. reflexivity. }
  assert (0 <= (n - i) / step) by (apply Z.div_pos; lia).
  rewrite Hq.
  replace (Z.to_nat ((n - (i + step)) / step + 1 + 1))
    with (S (Z.to_nat ((n - (i + step)) / step + 1))) by lia.
  cbn [seq map]. f_equal; [lia|].
  rewrite <- seq_shift, map_map. apply map_ext. intros k. lia.
Qed.

Ltac int_lia := unfold INT_MIN, INT_MAX in *; lia.

Lemma in_int_true z : INT_MIN <= z <= INT_MAX -> in_int z = true.
Proof. intros H. unfold in_int. apply andb_true_iff. split; apply Z.leb_le; lia. Qed.

Lemma owned_loop_strided fuel : forall i n step,
  1 <= step -> INT_MIN <= i -> n + step <= INT_MAX ->
  Z.max 0 (n - i + 1) < Z.of_nat fuel ->
  owned_loop fuel i n step = Done (strided i n step).
Proof.
  induction fuel as [|k IH]; intros i n step Hs Hi Hn Hf; [lia|].
  cbn [owned_loop]. destruct (Z.leb_spec i n) as [Hle|Hgt].
  - rewrite in_int_true, IH by int_lia. cbn. now rewrite (strided_cons i n step).
  - now rewrite strided_nil.
Qed.

Lemma loop_fuel_enough n myid : Z.max 0 (n - (myid + 1) + 1) < Z.of_nat (loop_fuel n myid).
Proof. unfold loop_fuel. lia. Qed.

(** Within the [int] range the loop header finishes, on the closed form. *)
Lemma owned_strided n myid numprocs :
  1 <= numprocs -> 0 <= myid -> n + numprocs <= INT_MAX ->
  owned n myid numprocs = Done (strided (myid + 1) n numprocs).
Proof.
  intros Hs Hr Hn. unfold owned.
  apply owned_loop_strided; try int_lia. apply loop_fuel_enough.
Qed.

Lemma in_strided i n step j :
  1 <= step ->
  In j (strided i n step) <-> i <= j <= n /\ exists k, 0 <= k /\ j = i + k * step.
Proof.
  intros Hs. unfold strided. rewrite in_map_iff. split.
  - intros (k & <- & Hk). apply in_seq in Hk.
    assert (Hq : Z.of_nat k <= (n - i) / step) by lia.
    assert (Hm : step * ((n - i) / step) <= n - i) by (apply Z.mul_div_le; lia).
    split; [nia|]. exists (Z.of_nat k). split; lia.
  - intros (Hj & k & Hk & ->). exists (Z.to_nat k). split; [lia|].
    apply in_seq. split; [lia|].
    assert (k <= (n - i) / step) by (apply Z.div_le_lower_bound; nia).
    lia.
Qed.

Lemma NoDup_strided i n step : 1 <= step -> NoDup (strided i n step).
Proof.
  intros Hs. unfold strided.
  apply Injective_map_NoDup_in; [|apply seq_NoDup].
  intros a b _ _ Hab. nia.
Qed.

(** The ranks of a group of [numprocs] workers, in order. *)
Definition ranks (numprocs : Z) : list Z := map Z.of_nat (seq 0 (Z.to_nat numprocs)).

Lemma in_ranks numprocs r : In r (ranks numprocs) <-> 0 <= r < numprocs.
Proof.
  unfold ranks. rewrite in_map_iff. split.
  - intros (k & <- & Hk). apply in_seq in Hk. lia.
  - intros Hr. exists (Z.to_nat r). split; [lia|]. apply in_seq. lia.
Qed.

Lemma NoDup_ranks numprocs : NoDup (ranks numprocs).
Proof.
  unfold ranks. apply Injective_map_NoDup_in; [|apply seq_NoDup].
  intros a b _ _ Hab. lia.
Qed.

Lemma stride_residue r k step j :
  0 <= r < step -> j = r + 1 + k * step -> r = (j - 1) mod step.
Proof.
  intros Hr ->. replace (r + 1 + k * step - 1) with (r + k * step) by lia.
  rewrite Z.mod_add by lia. symmetry. apply Z.mod_small. lia.
Qed.

Lemma strided_disjoint n step r1 r2 j :
  1 <= step -> 0 <= r1 < step -> 0 <= r2 < step ->
  In j (strided (r1 + 1) n step) -> In j (strided (r2 + 1) n step) -> r1 = r2.
Proof.
  intros Hs H1 H2 Hj1 Hj2.
  apply in_strided in Hj1 as (_ & k1 & _ & E1); [|assumption].
  apply in_strided in Hj2 as (_ & k2 & _ & E2); [|assumption].
  rewrite (stride_residue r1 k1 step j), (stride_residue r2 k2 step j); auto.
Qed.

Lemma strided_cover n step j :
  1 <= step -> 1 <= j <= n ->
  exists r, 0 <= r < step /\ In j (strided (r + 1) n step).
Proof.
  intros Hs Hj. exists ((j - 1) mod step).
  assert (Hm : 0 <= (j - 1) mod step < step) by (apply Z.mod_pos_bound; lia).
  split; [assumption|]. apply in_strided; [assumption|].
  pose proof (Z.div_mod (j - 1) step ltac:(lia)) as Hd.
  assert (0 <= (j - 1) / step) by (apply Z.div_pos; lia).
  split; [lia|]. exists ((j - 1) / step). split; [assumption|]. lia.
Qed.

Lemma NoDup_concat_map {A B : Type} (f : A -> list B) (l : list A) :
  NoDup l ->
  (forall a, In a l -> NoDup (f a)) ->
  (forall a b y, In a l -> In b l -> In y (f a) -> In y (f b) -> a = b) ->
  NoDup (concat (map f l)).
Proof.
  induction 1 as [|a l Ha Hl IH]; intros Hnd Hdis; cbn; [constructor|].
  apply NoDup_app.
  - apply Hnd. now left.
  - apply IH; intros; [apply Hnd|eapply Hdis]; eauto; now right.
  - intros y Hy Hc. apply in_concat in Hc as (ys & Hys & Hin).
    apply in_map_iff in Hys as (b & <- & Hb).
    assert (a = b) by (eapply Hdis; eauto; [now left|now right]).
    subst. contradiction.
Qed.

(** The shares of the ranks, put end to end, are the indices [1..n] in
    another order: the sequential loop's share. *)
Lemma strided_shares_perm n step :
  1 <= step ->
  Permutation (concat (map (fun r => strided (r + 1) n step) (ranks step)))
              (strided 1 n 1).
Proof.
  intros Hs. apply NoDup_Permutation.
  - apply NoDup_concat_map.
    + apply NoDup_ranks.
    + intros. now apply NoDup_strided.
    + intros a b y Ha Hb. apply in_ranks in Ha, Hb. now apply strided_disjoint.
  - apply NoDup_strided. lia.
  - intros j. rewrite in_concat. split.
    + intros (ys & Hys & Hj). apply in_map_iff in Hys as (r & <- & Hr).
      apply in_ranks in Hr. apply in_strided in Hj as (Hj & _); [|assumption].
      apply in_strided; [lia|]. split; [lia|]. exists (j - 1). lia.
    + intros Hj. apply in_strided in Hj as (Hj & _); [|lia].
      destruct (strided_cover n step j Hs Hj) as (r & Hr & Hin).
      exists (strided (r + 1) n step). split; [|assumption].
      apply in_map_iff. exists r. split; [reflexivity|]. now apply in_ranks.
Qed.

(** When the last index of a share lies within [numprocs] of [INT_MAX],
    the increment that follows it overflows. *)
Lemma owned_loop_overflows fuel : forall i n step,
  1 <= step -> INT_MIN <= i <= n -> n <= INT_MAX ->
  INT_MAX < n - (n - i) mod step + step ->
  Z.max 0 (n - i + 1) < Z.of_nat fuel ->
  owned_loop fuel i n step = Overflow.
Proof.
  induction fuel as [|k IH]; intros i n step Hs Hi Hn Hlast Hf; [lia|].
  cbn [owned_loop]. destruct (Z.leb_spec i n) as [_|Hgt]; [|lia].
  destruct (in_int (i + step)) eqn:Hin; [|reflexivity].
  unfold in_int in Hin. apply andb_true_iff in Hin as [_ Hup%Z.leb_le].
  destruct (Z_le_gt_dec (i + step) n) as [Hnext|Hnext].
  - rewrite IH; [reflexivity|lia|int_lia|lia| |lia].
    replace (n - (i + step)) with (n - i + (-1) * step) by lia.
    now rewrite Z.mod_add by lia.
  - rewrite Z.mod_small in Hlast by lia. lia.
Qed.

Section IntegratorFacts.
Context {D : Type} {ops : DoubleOps D}.

(** The sample point of index [j], the kernel, and one accumulation. *)
Definition sample (h : D) (j : Z) : D := d_mul h (d_sub (d_of_int j) d_half).
Definition kernel (x : D) : D := d_div d_four (d_add d_one (d_mul x x)).
Definition accumulate (h : D) (s : D) (j : Z) : D := d_add s (kernel (sample h j)).

(** What the integration step leaves in [mypi] for a share [idx]:
    the kernel values are added up, and the sum is scaled by [h] once. *)
Definition partial_of (h : D) (idx : list Z) : D :=
  d_mul h (fold_left (accumulate h) idx d_zero).

(** The locals after the loop has visited [idx]. *)
Definition after_loop (l : locals D) (idx : list Z) : locals D :=
  Var.mk (Var.done l) (Var.n l) (Var.myid l) (Var.numprocs l)
    (Var.i l + Z.of_nat (length idx) * Var.numprocs l)
    (Var.mypi l) (Var.pi l) (Var.h l)
    (fold_left (accumulate (Var.h l)) idx (Var.sum l))
    (fold_left (fun _ j => sample (Var.h l) j) idx (Var.x l))
    (Var.t0 l) (Var.t1 l).

Lemma for_loop_owned fuel : forall l : locals D,
  for_loop fuel l
  = outcome_map (after_loop l) (owned_loop fuel (Var.i l) (Var.n l) (Var.numprocs l)).
Proof.
  induction fuel as [|k IH]; intros l; [reflexivity|].
  cbn [for_loop owned_loop].
  destruct (Var.i l <=? Var.n l).
  - change (Var.i (loop_body l)) with (Var.i l).
    change (Var.numprocs (loop_body l)) with (Var.numprocs l).
    destruct (in_int (Var.i l + Var.numprocs l)); [|reflexivity].
    rewrite IH. cbn [set_i Var.i Var.n Var.numprocs loop_body set_sum set_x].
    destruct (owned_loop k (Var.i l + Var.numprocs l) (Var.n l) (Var.numprocs l));
      cbn [outcome_map]; try reflexivity.
    f_equal. unfold after_loop.
    cbn [fold_left length set_i loop_body set_sum set_x Var.i Var.n
           Var.numprocs Var.done Var.myid Var.mypi Var.pi Var.h Var.sum
           Var.x Var.t0 Var.t1].
    f_equal. lia.
  - cbn [outcome_map]. f_equal. destruct l. unfold after_loop.
    cbn [fold_left length Var.i Var.n Var.numprocs Var.done Var.myid Var.mypi
           Var.pi Var.h Var.sum Var.x Var.t0 Var.t1].
    f_equal. lia.
Qed.

(** The step width of a round: [h = 1.0 / (double) n]. *)
Definition step_width (n : Z) : D := d_div d_one (d_of_int n).

(** The locals after the integration step over the share [idx]. *)
Definition integrated (l : locals D) (idx : list Z) : locals D :=
  Var.mk (Var.done l) (Var.n l) (Var.myid l) (Var.numprocs l)
    (Var.myid l + 1 + Z.of_nat (length idx) * Var.numprocs l)
    (partial_of (step_width (Var.n l)) idx) (Var.pi l) (step_width (Var.n l))
    (fold_left (accumulate (step_width (Var.n l))) idx d_zero)
    (fold_left (fun _ j => sample (step_width (Var.n l)) j) idx (Var.x l))
    (Var.t0 l) (Var.t1 l).

Lemma integrate_owned (l : locals D) :
  integrate l
  = outcome_map (integrated l) (owned (Var.n l) (Var.myid l) (Var.numprocs l)).
Proof.
  unfold integrate. rewrite for_loop_owned. unfold owned.
  cbn [set_i set_sum set_h Var.i Var.n Var.myid Var.numprocs].
  destruct (owned_loop _ _ _ _); reflexivity.
Qed.

End IntegratorFacts.


Lemma owned_overflows n myid numprocs :
  1 <= numprocs -> 0 <= myid -> myid + 1 <= n -> n <= INT_MAX ->
  INT_MAX < n - (n - (myid + 1)) mod numprocs + numprocs ->
  owned n myid numprocs = Overflow.
Proof.
  intros Hs Hr Hle Hn Hlast. unfold owned.
  apply owned_loop_overflows; try assumption; try int_lia.
  apply loop_fuel_enough.
Qed.

(** * The strided partition *)

(** The shares of a round partition the sample indices: every rank's loop
    finishes on the share [{r+1, r+1+numprocs, ...}] cut at [n], without
    repetition; no index lies in the shares of two ranks; and every index
    of [1..n] lies in the share of some rank. *)
Definition partition_of_samples (n numprocs : Z) : Prop :=
  (forall r, 0 <= r < numprocs ->
     exists share, owned n r numprocs = Done share /\ NoDup share /\
       forall j, In j share <->
                 1 <= j <= n /\ exists k, 0 <= k /\ j = r + 1 + k * numprocs)
  /\ (forall r1 r2 share1 share2 j,
        0 <= r1 < numprocs -> 0 <= r2 < numprocs ->
        owned n r1 numprocs = Done share1 -> owned n r2 numprocs = Done share2 ->
        In j share1 -> In j share2 -> r1 = r2)
  /\ (forall j, 1 <= j <= n ->
        exists r share, 0 <= r < numprocs /\ owned n r numprocs = Done share /\ In j share).

(** C1, as amended: for every n >= 1 and numprocs >= 1 with
    n + numprocs <= INT_MAX, the index sets the strided loops of the ranks
    produce are the sets [{r+1, r+1+numprocs, ...}] cut at [n]; they are
    pairwise disjoint and cover [1..n], each index owned exactly once. *)
Theorem strided_loop_partitions (n numprocs : Z) :
  1 <= n -> 1 <= numprocs -> n + numprocs <= INT_MAX ->
  partition_of_samples n numprocs.
Proof.
  intros Hn Hs Hmax. repeat split.
  - intros r Hr. exists (strided (r + 1) n numprocs).
    rewrite owned_strided by lia. split; [reflexivity|].
    split; [now apply NoDup_strided|].
    intros j. rewrite in_strided by assumption. split.
    + intros (Hj & k & Hk & ->). split; [lia|]. now exists k.
    + intros (Hj & k & Hk & ->). split; [nia|]. now exists k.
  - intros r1 r2 s1 s2 j H1 H2 E1 E2 I1 I2.
    rewrite owned_strided in E1, E2 by lia.
    injection E1 as <-. injection E2 as <-.
    now apply (strided_disjoint n numprocs r1 r2 j).
  - intros j Hj. destruct (strided_cover n numprocs j Hs Hj) as (r & Hr & Hin).
    exists r, (strided (r + 1) n numprocs). rewrite owned_strided by lia. auto.
Qed.

Lemma strided_loop_partitions_witness :
  (1 <= 10 /\ 1 <= 4 /\ 10 + 4 <= INT_MAX) /\ partition_of_samples 10 4.
Proof.
  assert (H : 1 <= 10 /\ 1 <= 4 /\ 10 + 4 <= INT_MAX) by (unfold INT_MAX; lia).
  split; [exact H|].
  apply (strided_loop_partitions 10 4); apply H.
Defined.

(** C1 as stated fails at n = INT_MAX with one rank: the loop test
    [i <= n] holds for every [int], so the counter is incremented past
    [INT_MAX] and the loop does not finish on a share. *)
Lemma strided_loop_overflows_at_INT_MAX :
  1 <= INT_MAX /\ 1 <= 1 /\ ~ partition_of_samples INT_MAX 1.
Proof.
  split; [int_lia|]. split; [lia|].
  intros (Hshare & _). destruct (Hshare 0 ltac:(lia)) as (share & Hdone & _).
  assert (E : owned INT_MAX 0 1 = Overflow).
  { apply owned_overflows; try (unfold INT_MAX; lia). rewrite Z.mod_1_r. lia. }
  pose proof (eq_trans (eq_sym E) Hdone) as Habs. discriminate Habs.
Qed.

(** * The partial sum of a rank *)

(** The partial sum as the specification words it: [h * f(x)] is
    accumulated for each owned index. *)
Definition per_term {D : Type} {ops : DoubleOps D} (h : D) (idx : list Z) : D :=
  fold_left (fun s j => d_add s (d_mul h (kernel (sample h j)))) idx d_zero.

Lemma per_term_fold_proper (h : Q) (idx : list Z) : forall s s' : Q,
  (s == s')%Q ->
  (fold_left (fun s j => d_add s (d_mul h (kernel (sample h j)))) idx s
   == fold_left (fun s j => d_add s (d_mul h (kernel (sample h j)))) idx s')%Q.
Proof.
  induction idx as [|j idx IH]; intros s s' Hs; cbn [fold_left]; [exact Hs|].
  apply IH. cbn [d_add exactQ]. now rewrite Hs.
Qed.

(** In exact arithmetic scaling every term by [h] and scaling the sum once
    give the same value. *)
Lemma scaled_once_is_per_term (h : Q) (idx : list Z) :
  (partial_of h idx == per_term h idx)%Q.
Proof.
  unfold partial_of, per_term.
  assert (G : forall s : Q,
             (d_mul h (fold_left (accumulate h) idx s)
              == fold_left (fun s j => d_add s (d_mul h (kernel (sample h j)))) idx
                   (h * s))%Q).
  { induction idx as [|j idx IH]; intros s; cbn [fold_left]; [reflexivity|].
    rewrite IH. apply per_term_fold_proper.
    unfold accumulate. cbn [d_add d_mul exactQ]. ring. }
  rewrite G. apply per_term_fold_proper. cbn [d_zero exactQ]. ring.
Qed.

Lemma integrate_mypi {D : Type} {ops : DoubleOps D} (l : locals D) :
  outcome_map Var.mypi (integrate l)
  = outcome_map (partial_of (step_width (Var.n l)))
      (owned (Var.n l) (Var.myid l) (Var.numprocs l)).
Proof.
  rewrite integrate_owned.
  destruct (owned (Var.n l) (Var.myid l) (Var.numprocs l)); reflexivity.
Qed.

(** C3, as amended: for n >= 1, a rank of the group and
    n + numprocs <= INT_MAX, the rank's loop visits its share, the kernel
    values 4/(1 + (h*(i-0.5))^2) of the owned indices are added up
    unscaled, and the sum is multiplied by h = 1/n once, after the loop;
    in exact arithmetic this equals the sum of the terms scaled one by
    one. *)
Theorem partial_sum_scaled_once (n myid numprocs : Z) :
  1 <= n -> 0 <= myid < numprocs -> n + numprocs <= INT_MAX ->
  exists share,
    owned n myid numprocs = Done share
    /\ (forall j, In j share <->
                  1 <= j <= n /\ exists k, 0 <= k /\ j = myid + 1 + k * numprocs)
    /\ (forall (D : Type) (ops : DoubleOps D) (l : locals D),
          Var.n l = n -> Var.myid l = myid -> Var.numprocs l = numprocs ->
          outcome_map Var.mypi (integrate l)
          = Done (d_mul (step_width n)
                    (fold_left (fun s j => d_add s (kernel (sample (step_width n) j)))
                       share d_zero)))
    /\ (partial_of (ops := exactQ) (step_width n) share
        == per_term (ops := exactQ) (step_width n) share)%Q.
Proof.
  intros Hn Hr Hmax. exists (strided (myid + 1) n numprocs).
  assert (Ho : owned n myid numprocs = Done (strided (myid + 1) n numprocs))
    by (apply owned_strided; lia).
  split; [exact Ho|]. split.
  - intros j. rewrite in_strided by lia. split.
    + intros (Hj & k & Hk & ->). split; [lia|]. now exists k.
    + intros (Hj & k & Hk & ->). split; [nia|]. now exists k.
  - split.
    + intros D ops l En Er Es. rewrite integrate_mypi, En, Er, Es, Ho. reflexivity.
    + apply scaled_once_is_per_term.
Qed.

Lemma partial_sum_scaled_once_witness :
  (1 <= 3 /\ 0 <= 0 < 1 /\ 3 + 1 <= INT_MAX)
  /\ exists share,
    owned 3 0 1 = Done share
    /\ (forall j, In j share <->
                  1 <= j <= 3 /\ exists k, 0 <= k /\ j = 0 + 1 + k * 1)
    /\ (forall (D : Type) (ops : DoubleOps D) (l : locals D),
          Var.n l = 3 -> Var.myid l = 0 -> Var.numprocs l = 1 ->
          outcome_map Var.mypi (integrate l)
          = Done (d_mul (step_width 3)
                    (fold_left (fun s j => d_add s (kernel (sample (step_width 3) j)))
                       share d_zero)))
    /\ (partial_of (ops := exactQ) (step_width 3) share
        == per_term (ops := exactQ) (step_width 3) share)%Q.
Proof.
  assert (H : 1 <= 3 /\ 0 <= 0 < 1 /\ 3 + 1 <= INT_MAX) by (unfold INT_MAX; lia).
  split; [exact H|].
  apply (partial_sum_scaled_once 3 0 1); apply H.
Defined.

(** C3 as stated fails in the program's double arithmetic: with n = 3 on
    a single rank, [mypi = h * sum] is 3.1508492098656036 while adding the
    terms [h * f(x)] one by one gives 3.1508492098656031. *)
Lemma per_term_scaling_differs_in_binary64 :
  1 <= 3 /\
  outcome_map Var.mypi
    (integrate (Var.mk 0 3 0 1 0 0%float 0%float 0%float 0%float 0%float 0%float 0%float))
  <> outcome_map (per_term (step_width 3)) (owned 3 0 1).
Proof.
  split; [lia|]. intros H.
  apply (f_equal (outcome_map Prim2SF)) in H.
  vm_compute in H. discriminate H.
Qed.

(** * Rounds of the whole group *)

Section RoundFacts.
Context {D : Type} {ops : DoubleOps D}.
Implicit Types (p : proc D) (g : list (proc D)) (ri : round_input D).

(** A group as [launch] makes it and rounds keep it: rank [r] sits at
    position [r], every rank knows the size, and [done] is still 0. *)
Definition wf_group g : Prop :=
  g <> []
  /\ map (fun p => Var.myid (vars p)) g = ranks (Z.of_nat (length g))
  /\ Forall (fun p => Var.numprocs (vars p) = Z.of_nat (length g)
                      /\ Var.done (vars p) = 0) g.

(** The value [MPI_Bcast] distributes in a round. *)
Definition broadcast_value g ri : Z := root_n (map (read_input (typed ri)) g).

(** A rank when [MPI_Bcast] has returned [v]. *)
Definition after_bcast (t : option Z) (v : Z) p : proc D :=
  emit (assign (read_input t p) (fun l => set_n l v)) (EvBcast v).

(** A rank when its integration step has finished on the share [idx]. *)
Definition computed (w0 : Z -> D) p (idx : list Z) : proc D :=
  emit (mkProc (integrated (set_t0 (vars p) (w0 (Var.myid (vars p)))) idx) (log p))
    (EvIntegrate (Var.n (vars p)) (partial_of (step_width (Var.n (vars p))) idx)).

(** A rank when [MPI_Reduce] has returned with the sum [total]. *)
Definition reduced (total : D) p : proc D :=
  emit (if Var.myid (vars p) =? 0 then assign p (fun l => set_pi l total) else p)
    EvReduce.

(** The share of a rank in a round with [n = v]. *)
Definition share_of (v : Z) p : list Z :=
  match owned v (Var.myid (vars p)) (Var.numprocs (vars p)) with
  | Done idx => idx
  | _ => []
  end.

(** The partial results of a round with [n = v], in rank order, and the
    rank at the end of a round that completes. *)
Definition partials (v : Z) g : list D :=
  map (fun p => partial_of (step_width v) (share_of v p)) g.
Definition round_done ri (v : Z) (total : D) p : proc D :=
  report (wtime1 ri)
    (reduced total (computed (wtime0 ri) (after_bcast (typed ri) v p) (share_of v p))).

(** The group a run has reached, whatever its result. *)
Definition group_of (r : run_result D) : list (proc D) :=
  match r with
  | Exited _ g => g
  | Waiting g => g
  | Stuck (Continue g) | Stuck (AllBreak g) | Stuck (Desync g)
  | Stuck (Undefined g) | Stuck (Hang g) => g
  end.

Lemma read_input_ids t p :
  Var.myid (vars (read_input t p)) = Var.myid (vars p)
  /\ Var.numprocs (vars (read_input t p)) = Var.numprocs (vars p)
  /\ Var.done (vars (read_input t p)) = Var.done (vars p).
Proof.
  unfold read_input. destruct (Var.myid (vars p) =? 0); [|auto].
  destruct t; cbn; auto.
Qed.

Lemma after_bcast_vars t v p :
  Var.n (vars (after_bcast t v p)) = v
  /\ Var.myid (vars (after_bcast t v p)) = Var.myid (vars p)
  /\ Var.numprocs (vars (after_bcast t v p)) = Var.numprocs (vars p)
  /\ Var.done (vars (after_bcast t v p)) = Var.done (vars p).
Proof.
  destruct (read_input_ids t p) as (E1 & E2 & E3).
  unfold after_bcast. cbn. auto.
Qed.

Lemma after_bcast_log t v p :
  log (after_bcast t v p)
  = log p ++ (if Var.myid (vars p) =? 0 then [EvPrompt; EvScanf t] else [])
      ++ [EvBcast v].
Proof.
  unfold after_bcast, read_input.
  destruct (Var.myid (vars p) =? 0).
  - destruct t; cbn; now rewrite <- !app_assoc.
  - cbn. reflexivity.
Qed.

Lemma MPI_Bcast_read_input g ri :
  MPI_Bcast (map (read_input (typed ri)) g)
  = map (after_bcast (typed ri) (broadcast_value g ri)) g.
Proof.
  unfold MPI_Bcast, broadcast_value. rewrite map_map. reflexivity.
Qed.

Lemma forallb_takes_break t v g :
  g <> [] -> forallb takes_break (map (after_bcast t v) g) = (v =? 0).
Proof.
  intros Hg. induction g as [|p g IH]; [contradiction|].
  cbn [map forallb]. unfold takes_break at 1.
  destruct (after_bcast_vars t v p) as (-> & _).
  destruct g as [|q g]; [cbn; apply andb_true_r|].
  rewrite IH by discriminate. apply andb_diag.
Qed.

Lemma existsb_takes_break t v g :
  g <> [] -> existsb takes_break (map (after_bcast t v) g) = (v =? 0).
Proof.
  intros Hg. induction g as [|p g IH]; [contradiction|].
  cbn [map existsb]. unfold takes_break at 1.
  destruct (after_bcast_vars t v p) as (-> & _).
  destruct g as [|q g]; [cbn; apply orb_false_r|].
  rewrite IH by discriminate. apply orb_diag.
Qed.

Lemma compute_owned (w0 : Z -> D) p :
  compute w0 p
  = outcome_map (computed w0 p)
      (owned (Var.n (vars p)) (Var.myid (vars p)) (Var.numprocs (vars p))).
Proof.
  unfold compute. cbn [assign vars log]. rewrite integrate_owned.
  cbn [set_t0 Var.n Var.myid Var.numprocs].
  destruct (owned _ _ _); reflexivity.
Qed.

Lemma all_done_map_outcome {A B C : Type} (F : A -> B -> C) (G : A -> outcome B)
  (dflt : B) (l : list A) :
  all_done (map (fun a => outcome_map (F a) (G a)) l)
  = outcome_map
      (fun _ => map (fun a => F a (match G a with Done b => b | _ => dflt end)) l)
      (all_done (map G l)).
Proof.
  induction l as [|a l IH]; [reflexivity|].
  cbn [map all_done]. destruct (G a) as [b| |]; cbn [outcome_map]; try reflexivity.
  rewrite IH. destruct (all_done (map G l)); reflexivity.
Qed.

Lemma all_done_Done_iff {A B : Type} (G : A -> outcome B) (l : list A) :
  (exists bs, all_done (map G l) = Done bs)
  <-> Forall (fun a => exists b, G a = Done b) l.
Proof.
  induction l as [|a l IH]; cbn [map all_done].
  - split; [constructor|]. intros _. now exists [].
  - split.
    + intros (bs & H). destruct (G a) as [b| |] eqn:E; try discriminate.
      constructor; [now exists b|]. apply IH.
      destruct (all_done (map G l)) as [bs'| |]; try discriminate. now exists bs'.
    + intros H. inversion H as [|? ? (b & Hb) Hl]; subst. rewrite Hb.
      apply IH in Hl as (bs & ->). now exists (b :: bs).
Qed.

(** A round whose broadcast value is 0. *)
Lemma round_break g ri :
  g <> [] -> broadcast_value g ri = 0 ->
  round g ri = AllBreak (map (after_bcast (typed ri) 0) g).
Proof.
  intros Hg Hv. unfold round. rewrite MPI_Bcast_read_input, Hv.
  now rewrite forallb_takes_break.
Qed.

(** A round whose broadcast value is not 0: it completes when every
    rank's loop finishes. *)
Lemma round_step g ri :
  g <> [] -> broadcast_value g ri <> 0 ->
  round g ri
  = match all_done (map (fun p => owned (broadcast_value g ri) (Var.myid (vars p))
                                    (Var.numprocs (vars p))) g) with
    | Done _ =>
        Continue (map (round_done ri (broadcast_value g ri)
                         (reduce_sum (partials (broadcast_value g ri) g))) g)
    | Overflow => Undefined (map (after_bcast (typed ri) (broadcast_value g ri)) g)
    | OutOfFuel => Hang (map (after_bcast (typed ri) (broadcast_value g ri)) g)
    end.
Proof.
  intros Hg Hv. unfold round. rewrite MPI_Bcast_read_input.
  set (v := broadcast_value g ri) in *.
  rewrite forallb_takes_break, existsb_takes_break by assumption.
  apply Z.eqb_neq in Hv. rewrite Hv. rewrite map_map.
  erewrite map_ext
    with (g := fun p => outcome_map (computed (wtime0 ri) (after_bcast (typed ri) v p))
                          (owned v (Var.myid (vars p)) (Var.numprocs (vars p)))).
  2:{ intros p. rewrite compute_owned.
      destruct (after_bcast_vars (typed ri) v p) as (-> & -> & -> & _). reflexivity. }
  rewrite (all_done_map_outcome _ _ []).
  destruct (all_done (map (fun p => owned v (Var.myid (vars p)) (Var.numprocs (vars p))) g));
    cbn [outcome_map]; try reflexivity.
  f_equal. unfold MPI_Reduce. rewrite !map_map.
  apply map_ext_in. intros p _. unfold round_done, share_of. f_equal.
Qed.

End RoundFacts.

Section RunFacts.
Context {D : Type} {ops : DoubleOps D}.
Implicit Types (p : proc D) (g : list (proc D)) (ri : round_input D).

Lemma Forall2_map_self {A : Type} (R : A -> A -> Prop) (f : A -> A) (l : list A) :
  (forall a, In a l -> R a (f a)) -> Forall2 R l (map f l).
Proof.
  induction l as [|a l IH]; intros H; cbn; constructor.
  - apply H. now left.
  - apply IH. intros b Hb. apply H. now right.
Qed.

Lemma ranks_succ (k : nat) :
  ranks (Z.of_nat (S k)) = 0 :: map (fun r => r + 1) (ranks (Z.of_nat k)).
Proof.
  unfold ranks. rewrite !Nat2Z.id. cbn [seq map]. f_equal.
  rewrite <- seq_shift, !map_map. apply map_ext. intros a. lia.
Qed.

Lemma wf_group_root g : wf_group g -> exists p g', g = p :: g' /\ Var.myid (vars p) = 0.
Proof.
  intros (Hne & Hid & _). destruct g as [|p g']; [contradiction|].
  exists p, g'. split; [reflexivity|].
  cbn [length map] in Hid. rewrite ranks_succ in Hid. now injection Hid.
Qed.

Lemma wf_group_rank g p :
  wf_group g -> In p g ->
  0 <= Var.myid (vars p) < Z.of_nat (length g)
  /\ Var.numprocs (vars p) = Z.of_nat (length g) /\ Var.done (vars p) = 0.
Proof.
  intros (_ & Hid & Hall) Hp. split.
  - apply in_ranks. rewrite <- Hid. now apply (in_map (fun q => Var.myid (vars q))).
  - rewrite Forall_forall in Hall. now apply Hall.
Qed.

(** Steps that leave [myid], [numprocs] and [done] alone keep a group
    well formed. *)
Lemma wf_group_map (f : proc D -> proc D) g :
  (forall p, Var.myid (vars (f p)) = Var.myid (vars p)
             /\ Var.numprocs (vars (f p)) = Var.numprocs (vars p)
             /\ Var.done (vars (f p)) = Var.done (vars p)) ->
  wf_group g -> wf_group (map f g).
Proof.
  intros Hf (Hne & Hid & Hall). repeat split.
  - destruct g; [contradiction|discriminate].
  - rewrite length_map, map_map, <- Hid. apply map_ext. intros p. apply Hf.
  - rewrite length_map. apply Forall_map. eapply Forall_impl; [|exact Hall].
    intros p (E1 & E2). destruct (Hf p) as (_ & -> & ->). auto.
Qed.

Lemma round_done_ids ri v total p :
  Var.myid (vars (round_done ri v total p)) = Var.myid (vars p)
  /\ Var.numprocs (vars (round_done ri v total p)) = Var.numprocs (vars p)
  /\ Var.done (vars (round_done ri v total p)) = Var.done (vars p).
Proof.
  destruct (after_bcast_vars (typed ri) v p) as (_ & E1 & E2 & E3).
  unfold round_done, report, reduced, computed.
  repeat match goal with
         | |- context [if ?b then _ else _] => destruct b
         end;
    cbn [assign emit vars log integrated set_t1 set_t0 set_pi Var.myid Var.numprocs Var.done];
    auto.
Qed.

Lemma wf_group_loops_on g : wf_group g -> forallb loops_on g = true.
Proof.
  intros H. apply forallb_forall. intros p Hp.
  destruct (wf_group_rank g p H Hp) as (_ & _ & Hd).
  unfold loops_on. now rewrite Hd.
Qed.

Lemma run_nil g : wf_group g -> run [] g = Waiting g.
Proof. intros H. cbn. now rewrite wf_group_loops_on. Qed.

Lemma run_cons g ri rest :
  wf_group g ->
  run (ri :: rest) g
  = match round g ri with
    | Continue g' => run rest g'
    | AllBreak g' => Exited ByBreak (map finalize g')
    | r => Stuck r
    end.
Proof. intros H. cbn [run]. now rewrite wf_group_loops_on. Qed.

Lemma wf_group_nonempty g : wf_group g -> g <> [].
Proof. now intros (H & _). Qed.

Lemma round_Continue_inv g ri g' :
  wf_group g -> round g ri = Continue g' ->
  broadcast_value g ri <> 0
  /\ g' = map (round_done ri (broadcast_value g ri)
                 (reduce_sum (partials (broadcast_value g ri) g))) g
  /\ Forall (fun p => exists idx,
               owned (broadcast_value g ri) (Var.myid (vars p)) (Var.numprocs (vars p))
               = Done idx) g
  /\ wf_group g'.
Proof.
  intros Hwf Hr. pose proof (wf_group_nonempty g Hwf) as Hne.
  destruct (Z.eq_dec (broadcast_value g ri) 0) as [Hz|Hnz].
  { rewrite round_break in Hr by assumption. discriminate. }
  split; [assumption|]. rewrite round_step in Hr by assumption.
  destruct (all_done _) as [idxs| |] eqn:E; try discriminate.
  injection Hr as <-. split; [reflexivity|]. split.
  - apply (all_done_Done_iff
             (fun p => owned (broadcast_value g ri) (Var.myid (vars p))
                         (Var.numprocs (vars p)))).
    now exists idxs.
  - apply wf_group_map; [|assumption]. intros p. apply round_done_ids.
Qed.

Lemma round_stuck_inv g ri :
  wf_group g -> broadcast_value g ri <> 0 ->
  (exists g', round g ri = Continue g')
  \/ round g ri = Undefined (map (after_bcast (typed ri) (broadcast_value g ri)) g)
  \/ round g ri = Hang (map (after_bcast (typed ri) (broadcast_value g ri)) g).
Proof.
  intros Hwf Hnz. rewrite round_step by (try apply wf_group_nonempty; assumption).
  destruct (all_done _); eauto.
Qed.

(** What a run with a well-formed group can end in: it waits for the next
    input after completing every round, or some round [ri] is its last,
    with broadcast value 0 (every rank leaves) or with a loop that does
    not finish. *)
Lemma run_cases ris : forall g,
  wf_group g ->
  (exists g', run ris g = Waiting g' /\ wf_group g')
  \/ (exists pre ri post g0,
        ris = pre ++ ri :: post /\ run pre g = Waiting g0 /\ wf_group g0
        /\ ((broadcast_value g0 ri = 0
             /\ run ris g = Exited ByBreak
                              (map finalize (map (after_bcast (typed ri) 0) g0)))
            \/ (broadcast_value g0 ri <> 0
                /\ (run ris g
                    = Stuck (Undefined
                               (map (after_bcast (typed ri) (broadcast_value g0 ri)) g0))
                    \/ run ris g
                       = Stuck (Hang
                                  (map (after_bcast (typed ri) (broadcast_value g0 ri)) g0)))))).
Proof.
  induction ris as [|ri rest IH]; intros g Hwf.
  - left. exists g. split; [now apply run_nil|assumption].
  - rewrite run_cons by assumption.
    pose proof (wf_group_nonempty g Hwf) as Hne.
    destruct (Z.eq_dec (broadcast_value g ri) 0) as [Hz|Hnz].
    + right. exists [], ri, rest, g. rewrite round_break by assumption.
      split; [reflexivity|]. split; [now apply run_nil|]. split; [assumption|].
      left. auto.
    + destruct (round_stuck_inv g ri Hwf Hnz) as [(g' & Hr)|[Hr|Hr]]; rewrite Hr.
      * destruct (round_Continue_inv g ri g' Hwf Hr) as (_ & _ & _ & Hwf').
        destruct (IH g' Hwf')
          as [(g'' & E & W)|(pre & ri' & post & g0 & -> & Epre & W & Hcase)].
        -- left. exists g''. auto.
        -- right. exists (ri :: pre), ri', post, g0. split; [reflexivity|].
           split; [rewrite run_cons, Hr by assumption; exact Epre|].
           split; assumption.
      * right. exists [], ri, rest, g. split; [reflexivity|].
        split; [now apply run_nil|]. split; [assumption|]. right. auto.
      * right. exists [], ri, rest, g. split; [reflexivity|].
        split; [now apply run_nil|]. split; [assumption|]. right. auto.
Qed.


(** The events a rank adds to its log in a round that completes. *)
Definition round_events ri (v : Z) (total : D) p : list (event D) :=
  (if Var.myid (vars p) =? 0 then [EvPrompt; EvScanf (typed ri)] else [])
  ++ [EvBcast v; EvIntegrate v (partial_of (step_width v) (share_of v p)); EvReduce]
  ++ (if Var.myid (vars p) =? 0
      then [EvReport (d_sub (wtime1 ri (Var.myid (vars p))) (wtime0 ri (Var.myid (vars p))))
              total (d_fabs (d_sub total d_M_PI))]
      else []).

Lemma round_done_log ri v total p :
  log (round_done ri v total p) = log p ++ round_events ri v total p.
Proof.
  destruct (after_bcast_vars (typed ri) v p) as (En & Er & _).
  unfold round_done, round_events, report, reduced, computed.
  destruct (Var.myid (vars p) =? 0) eqn:E;
    repeat (cbn [assign emit vars log integrated set_t1 set_t0 set_pi Var.myid Var.n
                   Var.t0 Var.t1 Var.pi];
            rewrite ?Er, ?En, ?E);
    rewrite after_bcast_log, E, <- ?app_assoc; reflexivity.
Qed.

(** Events of a rank that is still in the round loop, and events a run
    can produce at all. *)
Definition loop_event (e : event D) : Prop :=
  match e with
  | EvFinalize | EvReturn _ => False
  | EvIntegrate n _ => n <> 0
  | _ => True
  end.
Definition sound_event (e : event D) : Prop :=
  match e with
  | EvIntegrate n _ => n <> 0
  | EvReturn code => code = 0
  | _ => True
  end.

(** [p'] is [p] later on: its log is the log of [p] and events in [Q]. *)
Definition grows (Q : event D -> Prop) p p' : Prop :=
  exists evs, log p' = log p ++ evs /\ Forall Q evs.

Lemma grows_refl Q p : grows Q p p.
Proof. exists []. split; [now rewrite app_nil_r|constructor]. Qed.

Lemma grows_trans Q p1 p2 p3 : grows Q p1 p2 -> grows Q p2 p3 -> grows Q p1 p3.
Proof.
  intros (e1 & E1 & F1) (e2 & E2 & F2). exists (e1 ++ e2).
  split; [now rewrite E2, E1, app_assoc|]. apply Forall_app. auto.
Qed.

Lemma grows_weaken (Q Q' : event D -> Prop) p p' :
  (forall e, Q e -> Q' e) -> grows Q p p' -> grows Q' p p'.
Proof.
  intros HQ (evs & E & F). exists evs. split; [assumption|].
  eapply Forall_impl; eauto.
Qed.

Lemma Forall2_grows_trans Q g1 : forall g2 g3,
  Forall2 (grows Q) g1 g2 -> Forall2 (grows Q) g2 g3 -> Forall2 (grows Q) g1 g3.
Proof.
  induction g1 as [|p g1 IH]; intros g2 g3 H12 H23.
  - inversion H12; subst. inversion H23; subst. constructor.
  - inversion H12; subst. inversion H23; subst. constructor.
    + eapply grows_trans; eauto.
    + eapply IH; eauto.
Qed.

Lemma loop_event_sound e : loop_event e -> sound_event e.
Proof. destruct e; cbn; tauto. Qed.

Lemma after_bcast_grows t v p : grows loop_event p (after_bcast t v p).
Proof.
  exists ((if Var.myid (vars p) =? 0 then [EvPrompt; EvScanf t] else []) ++ [EvBcast v]).
  split; [apply after_bcast_log|].
  destruct (Var.myid (vars p) =? 0); repeat constructor.
Qed.

Lemma round_done_grows ri v total p :
  v <> 0 -> grows loop_event p (round_done ri v total p).
Proof.
  intros Hv. exists (round_events ri v total p). split; [apply round_done_log|].
  unfold round_events. destruct (Var.myid (vars p) =? 0); repeat constructor; exact Hv.
Qed.

Lemma finalize_grows p : grows sound_event p (finalize p).
Proof.
  exists [EvFinalize; EvReturn 0]. split.
  - unfold finalize, emit. cbn. now rewrite <- app_assoc.
  - repeat constructor.
Qed.

(** A run that waits for its next input has kept the group well formed,
    and no rank has finalized or returned. *)
Lemma run_Waiting_inv pre : forall g g0,
  wf_group g -> run pre g = Waiting g0 ->
  wf_group g0 /\ Forall2 (grows loop_event) g g0.
Proof.
  induction pre as [|ri pre IH]; intros g g0 Hwf Hrun.
  - rewrite run_nil in Hrun by assumption. injection Hrun as <-.
    split; [assumption|].
    rewrite <- (map_id g) at 2. apply Forall2_map_self. intros. apply grows_refl.
  - rewrite run_cons in Hrun by assumption.
    destruct (round g ri) as [g'|g'|g'|g'|g'] eqn:Hr; try discriminate.
    destruct (round_Continue_inv g ri g' Hwf Hr) as (Hnz & -> & _ & Hwf').
    destruct (IH _ _ Hwf' Hrun) as (W & G). split; [assumption|].
    eapply Forall2_grows_trans; [|exact G].
    apply Forall2_map_self. intros p _. now apply round_done_grows.
Qed.

(** Whatever a run ends in, every integration step it has logged ran with
    [n <> 0] and every return it has logged returned 0. *)
Lemma run_grows_sound ris g :
  wf_group g -> Forall2 (grows sound_event) g (group_of (run ris g)).
Proof.
  intros Hwf.
  assert (Hl : forall pre g0, run pre g = Waiting g0 ->
                 Forall2 (grows sound_event) g g0).
  { intros pre g0 Hrun. destruct (run_Waiting_inv pre g g0 Hwf Hrun) as (_ & G).
    eapply Forall2_impl; [|exact G]. intros a b.
    apply grows_weaken, loop_event_sound. }
  destruct (run_cases ris g Hwf)
    as [(g' & E & _)|(pre & ri & post & g0 & -> & Epre & W & Hcase)].
  - rewrite E. cbn. eapply Hl; eauto.
  - eapply Forall2_grows_trans; [eapply Hl; eauto|].
    destruct Hcase as [(_ & E)|(_ & [E|E])]; rewrite E; cbn [group_of].
    + rewrite map_map. apply Forall2_map_self. intros p _.
      eapply grows_trans; [|apply finalize_grows].
      eapply grows_weaken; [apply loop_event_sound|apply after_bcast_grows].
    + apply Forall2_map_self. intros p _.
      eapply grows_weaken; [apply loop_event_sound|apply after_bcast_grows].
    + apply Forall2_map_self. intros p _.
      eapply grows_weaken; [apply loop_event_sound|apply after_bcast_grows].
Qed.

Lemma launch_wf (size : nat) (junk : Z -> locals D) :
  (1 <= size)%nat -> wf_group (launch size junk).
Proof.
  intros Hs. unfold wf_group, launch. rewrite length_map, length_seq. repeat split.
  - destruct size; [lia|discriminate].
  - rewrite map_map. cbn [vars Var.myid]. unfold ranks. now rewrite Nat2Z.id.
  - apply Forall_map. apply Forall_forall. intros r _. cbn. auto.
Qed.

Lemma launch_log (size : nat) (junk : Z -> locals D) p :
  In p (launch size junk) -> log p = [].
Proof.
  unfold launch. intros Hp. apply in_map_iff in Hp as (r & <- & _). reflexivity.
Qed.

Lemma run_no_ranks ris : group_of (run ris (@nil (proc D))) = [].
Proof. destruct ris; reflexivity. Qed.

Lemma Forall2_In_r {A B : Type} (R : A -> B -> Prop) l l' b :
  Forall2 R l l' -> In b l' -> exists a, In a l /\ R a b.
Proof.
  induction 1 as [|a0 b0 l l' H0 H IH]; intros Hb; [contradiction|].
  destruct Hb as [<-|Hb].
  - exists a0. split; [now left|assumption].
  - destruct (IH Hb) as (a & Ha & Hab). exists a. split; [now right|assumption].
Qed.

(** The events a rank of [main] has logged are sound. *)
Lemma main_log_sound (size : nat) (junk : Z -> locals D) ris p :
  In p (group_of (main size junk ris)) -> Forall sound_event (log p).
Proof.
  unfold main. intros Hp. destruct size as [|k].
  - cbn [launch seq map] in Hp. rewrite run_no_ranks in Hp. contradiction.
  - pose proof (run_grows_sound ris _ (launch_wf (S k) junk ltac:(lia))) as G.
    destruct (Forall2_In_r _ _ _ _ G Hp) as (p0 & Hp0 & evs & E & F).
    rewrite E, (launch_log _ _ _ Hp0). exact F.
Qed.

Lemma broadcast_value_typed g ri :
  wf_group g ->
  broadcast_value g ri
  = match typed ri with Some v => v | None => root_n g end.
Proof.
  intros Hwf. destruct (wf_group_root g Hwf) as (p & g' & -> & Hr).
  unfold broadcast_value. cbn [map root_n]. unfold read_input. rewrite Hr.
  cbn [Z.eqb]. destruct (typed ri); reflexivity.
Qed.

End RunFacts.

(** * Termination of the round loop *)

(** Locals as an earlier round, or nothing at all, may have left them. *)
Definition stale_locals : Z -> locals float :=
  fun _ => Var.mk 7 5 9 9 9 nan nan nan nan nan nan nan.

(** A round's input: rank 0 reads [t]; every clock shows 1 s, then 3 s. *)
Definition typed_input (t : option Z) : round_input float :=
  mkInput t (fun _ => 1%float) (fun _ => 3%float).

(** A broadcast 0 ends the run for every rank, in that round, and nothing
    else ends it. *)
Definition zero_broadcast_ends_run {D : Type} {ops : DoubleOps D}
  (g : list (proc D)) : Prop :=
  (forall ri rest, broadcast_value g ri = 0 ->
     exists g1,
       round g ri = AllBreak g1
       /\ Forall2 (fun p p1 =>
                     Var.n (vars p1) = 0
                     /\ log p1
                        = log p
                          ++ (if Var.myid (vars p) =? 0
                              then [EvPrompt; EvScanf (typed ri)] else [])
                          ++ [EvBcast 0]) g g1
       /\ run (ri :: rest) g = Exited ByBreak (map finalize g1))
  /\ (forall ris how g', run ris g = Exited how g' ->
        how = ByBreak
        /\ exists pre ri post g0,
             ris = pre ++ ri :: post /\ run pre g = Waiting g0
             /\ broadcast_value g0 ri = 0
             /\ g' = map finalize (map (after_bcast (typed ri) 0) g0))
  /\ (forall ris g1, run ris g = Stuck (Desync g1) -> False).

(** C4: when the broadcast value of a round is 0, every rank observes 0
    and takes [break] in that round, having logged the broadcast and no
    integration step or reduction; the rest of the input is not read;
    a run that exits has exited this way, on a broadcast 0 seen by all
    ranks; and ranks never part ways. *)
Theorem zero_broadcast_is_the_only_exit {D : Type} {ops : DoubleOps D}
  (g : list (proc D)) :
  wf_group g -> zero_broadcast_ends_run g.
Proof.
  intros Hwf. pose proof (wf_group_nonempty g Hwf) as Hne. repeat split.
  - intros ri rest Hz. exists (map (after_bcast (typed ri) 0) g).
    split; [now apply round_break|]. split.
    + apply Forall2_map_self. intros p _.
      split; [apply after_bcast_vars|apply after_bcast_log].
    + rewrite run_cons, round_break by assumption. reflexivity.
  - destruct (run_cases ris g Hwf)
      as [(g1 & E & _)|(pre & ri & post & g0 & -> & Epre & W & [(Hz & E)|(_ & [E|E])])];
      rewrite E in H; try discriminate.
    now injection H.
  - destruct (run_cases ris g Hwf)
      as [(g1 & E & _)|(pre & ri & post & g0 & -> & Epre & W & [(Hz & E)|(_ & [E|E])])];
      rewrite E in H; try discriminate.
    injection H as <- <-. exists pre, ri, post, g0. auto.
  - intros ris g1 H.
    destruct (run_cases ris g Hwf)
      as [(g2 & E & _)|(pre & ri & post & g0 & -> & Epre & W & [(Hz & E)|(_ & [E|E])])];
      rewrite E in H; discriminate.
Qed.

Lemma zero_broadcast_is_the_only_exit_witness :
  wf_group (launch 3 stale_locals)
  /\ zero_broadcast_ends_run (launch 3 stale_locals).
Proof.
  assert (H : wf_group (launch 3 stale_locals)) by (apply launch_wf; lia).
  split; [exact H|].
  apply (zero_broadcast_is_the_only_exit (launch 3 stale_locals)); exact H.
Defined.

(** * The step width *)

(** C10: every integration step of every run, hence every division
    [h = 1.0 / (double) n], is made with [n <> 0]: a broadcast 0 leaves the
    loop before the step width is computed. *)
Theorem step_width_never_divides_by_zero {D : Type} {ops : DoubleOps D}
  (size : nat) (junk : Z -> locals D) (ris : list (round_input D))
  (p : proc D) (n : Z) (mypi : D) :
  In p (group_of (main size junk ris)) ->
  In (EvIntegrate n mypi) (log p) ->
  n <> 0.
Proof.
  intros Hp He. pose proof (main_log_sound size junk ris p Hp) as F.
  rewrite Forall_forall in F. exact (F _ He).
Qed.

Lemma step_width_never_divides_by_zero_witness :
  exists p n mypi,
    In p (group_of (main 2 stale_locals [typed_input (Some 4); typed_input (Some 0)]))
    /\ In (EvIntegrate n mypi) (log p)
    /\ n <> 0.
Proof.
  assert (H : exists p n mypi,
             In p (group_of (main 2 stale_locals
                               [typed_input (Some 4); typed_input (Some 0)]))
             /\ In (EvIntegrate n mypi) (log p)).
  { vm_compute. eexists. eexists. eexists.
    split; [right; left; reflexivity|right; left; reflexivity]. }
  destruct H as (p & n & mypi & Hp & He). exists p, n, mypi.
  split; [exact Hp|]. split; [exact He|].
  exact (step_width_never_divides_by_zero 2 stale_locals _ p n mypi Hp He).
Defined.

(** * Degenerate rounds *)

Section DegenerateRounds.
Context {D : Type} {ops : DoubleOps D}.
Implicit Types (p : proc D) (g : list (proc D)) (ri : round_input D).

(** A rank whose first index [myid + 1] is beyond [n] owns nothing. *)
Lemma owned_nothing n myid numprocs : n < myid + 1 -> owned n myid numprocs = Done [].
Proof.
  intros H. unfold owned, loop_fuel. cbn [owned_loop].
  destruct (Z.leb_spec (myid + 1) n); [lia|reflexivity].
Qed.

(** The locals of a rank at the end of a round that completes. *)
Lemma round_done_vars ri v total p :
  vars (round_done ri v total p)
  = Var.mk (Var.done (vars p)) v (Var.myid (vars p)) (Var.numprocs (vars p))
      (Var.myid (vars p) + 1
       + Z.of_nat (length (share_of v p)) * Var.numprocs (vars p))
      (partial_of (step_width v) (share_of v p))
      (if Var.myid (vars p) =? 0 then total else Var.pi (vars p))
      (step_width v)
      (fold_left (accumulate (step_width v)) (share_of v p) d_zero)
      (fold_left (fun _ j => sample (step_width v) j) (share_of v p) (Var.x (vars p)))
      (wtime0 ri (Var.myid (vars p)))
      (wtime1 ri (Var.myid (vars p))).
Proof.
  unfold round_done, report, reduced, computed, after_bcast, read_input.
  destruct (Var.myid (vars p) =? 0) eqn:E; destruct (typed ri);
    repeat (cbn [assign emit vars log integrated set_t1 set_t0 set_pi set_n
                   Var.myid Var.n Var.numprocs Var.done Var.pi Var.x Var.t0 Var.t1];
            rewrite ?E);
    reflexivity.
Qed.

(** A round with a negative broadcast value completes: no rank's loop
    runs, every partial result is [h * 0.0], the reduction adds them up
    on rank 0, and the run goes on with the next round. *)
Definition negative_round_is_degenerate g ri : Prop :=
  let v := broadcast_value g ri in
  let degenerate := d_mul (d_div d_one (d_of_int v)) d_zero in
  exists g',
    round g ri = Continue g'
    /\ wf_group g'
    /\ (forall rest, run (ri :: rest) g = run rest g')
    /\ Forall2 (fun p p' =>
                  owned v (Var.myid (vars p)) (Var.numprocs (vars p)) = Done []
                  /\ Var.sum (vars p') = d_zero
                  /\ Var.mypi (vars p') = degenerate
                  /\ (Var.myid (vars p) = 0 ->
                      Var.pi (vars p') = reduce_sum (map (fun _ => degenerate) g))
                  /\ exists before after,
                       log p' = log p ++ before
                                  ++ [EvBcast v; EvIntegrate v degenerate; EvReduce]
                                  ++ after
                       /\ Forall loop_event (before ++ after)) g g'.

End DegenerateRounds.

(** C5: a negative broadcast value raises no error and ends nothing:
    every rank enters the integration step, its loop runs zero times, its
    partial sum is [h * 0.0], the reduction completes and every rank goes
    on to the next round. *)
Theorem negative_granularity_gives_degenerate_round {D : Type} {ops : DoubleOps D}
  (g : list (proc D)) (ri : round_input D) :
  wf_group g -> broadcast_value g ri < 0 -> negative_round_is_degenerate g ri.
Proof.
  intros Hwf Hneg. unfold negative_round_is_degenerate.
  set (v := broadcast_value g ri) in *.
  pose proof (wf_group_nonempty g Hwf) as Hne.
  assert (Hown : forall p, In p g ->
                   owned v (Var.myid (vars p)) (Var.numprocs (vars p)) = Done []).
  { intros p Hp. apply owned_nothing.
    destruct (wf_group_rank g p Hwf Hp) as (Hr & _). lia. }
  assert (Hshare : forall p, In p g -> share_of v p = []).
  { intros p Hp. unfold share_of. now rewrite Hown. }
  assert (Hround : round g ri
                   = Continue (map (round_done ri v (reduce_sum (partials v g))) g)).
  { rewrite round_step by (try assumption; fold v; lia). fold v.
    destruct (proj2 (all_done_Done_iff
                       (fun p => owned v (Var.myid (vars p)) (Var.numprocs (vars p))) g))
      as (idxs & ->); [|reflexivity].
    apply Forall_forall. intros p Hp. exists []. now apply Hown. }
  exists (map (round_done ri v (reduce_sum (partials v g))) g).
  split; [exact Hround|]. split.
  { apply wf_group_map; [|assumption]. intros p. apply round_done_ids. }
  split.
  { intros rest. now rewrite run_cons, Hround. }
  apply Forall2_map_self. intros p Hp.
  rewrite round_done_vars, round_done_log. unfold round_events.
  rewrite (Hshare p Hp). cbn [Var.sum Var.mypi Var.pi fold_left].
  split; [now apply Hown|]. split; [reflexivity|]. split; [reflexivity|]. split.
  - intros ->. cbn [Z.eqb]. f_equal. unfold partials.
    apply map_ext_in. intros q Hq. now rewrite (Hshare q Hq).
  - eexists. eexists. split; [reflexivity|].
    destruct (Var.myid (vars p) =? 0); repeat constructor.
Qed.

Lemma negative_granularity_gives_degenerate_round_witness :
  (wf_group (launch 3 stale_locals)
   /\ broadcast_value (launch 3 stale_locals) (typed_input (Some (-5))) < 0)
  /\ negative_round_is_degenerate (launch 3 stale_locals) (typed_input (Some (-5))).
Proof.
  assert (H : wf_group (launch 3 stale_locals)
              /\ broadcast_value (launch 3 stale_locals) (typed_input (Some (-5))) < 0).
  { split; [apply launch_wf; lia|vm_compute; reflexivity]. }
  split; [exact H|].
  apply (negative_granularity_gives_degenerate_round
           (launch 3 stale_locals) (typed_input (Some (-5)))); apply H.
Defined.

(** * The reduction in exact arithmetic *)

(** The sum of a list of rationals. *)
Definition Qsum (l : list Q) : Q := fold_right Qplus 0%Q l.

Lemma Qsum_cons a l : Qsum (a :: l) = (a + Qsum l)%Q.
Proof. reflexivity. Qed.

Lemma Qsum_app l l' : (Qsum (l ++ l') == Qsum l + Qsum l')%Q.
Proof.
  induction l as [|a l IH].
  - change (Qsum ([] ++ l')) with (Qsum l'). change (Qsum []) with 0%Q. ring.
  - change ((a :: l) ++ l') with (a :: (l ++ l')). rewrite !Qsum_cons, IH. ring.
Qed.

Lemma Qsum_map_perm (F : Z -> Q) l l' :
  Permutation l l' -> (Qsum (map F l) == Qsum (map F l'))%Q.
Proof.
  induction 1 as [|a l l' _ IH|a b l|l l' l'' _ IH1 _ IH2]; cbn [map].
  - reflexivity.
  - rewrite !Qsum_cons. now rewrite IH.
  - rewrite !Qsum_cons. ring.
  - now rewrite IH1.
Qed.

Lemma fold_left_Qplus l : forall a : Q, (fold_left Qplus l a == a + Qsum l)%Q.
Proof.
  induction l as [|b l IH]; intros a; cbn [fold_left].
  - change (Qsum []) with 0%Q. ring.
  - rewrite IH, Qsum_cons. ring.
Qed.

Lemma reduce_sum_Qsum (l : list Q) : (reduce_sum l == Qsum l)%Q.
Proof.
  destruct l as [|a l]; cbn [reduce_sum d_zero d_add exactQ].
  - reflexivity.
  - rewrite Qsum_cons. apply fold_left_Qplus.
Qed.

Lemma accumulate_Qsum (h : Q) idx : forall s : Q,
  (fold_left (accumulate h) idx s
   == s + Qsum (map (fun j => kernel (sample h j)) idx))%Q.
Proof.
  induction idx as [|j idx IH]; intros s; cbn [fold_left map].
  - change (Qsum []) with 0%Q. ring.
  - rewrite IH, Qsum_cons. unfold accumulate. cbn [d_add exactQ]. ring.
Qed.

Lemma partial_of_Qsum (h : Q) idx :
  (partial_of h idx == h * Qsum (map (fun j => kernel (sample h j)) idx))%Q.
Proof.
  unfold partial_of. cbn [d_mul exactQ d_zero]. rewrite accumulate_Qsum. ring.
Qed.

(** The partial results of the shares add up to the partial result of
    their concatenation. *)
Lemma Qsum_partials (h : Q) (shares : list (list Z)) :
  (Qsum (map (partial_of h) shares) == partial_of h (concat shares))%Q.
Proof.
  rewrite partial_of_Qsum.
  induction shares as [|sh shares IH]; cbn [map concat].
  - change (Qsum []) with 0%Q. ring.
  - rewrite Qsum_cons, IH, map_app, Qsum_app, partial_of_Qsum. ring.
Qed.

Lemma partial_of_perm (h : Q) l l' :
  Permutation l l' -> (partial_of h l == partial_of h l')%Q.
Proof.
  intros H. rewrite !partial_of_Qsum.
  now rewrite (Qsum_map_perm (fun j => kernel (sample h j)) l l' H).
Qed.

(** The partial results of a well-formed group, by rank. *)
Lemma partials_by_rank {D : Type} {ops : DoubleOps D} (g : list (proc D)) (n : Z) :
  wf_group g -> 1 <= n -> n + Z.of_nat (length g) <= INT_MAX ->
  Forall (fun p => owned n (Var.myid (vars p)) (Var.numprocs (vars p))
                   = Done (strided (Var.myid (vars p) + 1) n (Z.of_nat (length g)))) g
  /\ partials n g
     = map (partial_of (step_width n))
         (map (fun r => strided (r + 1) n (Z.of_nat (length g)))
            (ranks (Z.of_nat (length g)))).
Proof.
  intros Hwf Hn Hmax.
  assert (Hlen : 1 <= Z.of_nat (length g)).
  { pose proof (wf_group_nonempty g Hwf). destruct g; [contradiction|cbn; lia]. }
  assert (Hown : forall p, In p g ->
            owned n (Var.myid (vars p)) (Var.numprocs (vars p))
            = Done (strided (Var.myid (vars p) + 1) n (Z.of_nat (length g)))).
  { intros p Hp. destruct (wf_group_rank g p Hwf Hp) as (Hr & -> & _).
    apply owned_strided; lia. }
  split; [now apply Forall_forall|].
  destruct Hwf as (_ & Hid & _). rewrite <- Hid, !map_map. unfold partials.
  apply map_ext_in. intros p Hp. unfold share_of. now rewrite (Hown p Hp).
Qed.



(** Stale locals and a round's input, in exact arithmetic. *)
Definition stale_exact : Z -> locals Q :=
  fun _ => Var.mk 7 5 9 9 9 0%Q 0%Q 0%Q 0%Q 0%Q 0%Q 0%Q.
Definition exact_input (t : option Z) : round_input Q :=
  mkInput t (fun _ => 0%Q) (fun _ => 0%Q).

(** * IEEE 754 binary64 facts *)

Lemma digits2_pos_bounds (m : positive) :
  2 ^ (Z.pos (digits2_pos m) - 1) <= Z.pos m < 2 ^ Z.pos (digits2_pos m).
Proof.
  induction m as [p IH|p IH|]; cbn [digits2_pos].
  - rewrite Pos2Z.inj_succ, (Pos2Z.inj_xI p).
    replace (Z.succ (Z.pos (digits2_pos p)) - 1) with (Z.succ (Z.pos (digits2_pos p) - 1)) by lia.
    rewrite !Z.pow_succ_r by lia.
    generalize dependent (2 ^ (Z.pos (digits2_pos p) - 1)).
    generalize dependent (2 ^ Z.pos (digits2_pos p)). intros; lia.
  - rewrite Pos2Z.inj_succ, (Pos2Z.inj_xO p).
    replace (Z.succ (Z.pos (digits2_pos p)) - 1) with (Z.succ (Z.pos (digits2_pos p) - 1)) by lia.
    rewrite !Z.pow_succ_r by lia.
    generalize dependent (2 ^ (Z.pos (digits2_pos p) - 1)).
    generalize dependent (2 ^ Z.pos (digits2_pos p)). intros; lia.
  - cbn. lia.
Qed.

Lemma iter_xO_value (m d : positive) : Z.pos (Pos.iter xO m d) = Z.pos m * 2 ^ Z.pos d.
Proof.
  induction d as [|d IH] using Pos.peano_ind.
  - cbn. lia.
  - rewrite Pos.iter_succ, (Pos2Z.inj_xO (Pos.iter xO m d)), IH, Pos2Z.inj_succ, Z.pow_succ_r by lia. lia.
Qed.

Lemma shl_align_value (m : positive) (e e' : Z) :
  e' <= e -> Z.pos (fst (shl_align m e e')) = Z.pos m * 2 ^ (e - e').
Proof.
  intros H. unfold shl_align. destruct (e' - e) as [|d|d] eqn:E; cbn [fst].
  - replace (e - e') with 0 by lia. cbn. lia.
  - lia.
  - rewrite iter_xO_value. f_equal. f_equal. lia.
Qed.

Lemma iter_pos_invariant {A : Type} (P : A -> Prop) (f : A -> A) :
  (forall a, P a -> P (f a)) -> forall n a, P a -> P (SpecFloat.iter_pos f n a).
Proof.
  intros Hf. induction n as [n IH|n IH|]; intros a Ha; cbn; auto.
Qed.

Lemma shr_1_nonneg mrs : 0 <= shr_m mrs -> 0 <= shr_m (shr_1 mrs).
Proof.
  destruct mrs as [m r s]. cbn [shr_m]. intros H.
  destruct m as [|p|p]; [cbn; lia| |lia].
  destruct p; cbn; lia.
Qed.

Lemma shr_nonneg mrs e n : 0 <= shr_m mrs -> 0 <= shr_m (fst (shr mrs e n)).
Proof.
  intros H. unfold shr. destruct n; cbn [fst]; try assumption.
  apply (iter_pos_invariant (fun r => 0 <= shr_m r)); [apply shr_1_nonneg|assumption].
Qed.

Lemma shr_fexp_nonneg m e l : 0 <= m -> 0 <= shr_m (fst (shr_fexp prec emax m e l)).
Proof.
  intros H. unfold shr_fexp. apply shr_nonneg. destruct l as [|[| |]]; exact H.
Qed.

Lemma round_nearest_even_nonneg m l : 0 <= m -> 0 <= round_nearest_even m l.
Proof.
  intros H. unfold round_nearest_even. destruct l as [|[| |]]; try lia.
  destruct (Z.even m); lia.
Qed.

(** Rounding a non-negative mantissa gives a number of the sign asked
    for, never a NaN. *)
Definition has_sign (s : bool) (x : spec_float) : Prop :=
  match x with
  | S754_nan => False
  | S754_zero s' | S754_infinity s' | S754_finite s' _ _ => s' = s
  end.

Lemma binary_round_aux_sign s m e l :
  0 <= m -> has_sign s (binary_round_aux prec emax s m e l).
Proof.
  intros H. unfold binary_round_aux.
  pose proof (shr_fexp_nonneg m e l H) as H1.
  destruct (shr_fexp prec emax m e l) as [mrs' e']. cbn [fst] in H1.
  pose proof (shr_fexp_nonneg _ e' loc_Exact
                (round_nearest_even_nonneg _ (loc_of_shr_record mrs') H1)) as H2.
  destruct (shr_fexp prec emax _ e' loc_Exact) as [mrs'' e'']. cbn [fst] in H2.
  destruct (shr_m mrs'') as [|p|p]; [reflexivity| |lia].
  destruct (e'' <=? emax - prec); reflexivity.
Qed.

Lemma binary_normalize_sign m e :
  0 <= m -> has_sign false (binary_normalize prec emax m e false).
Proof.
  intros H. unfold binary_normalize. destruct m as [|p|p]; [reflexivity| |lia].
  unfold binary_round. destruct (shl_align p e _) as [mz ez].
  apply binary_round_aux_sign. lia.
Qed.

Lemma canonical_mantissa_digits m e :
  canonical_mantissa prec emax m e = true ->
  Z.pos (digits2_pos m) <= 53
  /\ -1074 <= e
  /\ (Z.pos (digits2_pos m) = 53 \/ e = -1074).
Proof.
  unfold canonical_mantissa, fexp, SpecFloat.emin, prec, emax.
  intros H%Z.eqb_eq. lia.
Qed.

Lemma valid_finite s m e :
  valid_binary (S754_finite s m e) = true -> canonical_mantissa prec emax m e = true.
Proof.
  cbn. unfold bounded. intros H%andb_true_iff. apply H.
Qed.

(** Among valid finite numbers the one with the larger exponent has the
    larger magnitude. *)
Lemma larger_exponent_larger_value m1 e1 m2 e2 :
  canonical_mantissa prec emax m1 e1 = true ->
  canonical_mantissa prec emax m2 e2 = true ->
  e1 < e2 ->
  Z.pos m1 < Z.pos m2 * 2 ^ (e2 - e1).
Proof.
  intros C1 C2 Hlt.
  apply canonical_mantissa_digits in C1 as (D1 & L1 & _).
  apply canonical_mantissa_digits in C2 as (D2 & L2 & [E2|E2]); [|lia].
  pose proof (digits2_pos_bounds m1) as B1. pose proof (digits2_pos_bounds m2) as B2.
  rewrite E2 in B2.
  assert (Z.pos m1 < 2 ^ 53).
  { eapply Z.lt_le_trans; [apply B1|]. apply Z.pow_le_mono_r; lia. }
  assert (2 ^ 1 <= 2 ^ (e2 - e1)) by (apply Z.pow_le_mono_r; lia).
  change (2 ^ (53 - 1)) with 4503599627370496 in B2.
  change (2 ^ 53) with 9007199254740992 in *. change (2 ^ 1) with 2 in *. nia.
Qed.

Lemma compare_cont_Eq_le m1 m2 :
  match Pos.compare_cont Eq m1 m2 with
  | Lt => Z.pos m1 < Z.pos m2
  | Eq => Z.pos m1 = Z.pos m2
  | Gt => Z.pos m1 > Z.pos m2
  end.
Proof.
  change (Pos.compare_cont Eq m1 m2) with (Pos.compare m1 m2).
  destruct (Pos.compare_spec m1 m2); lia.
Qed.

(** The difference of two finite numbers, the smaller taken from the
    larger, is not negative and not a NaN. *)
Lemma SFsub_nonneg (x y : spec_float) :
  valid_binary x = true -> valid_binary y = true ->
  match x with S754_zero _ | S754_finite _ _ _ => True | _ => False end ->
  match y with S754_zero _ | S754_finite _ _ _ => True | _ => False end ->
  SFleb y x = true ->
  SFleb (S754_zero false) (SF64sub x y) = true.
Proof.
  intros Vx Vy Fx Fy Hle.
  destruct x as [sx|sx| |sx mx ex]; try contradiction;
    destruct y as [sy|sy| |sy my ey]; try contradiction.
  - destruct sx, sy; reflexivity.
  - unfold SFleb in Hle. cbn in Hle. destruct sy; [reflexivity|discriminate].
  - unfold SFleb in Hle. cbn in Hle. destruct sx; [discriminate|reflexivity].
  - apply valid_finite in Vx, Vy.
    unfold SF64sub, SFsub.
    set (ez := Z.min ex ey).
    set (M := cond_Zopp sx (Z.pos (fst (shl_align mx ex ez)))
              - cond_Zopp sy (Z.pos (fst (shl_align my ey ez)))).
    assert (HM : 0 <= M).
    { subst M. rewrite !shl_align_value by (subst ez; lia).
      unfold SFleb in Hle. cbn [SFcompare] in Hle.
      pose proof (compare_cont_Eq_le my mx) as Hc.
      destruct sy, sx; cbn [cond_Zopp]; try discriminate.
      - revert Hle; destruct (Z.compare_spec ey ex) as [E|E|E]; intros Hle;
          try discriminate.
        + subst ey. replace (ex - ez) with 0 by (subst ez; lia). rewrite Z.pow_0_r.
          rewrite !Z.mul_1_r.
          destruct (Pos.compare_cont Eq my mx); cbn in Hle; try discriminate; lia.
        + pose proof (larger_exponent_larger_value mx ex my ey Vx Vy E).
          replace (ex - ez) with 0 by (subst ez; lia).
          replace (ey - ez) with (ey - ex) by (subst ez; lia). rewrite Z.pow_0_r. lia.
      - pose proof (Z.pow_pos_nonneg 2 (ex - ez)). pose proof (Z.pow_pos_nonneg 2 (ey - ez)).
        assert (0 < 2 ^ (ex - ez)) by (subst ez; apply Z.pow_pos_nonneg; lia).
        assert (0 < 2 ^ (ey - ez)) by (subst ez; apply Z.pow_pos_nonneg; lia).
        nia.
      - revert Hle; destruct (Z.compare_spec ey ex) as [E|E|E]; intros Hle;
          try discriminate.
        + subst ey. replace (ex - ez) with 0 by (subst ez; lia). rewrite Z.pow_0_r.
          rewrite !Z.mul_1_r.
          destruct (Pos.compare_cont Eq my mx); cbn in Hle; try discriminate; lia.
        + pose proof (larger_exponent_larger_value my ey mx ex Vy Vx E).
          replace (ey - ez) with 0 by (subst ez; lia).
          replace (ex - ez) with (ex - ey) by (subst ez; lia). rewrite Z.pow_0_r. lia. }
    pose proof (binary_normalize_sign M ez HM) as Hs.
    destruct (binary_normalize prec emax M ez false) as [s|s| |s m e];
      cbn in Hs; try contradiction; subst; reflexivity.
Qed.

Lemma is_finite_cases (t : float) :
  is_finite t = true ->
  match Prim2SF t with S754_zero _ | S754_finite _ _ _ => True | _ => False end.
Proof.
  unfold is_finite, is_nan, is_infinity.
  rewrite !FloatAxioms.eqb_spec, abs_spec.
  change (Prim2SF infinity) with (S754_infinity false).
  destruct (Prim2SF t) as [s|s| |s m e]; cbn; try discriminate; auto.
  destruct s; cbn; discriminate.
Qed.

(** Subtraction of finite doubles: a clock that does not run backwards
    gives a non-negative difference. *)
Lemma float_sub_nonneg (a b : float) :
  is_finite a = true -> is_finite b = true ->
  PrimFloat.leb a b = true -> PrimFloat.leb 0 (b - a) = true.
Proof.
  intros Fa Fb Hle.
  rewrite FloatAxioms.leb_spec in Hle |- *. rewrite FloatAxioms.sub_spec.
  change (Prim2SF 0) with (S754_zero false).
  apply SFsub_nonneg;
    [apply Prim2SF_valid|apply Prim2SF_valid
     |now apply is_finite_cases|now apply is_finite_cases|exact Hle].
Qed.

(** ** The step width of a positive [int], times zero *)

Lemma Zdigits2_le (m k : Z) : 0 <= k -> 0 <= m < 2 ^ k -> Zdigits2 m <= k.
Proof.
  intros Hk Hm. destruct m as [|p|p]; cbn [Zdigits2]; [lia| |lia].
  pose proof (digits2_pos_bounds p) as (Hlo & _).
  destruct (Z_le_gt_dec (Z.pos (digits2_pos p)) k) as [|Hgt]; [assumption|].
  assert (2 ^ k <= 2 ^ (Z.pos (digits2_pos p) - 1)) by (apply Z.pow_le_mono_r; lia).
  lia.
Qed.

Lemma digits2_pos_unique (p : positive) (k : Z) :
  2 ^ (k - 1) <= Z.pos p < 2 ^ k -> 1 <= k -> Z.pos (digits2_pos p) = k.
Proof.
  intros (Hlo & Hhi) Hk. pose proof (digits2_pos_bounds p) as (Dlo & Dhi).
  destruct (Z.lt_trichotomy (Z.pos (digits2_pos p)) k) as [Hlt|[Heq|Hgt]];
    [|assumption|].
  - assert (2 ^ Z.pos (digits2_pos p) <= 2 ^ (k - 1)) by (apply Z.pow_le_mono_r; lia).
    lia.
  - assert (2 ^ k <= 2 ^ (Z.pos (digits2_pos p) - 1)) by (apply Z.pow_le_mono_r; lia).
    lia.
Qed.

Lemma shr_1_le mrs : 0 <= shr_m mrs -> shr_m (shr_1 mrs) <= shr_m mrs.
Proof.
  destruct mrs as [m r s]. cbn [shr_m]. intros H.
  destruct m as [|p|p]; [cbn; lia| |lia].
  destruct p; cbn; lia.
Qed.

Lemma shr_spec mrs e n :
  0 <= shr_m mrs ->
  0 <= shr_m (fst (shr mrs e n)) <= shr_m mrs
  /\ snd (shr mrs e n) = e + Z.max 0 n.
Proof.
  intros H. unfold shr. destruct n as [|p|p]; cbn [fst snd]; try (split; lia).
  split; [|lia].
  apply (iter_pos_invariant (fun r => 0 <= shr_m r <= shr_m mrs)).
  - intros a (Ha & Hb). split; [now apply shr_1_nonneg|].
    pose proof (shr_1_le a Ha). lia.
  - lia.
Qed.

Lemma shr_fexp_spec m e l :
  0 <= m ->
  0 <= shr_m (fst (shr_fexp prec emax m e l)) <= m
  /\ snd (shr_fexp prec emax m e l)
     = Z.max e (Z.max (Zdigits2 m + e - 53) (-1074)).
Proof.
  intros H. unfold shr_fexp.
  assert (Hm : shr_m (shr_record_of_loc m l) = m) by (destruct l as [|[| |]]; reflexivity).
  destruct (shr_spec (shr_record_of_loc m l) e
              (fexp prec emax (Zdigits2 m + e) - e)) as (H1 & H2); [lia|].
  rewrite Hm in H1. split; [exact H1|]. rewrite H2.
  unfold fexp, SpecFloat.emin, prec, emax. lia.
Qed.

Lemma round_nearest_even_le m l : round_nearest_even m l <= m + 1.
Proof.
  unfold round_nearest_even. destruct l as [|[| |]]; try lia.
  destruct (Z.even m); lia.
Qed.

(** Rounding a mantissa of moderate size at a moderate exponent does not
    overflow. *)
Lemma binary_round_aux_finite s m e l :
  0 <= m < 2 ^ 200 -> -1200 <= e <= 0 ->
  match binary_round_aux prec emax s m e l with
  | S754_zero s' | S754_finite s' _ _ => s' = s
  | _ => False
  end.
Proof.
  intros Hm He. unfold binary_round_aux.
  destruct (shr_fexp_spec m e l (proj1 Hm)) as (H1 & E1).
  pose proof (Zdigits2_le m 200 ltac:(lia) Hm) as D.
  assert (D0 : 0 <= Zdigits2 m) by (destruct m; cbn; lia).
  destruct (shr_fexp prec emax m e l) as [mrs' e']. cbn [fst snd] in H1, E1.
  set (m1 := round_nearest_even (shr_m mrs') (loc_of_shr_record mrs')).
  assert (Hm1 : 0 <= m1 < 2 ^ 201).
  { split; [apply round_nearest_even_nonneg; lia|].
    pose proof (round_nearest_even_le (shr_m mrs') (loc_of_shr_record mrs')).
    fold m1 in H. change (2 ^ 201) with (2 * 2 ^ 200). lia. }
  destruct (shr_fexp_spec m1 e' loc_Exact (proj1 Hm1)) as (H2 & E2).
  pose proof (Zdigits2_le m1 201 ltac:(lia) Hm1) as D1.
  destruct (shr_fexp prec emax m1 e' loc_Exact) as [mrs'' e'']. cbn [fst snd] in H2, E2.
  destruct (shr_m mrs'') as [|p|p]; [reflexivity| |lia].
  assert (Hle : (e'' <=? emax - prec) = true) by (apply Z.leb_le; unfold emax, prec; lia).
  rewrite Hle. reflexivity.
Qed.

(** The double of a positive [int] is a positive finite number, at least 1. *)
Lemma float_of_int_positive (n : Z) :
  1 <= n <= INT_MAX ->
  exists m e, Prim2SF (float_of_int n) = S754_finite false m e /\ -52 <= e <= 0.
Proof.
  intros Hn. unfold float_of_int.
  destruct (Z.ltb_spec n 0) as [|_]; [lia|].
  rewrite of_uint63_spec, Uint63.of_Z_spec.
  rewrite Z.mod_small by (unfold INT_MAX in Hn; change wB with 9223372036854775808; lia).
  destruct n as [|p|p]; [lia| |lia].
  cbn [binary_normalize]. unfold binary_round.
  pose proof (digits2_pos_bounds p) as Dp.
  set (d := Z.pos (digits2_pos p)) in *.
  assert (Hd1 : 1 <= d) by (subst d; lia).
  clearbody d.
  assert (Hd : 1 <= d <= 31).
  { split; [assumption|].
    destruct (Z_le_gt_dec d 31) as [|Hgt]; [assumption|].
    assert (2 ^ 31 <= 2 ^ (d - 1)) by (apply Z.pow_le_mono_r; lia).
    change (2 ^ 31) with 2147483648 in *. unfold INT_MAX in Hn. lia. }
  assert (Hf : fexp prec emax (d + 0) = d - 53)
    by (unfold fexp, SpecFloat.emin, prec, emax; lia).
  rewrite Hf. unfold shl_align.
  destruct (d - 53 - 0) as [|k|k] eqn:Ek; try lia.
  set (mz := Pos.iter xO p k).
  assert (Hmz : Z.pos mz = Z.pos p * 2 ^ (53 - d)).
  { subst mz. rewrite iter_xO_value. f_equal. f_equal. lia. }
  assert (Hdz : Z.pos (digits2_pos mz) = 53).
  { apply digits2_pos_unique; [|lia]. rewrite Hmz.
    assert (0 < 2 ^ (53 - d)) by (apply Z.pow_pos_nonneg; lia).
    replace (2 ^ (53 - 1)) with (2 ^ (d - 1) * 2 ^ (53 - d))
      by (rewrite <- Z.pow_add_r by lia; f_equal; lia).
    replace (2 ^ 53) with (2 ^ d * 2 ^ (53 - d))
      by (rewrite <- Z.pow_add_r by lia; f_equal; lia).
    split; [apply Z.mul_le_mono_nonneg_r; lia|apply Z.mul_lt_mono_pos_r; lia]. }
  exists mz, (d - 53). split; [|lia].
  unfold binary_round_aux, shr_fexp. cbn [Zdigits2]. rewrite Hdz.
  replace (fexp prec emax (53 + (d - 53)) - (d - 53)) with 0
    by (unfold fexp, SpecFloat.emin, prec, emax; lia).
  cbn [shr shr_record_of_loc shr_m loc_of_shr_record round_nearest_even Zdigits2].
  rewrite Hdz.
  replace (fexp prec emax (53 + (d - 53)) - (d - 53)) with 0
    by (unfold fexp, SpecFloat.emin, prec, emax; lia).
  cbn [shr shr_m].
  assert (Hle : (d - 53 <=? emax - prec) = true) by (apply Z.leb_le; unfold emax, prec; lia).
  now rewrite Hle.
Qed.

(** 1.0 divided by a number that is at least 1 is a finite number that is
    not negative. *)
Lemma SFdiv_one_finite (m : positive) (e : Z) :
  valid_binary (S754_finite false m e) = true -> -52 <= e <= 0 ->
  match SF64div (S754_finite false 4503599627370496 (-52)) (S754_finite false m e) with
  | S754_zero s' | S754_finite s' _ _ => s' = false
  | _ => False
  end.
Proof.
  intros V He. apply valid_finite, canonical_mantissa_digits in V as (_ & _ & [Hd|Hd]);
    [|lia].
  unfold SF64div, SFdiv, SFdiv_core_binary. cbn [xorb Zdigits2].
  rewrite Hd. change (Z.pos (digits2_pos 4503599627370496)) with 53.
  set (e' := Z.min (fexp prec emax (53 + -52 - (53 + e))) (-52 - e)).
  assert (He' : -105 - e <= e' <= -52 - e /\ -1200 <= e')
    by (subst e'; unfold fexp, SpecFloat.emin, prec, emax; lia).
  set (m' := match -52 - e - e' with
             | 0 => 4503599627370496
             | Z.pos _ => Z.shiftl 4503599627370496 (-52 - e - e')
             | Z.neg _ => 0
             end).
  assert (Hm' : 0 <= m' <= 2 ^ 105).
  { subst m'. destruct (-52 - e - e') as [|k|k] eqn:Ek.
    - change (2 ^ 105) with 40564819207303340847894502572032. lia.
    - rewrite Z.shiftl_mul_pow2 by lia.
      assert (0 < 2 ^ Z.pos k) by (apply Z.pow_pos_nonneg; lia).
      assert (2 ^ Z.pos k <= 2 ^ 53) by (apply Z.pow_le_mono_r; lia).
      change (2 ^ 105) with (4503599627370496 * 2 ^ 53). nia.
    - change (2 ^ 105) with 40564819207303340847894502572032. lia. }
  pose proof (Z_div_mod m' (Z.pos m) ltac:(lia)) as Hdiv.
  destruct (Z.div_eucl m' (Z.pos m)) as [q r]. destruct Hdiv as (Eq & Hr).
  apply binary_round_aux_finite; [|lia].
  assert (0 <= q <= m') by nia.
  assert (2 ^ 105 < 2 ^ 200) by (apply Z.pow_lt_mono_r; lia).
  lia.
Qed.

(** For every positive [int] n, [(1.0 / (double) n) * 0.0] is [+0.0]. *)
Lemma step_width_times_zero (n : Z) :
  1 <= n <= INT_MAX ->
  (1 / float_of_int n * 0)%float = 0%float.
Proof.
  intros Hn. apply Prim2SF_inj.
  rewrite FloatAxioms.mul_spec, FloatAxioms.div_spec.
  destruct (float_of_int_positive n Hn) as (m & e & E & He).
  pose proof (Prim2SF_valid (float_of_int n)) as V. rewrite E in V |- *.
  change (Prim2SF 1) with (S754_finite false 4503599627370496 (-52)).
  change (Prim2SF 0) with (S754_zero false).
  pose proof (SFdiv_one_finite m e V He) as H.
  destruct (SF64div _ _) as [s|s| |s mq eq']; try contradiction; subst s; reflexivity.
Qed.

(** * Ranks that own nothing *)

(** C6: when n < numprocs, a rank with myid + 1 > n owns no index; its
    accumulator stays 0.0 and its partial result is h * 0.0, which is
    exactly +0.0 in the program's doubles (and 0 in exact arithmetic). *)
Theorem idle_rank_partial_is_zero (n myid numprocs : Z) :
  1 <= n -> n < numprocs -> numprocs <= INT_MAX ->
  0 <= myid < numprocs -> n < myid + 1 ->
  owned n myid numprocs = Done []
  /\ (forall (D : Type) (ops : DoubleOps D) (l : locals D),
        Var.n l = n -> Var.myid l = myid -> Var.numprocs l = numprocs ->
        exists l', integrate l = Done l'
                   /\ Var.sum l' = d_zero
                   /\ Var.mypi l' = d_mul (d_div d_one (d_of_int n)) d_zero)
  /\ d_mul (d_div d_one (d_of_int n)) d_zero = 0%float
  /\ (d_mul (d_div d_one (d_of_int n)) d_zero == 0)%Q.
Proof.
  intros Hn Hlt Hmax Hr Hidle.
  assert (Ho : owned n myid numprocs = Done []) by now apply owned_nothing.
  split; [exact Ho|]. split.
  - intros D ops l En Er Es. rewrite integrate_owned, En, Er, Es, Ho.
    cbn [outcome_map]. eexists. split; [reflexivity|].
    unfold integrated. cbn [Var.sum Var.mypi fold_left]. rewrite En. auto.
  - split.
    + cbn [d_mul d_div d_one d_zero d_of_int binary64].
      apply step_width_times_zero. lia.
    + cbn [d_mul d_div d_one d_zero d_of_int exactQ]. ring.
Qed.

Lemma idle_rank_partial_is_zero_witness :
  (1 <= 2 /\ 2 < 5 /\ 5 <= INT_MAX /\ 0 <= 3 < 5 /\ 2 < 3 + 1)
  /\ owned 2 3 5 = Done []
  /\ (forall (D : Type) (ops : DoubleOps D) (l : locals D),
        Var.n l = 2 -> Var.myid l = 3 -> Var.numprocs l = 5 ->
        exists l', integrate l = Done l'
                   /\ Var.sum l' = d_zero
                   /\ Var.mypi l' = d_mul (d_div d_one (d_of_int 2)) d_zero)
  /\ d_mul (d_div d_one (d_of_int 2)) d_zero = 0%float
  /\ (d_mul (d_div d_one (d_of_int 2)) d_zero == 0)%Q.
Proof.
  assert (H : 1 <= 2 /\ 2 < 5 /\ 5 <= INT_MAX /\ 0 <= 3 < 5 /\ 2 < 3 + 1)
    by (unfold INT_MAX; lia).
  split; [exact H|].
  apply (idle_rank_partial_is_zero 2 3 5); apply H.
Defined.

(** * The elapsed time *)

(** C9: in a round that completes, rank 0 reports [t1 - t0], the
    difference of its two clock readings; when the readings are finite
    and the second is not below the first, the reported time is >= 0. *)
Theorem elapsed_time_is_nonnegative
  (g g' : list (proc float)) (ri : round_input float) :
  wf_group g -> round g ri = Continue g' ->
  is_finite (wtime0 ri 0) = true -> is_finite (wtime1 ri 0) = true ->
  PrimFloat.leb (wtime0 ri 0) (wtime1 ri 0) = true ->
  exists root rest before total err,
    g' = root :: rest
    /\ Var.t0 (vars root) = wtime0 ri 0 /\ Var.t1 (vars root) = wtime1 ri 0
    /\ log root
       = before ++ [EvReport (PrimFloat.sub (Var.t1 (vars root)) (Var.t0 (vars root)))
                      total err]
    /\ PrimFloat.leb 0 (PrimFloat.sub (Var.t1 (vars root)) (Var.t0 (vars root))) = true.
Proof.
  intros Hwf Hround F0 F1 Hle.
  destruct (round_Continue_inv g ri g' Hwf Hround) as (_ & -> & _ & _).
  destruct (wf_group_root g Hwf) as (p0 & g0 & -> & Hroot).
  cbn [map]. eexists. eexists. eexists. eexists. eexists.
  split; [reflexivity|].
  rewrite round_done_vars, round_done_log. unfold round_events.
  rewrite Hroot. cbn [Z.eqb Var.t0 Var.t1].
  split; [reflexivity|]. split; [reflexivity|]. split.
  - rewrite !app_assoc. reflexivity.
  - now apply float_sub_nonneg.
Qed.

Lemma elapsed_time_is_nonnegative_witness :
  exists g',
    (wf_group (launch 2 stale_locals)
     /\ round (launch 2 stale_locals) (typed_input (Some 4)) = Continue g'
     /\ is_finite (wtime0 (typed_input (Some 4)) 0) = true
     /\ is_finite (wtime1 (typed_input (Some 4)) 0) = true
     /\ PrimFloat.leb (wtime0 (typed_input (Some 4)) 0)
          (wtime1 (typed_input (Some 4)) 0) = true)
    /\ exists root rest before total err,
         g' = root :: rest
         /\ Var.t0 (vars root) = wtime0 (typed_input (Some 4)) 0
         /\ Var.t1 (vars root) = wtime1 (typed_input (Some 4)) 0
         /\ log root
            = before ++ [EvReport (PrimFloat.sub (Var.t1 (vars root)) (Var.t0 (vars root)))
                           total err]
         /\ PrimFloat.leb 0 (PrimFloat.sub (Var.t1 (vars root)) (Var.t0 (vars root)))
            = true.
Proof.
  assert (H : exists g', round (launch 2 stale_locals) (typed_input (Some 4))
                         = Continue g')
    by (vm_compute; eexists; reflexivity).
  destruct H as (g' & Hg'). exists g'.
  assert (Hwf : wf_group (launch 2 stale_locals)) by (apply launch_wf; lia).
  split.
  - split; [exact Hwf|]. split; [exact Hg'|]. repeat split; reflexivity.
  - apply (elapsed_time_is_nonnegative (launch 2 stale_locals) g'
             (typed_input (Some 4)) Hwf Hg'); reflexivity.
Defined.

(** * Further properties of the strided loop *)

(** The last index of the progression [i, i + step, ...] within [n]. *)
Definition last_index (i n step : Z) : Z := n - (n - i) mod step.

Lemma owned_loop_finishes fuel : forall i n step,
  1 <= step -> INT_MIN <= i ->
  (i <= n -> last_index i n step + step <= INT_MAX) ->
  Z.max 0 (n - i + 1) < Z.of_nat fuel ->
  owned_loop fuel i n step = Done (strided i n step).
Proof.
  induction fuel as [|k IH]; intros i n step Hs Hi Hlast Hf; [lia|].
  cbn [owned_loop]. destruct (Z.leb_spec i n) as [Hle|Hgt].
  - specialize (Hlast Hle). unfold last_index in Hlast.
    pose proof (Z.mod_pos_bound (n - i) step ltac:(lia)) as Hm.
    assert (Hmle : (n - i) mod step <= n - i) by (apply Z.mod_le; lia).
    rewrite in_int_true by int_lia.
    rewrite IH; [cbn; now rewrite (strided_cons i n step)|lia|int_lia| |lia].
    intros Hnext. unfold last_index.
    replace (n - (i + step)) with (n - i + (-1) * step) by lia.
    now rewrite Z.mod_add by lia.
  - now rewrite strided_nil.
Qed.

(** X1: a rank with at least one index finishes its loop on the closed-form
    share exactly when its last index plus numprocs still fits an int;
    otherwise the increment after the last index overflows. *)
Theorem owned_finishes_or_overflows (n myid numprocs : Z) :
  1 <= numprocs -> 0 <= myid -> myid + 1 <= n -> n <= INT_MAX ->
  owned n myid numprocs
  = if last_index (myid + 1) n numprocs + numprocs <=? INT_MAX
    then Done (strided (myid + 1) n numprocs)
    else Overflow.
Proof.
  intros Hs Hr Hle Hn.
  destruct (Z.leb_spec (last_index (myid + 1) n numprocs + numprocs) INT_MAX) as [H|H].
  - unfold owned. apply owned_loop_finishes; try int_lia.
    apply loop_fuel_enough.
  - apply owned_overflows; assumption.
Qed.

Lemma owned_finishes_or_overflows_witness :
  (1 <= 4 /\ 0 <= 1 /\ 1 + 1 <= 10 /\ 10 <= INT_MAX)
  /\ owned 10 1 4
     = if last_index (1 + 1) 10 4 + 4 <=? INT_MAX
       then Done (strided (1 + 1) 10 4)
       else Overflow.
Proof.
  assert (H : 1 <= 4 /\ 0 <= 1 /\ 1 + 1 <= 10 /\ 10 <= INT_MAX) by (unfold INT_MAX; lia).
  split; [exact H|].
  apply (owned_finishes_or_overflows 10 1 4); apply H.
Defined.

Lemma length_strided i n step :
  Z.of_nat (length (strided i n step)) = Z.max 0 ((n - i) / step + 1).
Proof. unfold strided. rewrite length_map, length_seq. lia. Qed.

(** X2: the shares are balanced: of two ranks, the lower one owns as
    many indices as the higher one or one more; and the shares of all the
    ranks hold n indices together. *)
Theorem shares_are_balanced (n numprocs r1 r2 : Z) :
  1 <= n -> n + numprocs <= INT_MAX -> 0 <= r1 -> r1 <= r2 -> r2 < numprocs ->
  exists share1 share2 shares,
    owned n r1 numprocs = Done share1
    /\ owned n r2 numprocs = Done share2
    /\ Z.of_nat (length share2) <= Z.of_nat (length share1)
       <= Z.of_nat (length share2) + 1
    /\ all_done (map (fun r => owned n r numprocs) (ranks numprocs)) = Done shares
    /\ Z.of_nat (length (concat shares)) = n.
Proof.
  intros Hn Hmax H1 H12 H2.
  exists (strided (r1 + 1) n numprocs), (strided (r2 + 1) n numprocs),
    (map (fun r => strided (r + 1) n numprocs) (ranks numprocs)).
  rewrite !owned_strided by lia. split; [reflexivity|]. split; [reflexivity|].
  split.
  - rewrite !length_strided.
    assert (Hq1 : (n - (r2 + 1)) / numprocs <= (n - (r1 + 1)) / numprocs)
      by (apply Z.div_le_mono; lia).
    assert (Hq2 : (n - (r1 + 1)) / numprocs <= (n - (r2 + 1) + 1 * numprocs) / numprocs)
      by (apply Z.div_le_mono; lia).
    rewrite Z.div_add in Hq2 by lia. lia.
  - split.
    + assert (G : forall l, (forall r, In r l -> 0 <= r < numprocs) ->
                   all_done (map (fun r => owned n r numprocs) l)
                   = Done (map (fun r => strided (r + 1) n numprocs) l)).
      { induction l as [|r l IH]; intros Hl; [reflexivity|].
        cbn [map all_done]. rewrite owned_strided by (try apply Hl; try lia; now left).
        rewrite IH by (intros; apply Hl; now right). reflexivity. }
      apply G. intros r Hr. now apply in_ranks.
    + rewrite (Permutation_length (strided_shares_perm n numprocs ltac:(lia))).
      rewrite length_strided, Z.div_1_r. lia.
Qed.

Lemma shares_are_balanced_witness :
  (1 <= 10 /\ 10 + 4 <= INT_MAX /\ 0 <= 1 /\ 1 <= 2 /\ 2 < 4)
  /\ exists share1 share2 shares,
       owned 10 1 4 = Done share1
       /\ owned 10 2 4 = Done share2
       /\ Z.of_nat (length share2) <= Z.of_nat (length share1)
          <= Z.of_nat (length share2) + 1
       /\ all_done (map (fun r => owned 10 r 4) (ranks 4)) = Done shares
       /\ Z.of_nat (length (concat shares)) = 10.
Proof.
  assert (H : 1 <= 10 /\ 10 + 4 <= INT_MAX /\ 0 <= 1 /\ 1 <= 2 /\ 2 < 4)
    by (unfold INT_MAX; lia).
  split; [exact H|].
  apply (shares_are_balanced 10 4 1 2); apply H.
Defined.

(** X3: for numprocs >= 1 and n + numprocs <= INT_MAX, the index j of
    [1..n] is handled by rank (j-1) mod numprocs, in pass (j-1) / numprocs
    (counted from 0) of that rank's loop. *)
Theorem owner_of_index (n numprocs j : Z) :
  1 <= numprocs -> n + numprocs <= INT_MAX -> 1 <= j <= n ->
  exists share,
    owned n ((j - 1) mod numprocs) numprocs = Done share
    /\ nth_error share (Z.to_nat ((j - 1) / numprocs)) = Some j.
Proof.
  intros Hs Hmax Hj.
  pose proof (Z.mod_pos_bound (j - 1) numprocs ltac:(lia)) as Hm.
  pose proof (Z.div_mod (j - 1) numprocs ltac:(lia)) as Hd.
  assert (Hq : 0 <= (j - 1) / numprocs) by (apply Z.div_pos; lia).
  exists (strided ((j - 1) mod numprocs + 1) n numprocs).
  rewrite owned_strided by lia. split; [reflexivity|].
  unfold strided. rewrite nth_error_map.
  assert (Hk : (j - 1) / numprocs <= (n - ((j - 1) mod numprocs + 1)) / numprocs)
    by (apply Z.div_le_lower_bound; nia).
  rewrite nth_error_seq.
  destruct (Nat.ltb_spec (Z.to_nat ((j - 1) / numprocs))
              (Z.to_nat ((n - ((j - 1) mod numprocs + 1)) / numprocs + 1))) as [_|Hge];
    [|lia].
  cbn [option_map]. f_equal. lia.
Qed.

Lemma owner_of_index_witness :
  (1 <= 4 /\ 10 + 4 <= INT_MAX /\ 1 <= 7 <= 10)
  /\ exists share,
       owned 10 ((7 - 1) mod 4) 4 = Done share
       /\ nth_error share (Z.to_nat ((7 - 1) / 4)) = Some 7.
Proof.
  assert (H : 1 <= 4 /\ 10 + 4 <= INT_MAX /\ 1 <= 7 <= 10) by (unfold INT_MAX; lia).
  split; [exact H|].
  apply (owner_of_index 10 4 7); apply H.
Defined.

(** * Further properties of runs *)

Section RunInvariants.
Context {D : Type} {ops : DoubleOps D}.
Implicit Types (p : proc D) (g : list (proc D)) (ri : round_input D).

(** A property of groups that the steps of a round keep holds of the
    group any run reaches. *)
Lemma run_invariant (I : list (proc D) -> Prop) :
  (forall g ri, wf_group g -> I g ->
     I (map (after_bcast (typed ri) (broadcast_value g ri)) g)) ->
  (forall g ri total, wf_group g -> I g -> broadcast_value g ri <> 0 ->
     I (map (round_done ri (broadcast_value g ri) total) g)) ->
  (forall g, I g -> I (map finalize g)) ->
  forall ris g, wf_group g -> I g -> I (group_of (run ris g)).
Proof.
  intros Hb Hd Hf. induction ris as [|ri rest IH]; intros g Hwf Hg.
  - now rewrite run_nil.
  - rewrite run_cons by assumption.
    pose proof (wf_group_nonempty g Hwf) as Hne.
    destruct (Z.eq_dec (broadcast_value g ri) 0) as [Hz|Hnz].
    + rewrite round_break by assumption. cbn [group_of]. apply Hf.
      rewrite <- Hz. now apply Hb.
    + destruct (round_stuck_inv g ri Hwf Hnz) as [(g' & Hr)|[Hr|Hr]]; rewrite Hr.
      * destruct (round_Continue_inv g ri g' Hwf Hr) as (_ & E & _ & Hwf').
        apply IH; [assumption|]. rewrite E. now apply Hd.
      * cbn [group_of]. now apply Hb.
      * cbn [group_of]. now apply Hb.
Qed.

Lemma after_bcast_ids t v p :
  Var.myid (vars (after_bcast t v p)) = Var.myid (vars p)
  /\ Var.numprocs (vars (after_bcast t v p)) = Var.numprocs (vars p)
  /\ Var.done (vars (after_bcast t v p)) = Var.done (vars p).
Proof. destruct (after_bcast_vars t v p) as (_ & H). exact H. Qed.

Lemma finalize_ids p :
  Var.myid (vars (finalize p)) = Var.myid (vars p)
  /\ Var.numprocs (vars (finalize p)) = Var.numprocs (vars p)
  /\ Var.done (vars (finalize p)) = Var.done (vars p).
Proof. unfold finalize, emit. cbn. auto. Qed.

End RunInvariants.

(** X4: the group is fixed for the whole run: whatever the input and
    however the run ends, there are as many ranks as were launched, rank r
    is at position r with [myid = r], every rank holds [numprocs = size],
    and [done] is still 0. *)
Theorem group_is_immutable {D : Type} {ops : DoubleOps D}
  (size : nat) (junk : Z -> locals D) (ris : list (round_input D)) :
  (1 <= size)%nat ->
  length (group_of (main size junk ris)) = size
  /\ forall r p, nth_error (group_of (main size junk ris)) r = Some p ->
       Var.myid (vars p) = Z.of_nat r
       /\ Var.numprocs (vars p) = Z.of_nat size
       /\ Var.done (vars p) = 0.
Proof.
  intros Hs.
  assert (H : wf_group (group_of (main size junk ris))
              /\ length (group_of (main size junk ris)) = size).
  { unfold main.
    apply (run_invariant (fun g => wf_group g /\ length g = size)).
    - intros g ri Hwf (_ & Hl). split; [|now rewrite length_map].
      apply wf_group_map; [|assumption]. intros p. apply after_bcast_ids.
    - intros g ri total Hwf (_ & Hl) _. split; [|now rewrite length_map].
      apply wf_group_map; [|assumption]. intros p. apply round_done_ids.
    - intros g (Hwf & Hl). split; [|now rewrite length_map].
      apply wf_group_map; [|assumption]. intros p. apply finalize_ids.
    - now apply launch_wf.
    - split; [now apply launch_wf|]. unfold launch. now rewrite length_map, length_seq. }
  destruct H as (Hwf & Hl). split; [exact Hl|].
  intros r p Hp.
  destruct (wf_group_rank _ p Hwf (nth_error_In _ _ Hp)) as (_ & Hn & Hd).
  rewrite Hl in Hn. split; [|auto].
  destruct Hwf as (_ & Hid & _).
  apply (map_nth_error (fun q => Var.myid (vars q))) in Hp.
  rewrite Hid in Hp. unfold ranks in Hp. rewrite nth_error_map in Hp.
  destruct (nth_error (seq 0 _) r) as [k|] eqn:Ek; [|discriminate].
  injection Hp as <-. f_equal.
  pose proof (nth_error_Some (seq 0 (Z.to_nat (Z.of_nat (length (group_of (main size junk ris))))))
                r) as Hlt.
  rewrite Ek, length_seq in Hlt.
  assert (Hr : (r < Z.to_nat (Z.of_nat (length (group_of (main size junk ris)))))%nat)
    by (apply Hlt; discriminate).
  rewrite nth_error_seq in Ek.
  destruct (Nat.ltb_spec r (Z.to_nat (Z.of_nat (length (group_of (main size junk ris))))));
    [|lia].
  now injection Ek as <-.
Qed.

Lemma group_is_immutable_witness :
  (1 <= 3)%nat
  /\ length (group_of (main 3 stale_locals [typed_input (Some 5); typed_input None])) = 3%nat
  /\ forall r p,
       nth_error (group_of (main 3 stale_locals [typed_input (Some 5); typed_input None])) r
       = Some p ->
       Var.myid (vars p) = Z.of_nat r
       /\ Var.numprocs (vars p) = Z.of_nat 3
       /\ Var.done (vars p) = 0.
Proof.
  assert (H : (1 <= 3)%nat) by lia.
  split; [exact H|].
  apply (group_is_immutable 3 stale_locals
           [typed_input (Some 5); typed_input None] H).
Defined.

(** Console events: the prompt, the read and the report. *)
Definition console_event {D : Type} (e : event D) : Prop :=
  match e with
  | EvPrompt | EvScanf _ | EvReport _ _ _ => True
  | _ => False
  end.

Lemma after_bcast_pi {D : Type} {ops : DoubleOps D} t v (p : proc D) :
  Var.pi (vars (after_bcast t v p)) = Var.pi (vars p).
Proof.
  unfold after_bcast, read_input.
  destruct (Var.myid (vars p) =? 0); [destruct t|]; reflexivity.
Qed.

(** X5: ranks other than 0 never touch the console and never have [pi]
    written: in every run their logs hold no prompt, read or report, and
    [pi] is what it was at launch. *)
Theorem only_rank_0_reports {D : Type} {ops : DoubleOps D}
  (size : nat) (junk : Z -> locals D) (ris : list (round_input D)) (p : proc D) :
  In p (group_of (main size junk ris)) -> Var.myid (vars p) <> 0 ->
  Forall (fun e => ~ console_event e) (log p)
  /\ Var.pi (vars p) = Var.pi (junk (Var.myid (vars p))).
Proof.
  intros Hp Hr. destruct size as [|k].
  { unfold main in Hp. cbn [launch seq map] in Hp. rewrite run_no_ranks in Hp.
    contradiction. }
  set (quiet := fun q : proc D =>
                  Var.myid (vars q) <> 0 ->
                  Forall (fun e => ~ console_event e) (log q)
                  /\ Var.pi (vars q) = Var.pi (junk (Var.myid (vars q)))).
  assert (H : Forall quiet (group_of (main (S k) junk ris))).
  { unfold main. apply (run_invariant (Forall quiet)).
    - intros g ri _ Hg. apply Forall_map. eapply Forall_impl; [|exact Hg].
      intros q Hq. unfold quiet in *.
      rewrite (proj1 (after_bcast_ids _ _ q)), after_bcast_pi, after_bcast_log.
      intros Hn. destruct (Hq Hn) as (Hl & Hpi). split; [|assumption].
      apply Z.eqb_neq in Hn. rewrite Hn. cbn [app].
      apply Forall_app. split; [assumption|]. repeat constructor. cbn. tauto.
    - intros g ri total _ Hg _. apply Forall_map. eapply Forall_impl; [|exact Hg].
      intros q Hq. unfold quiet in *.
      rewrite (proj1 (round_done_ids _ _ _ q)), round_done_vars, round_done_log.
      unfold round_events. cbn [Var.pi].
      intros Hn. destruct (Hq Hn) as (Hl & Hpi).
      apply Z.eqb_neq in Hn. rewrite Hn. cbn [app]. split; [|assumption].
      apply Forall_app. split; [assumption|]. repeat constructor; cbn; tauto.
    - intros g Hg. apply Forall_map. eapply Forall_impl; [|exact Hg].
      intros q Hq. unfold quiet in *. unfold finalize, emit. cbn [vars log].
      intros Hn. destruct (Hq Hn) as (Hl & Hpi). split; [|assumption].
      rewrite <- app_assoc. apply Forall_app. split; [assumption|].
      repeat constructor; cbn; tauto.
    - apply launch_wf. lia.
    - unfold launch. apply Forall_map. apply Forall_forall. intros r _.
      unfold quiet. cbn [vars log Var.myid Var.pi]. intros _. split; [constructor|reflexivity]. }
  rewrite Forall_forall in H. now apply H.
Qed.

Lemma only_rank_0_reports_witness :
  exists p,
    (In p (group_of (main 2 stale_locals [typed_input (Some 4); typed_input (Some 0)]))
     /\ Var.myid (vars p) <> 0)
    /\ Forall (fun e => ~ console_event e) (log p)
    /\ Var.pi (vars p) = Var.pi (stale_locals (Var.myid (vars p))).
Proof.
  assert (H : exists p,
             In p (group_of (main 2 stale_locals
                               [typed_input (Some 4); typed_input (Some 0)]))
             /\ Var.myid (vars p) <> 0).
  { vm_compute. eexists. split; [right; left; reflexivity|]. cbn. discriminate. }
  destruct H as (p & Hp & Hr). exists p. split; [split; assumption|].
  exact (only_rank_0_reports 2 stale_locals _ p Hp Hr).
Defined.





(** An input rank 0 reads as an [int] that leaves room for the loop
    counter of every rank of a group of [size]. *)
Definition in_range_input {D : Type} (size : nat) (ri : round_input D) : Prop :=
  exists v, typed ri = Some v /\ v + Z.of_nat size <= INT_MAX.

Lemma round_in_range {D : Type} {ops : DoubleOps D}
  (g : list (proc D)) (ri : round_input D) (v : Z) :
  wf_group g -> typed ri = Some v -> v + Z.of_nat (length g) <= INT_MAX ->
  (v = 0 /\ round g ri = AllBreak (map (after_bcast (typed ri) 0) g))
  \/ (v <> 0
      /\ round g ri = Continue (map (round_done ri v (reduce_sum (partials v g))) g)).
Proof.
  intros Hwf Ht Hmax. pose proof (wf_group_nonempty g Hwf) as Hne.
  assert (Hv : broadcast_value g ri = v) by (now rewrite broadcast_value_typed, Ht).
  destruct (Z.eq_dec v 0) as [Hz|Hnz].
  - left. split; [assumption|]. apply round_break; [assumption|lia].
  - right. split; [assumption|]. rewrite round_step by (try assumption; lia).
    rewrite Hv.
    destruct (proj2 (all_done_Done_iff
                       (fun p => owned v (Var.myid (vars p)) (Var.numprocs (vars p))) g))
      as (idxs & ->); [|reflexivity].
    apply Forall_forall. intros p Hp.
    destruct (wf_group_rank g p Hwf Hp) as (Hr & Hn & _).
    eexists. apply owned_strided; lia.
Qed.

(** X8: a run whose inputs are all read and in range never fails: it
    waits for more input or has exited through [break], with no overflow,
    no hang and no rank left behind. *)
Theorem in_range_run_never_fails {D : Type} {ops : DoubleOps D}
  (size : nat) (junk : Z -> locals D) (ris : list (round_input D)) :
  (1 <= size)%nat -> Forall (in_range_input size) ris ->
  (exists g, main size junk ris = Waiting g)
  \/ (exists g, main size junk ris = Exited ByBreak g).
Proof.
  intros Hs Hris. unfold main.
  assert (G : forall g, wf_group g -> length g = size ->
                (exists g', run ris g = Waiting g')
                \/ (exists g', run ris g = Exited ByBreak g')).
  { induction Hris as [|ri rest (v & Ht & Hv) _ IH]; intros g Hwf Hl.
    - left. exists g. now apply run_nil.
    - rewrite run_cons by assumption. rewrite <- Hl in Hv.
      destruct (round_in_range g ri v Hwf Ht Hv) as [(_ & ->)|(_ & ->)].
      + right. eexists. reflexivity.
      + apply IH; [|now rewrite length_map].
        apply wf_group_map; [|assumption]. intros p. apply round_done_ids. }
  apply G; [now apply launch_wf|]. unfold launch. now rewrite length_map, length_seq.
Qed.

Lemma in_range_run_never_fails_witness :
  ((1 <= 2)%nat
   /\ Forall (in_range_input 2) [typed_input (Some 4); typed_input (Some (-3))])
  /\ ((exists g, main 2 stale_locals [typed_input (Some 4); typed_input (Some (-3))]
                 = Waiting g)
      \/ (exists g, main 2 stale_locals [typed_input (Some 4); typed_input (Some (-3))]
                    = Exited ByBreak g)).
Proof.
  assert (H : (1 <= 2)%nat
              /\ Forall (in_range_input 2) [typed_input (Some 4); typed_input (Some (-3))]).
  { split; [lia|]. repeat constructor.
    - exists 4. split; [reflexivity|unfold INT_MAX; cbn; lia].
    - exists (-3). split; [reflexivity|unfold INT_MAX; cbn; lia]. }
  split; [exact H|].
  apply (in_range_run_never_fails 2 stale_locals
           [typed_input (Some 4); typed_input (Some (-3))]); apply H.
Defined.

Section FailedReads.
Context {D : Type} {ops : DoubleOps D}.
Implicit Types (p : proc D) (g : list (proc D)) (ri : round_input D).

(** A group that has completed a round with [n = v]. *)
Definition settled (v : Z) g : Prop :=
  wf_group g /\ v <> 0
  /\ Forall (fun p => Var.n (vars p) = v
                      /\ exists idx, owned v (Var.myid (vars p)) (Var.numprocs (vars p))
                                     = Done idx) g.

Lemma share_of_round_done ri v total w p :
  share_of w (round_done ri v total p) = share_of w p.
Proof.
  unfold share_of. destruct (round_done_ids ri v total p) as (-> & -> & _). reflexivity.
Qed.

Lemma partials_round_done ri v total w g :
  partials w (map (round_done ri v total) g) = partials w g.
Proof.
  unfold partials. rewrite map_map. apply map_ext. intros p.
  now rewrite share_of_round_done.
Qed.

Lemma round_Continue_settled g ri g' :
  wf_group g -> round g ri = Continue g' -> settled (broadcast_value g ri) g'.
Proof.
  intros Hwf Hr. destruct (round_Continue_inv g ri g' Hwf Hr) as (Hnz & -> & Hall & Hwf').
  split; [assumption|]. split; [assumption|].
  apply Forall_map. eapply Forall_impl; [|exact Hall]. intros p (idx & Hidx).
  rewrite round_done_vars. cbn [Var.n Var.myid Var.numprocs]. eauto.
Qed.

Lemma settled_failed_read v g ri :
  settled v g -> typed ri = None ->
  broadcast_value g ri = v
  /\ round g ri = Continue (map (round_done ri v (reduce_sum (partials v g))) g)
  /\ settled v (map (round_done ri v (reduce_sum (partials v g))) g).
Proof.
  intros (Hwf & Hnz & Hall) Ht.
  pose proof (wf_group_nonempty g Hwf) as Hne.
  assert (Hv : broadcast_value g ri = v).
  { rewrite broadcast_value_typed, Ht by assumption.
    destruct g as [|p0 g0]; [contradiction|]. cbn [root_n].
    inversion Hall as [|? ? (Hn & _) _]; subst. reflexivity. }
  assert (Hr : round g ri
               = Continue (map (round_done ri v (reduce_sum (partials v g))) g)).
  { rewrite round_step by (try assumption; lia). rewrite Hv.
    destruct (proj2 (all_done_Done_iff
                       (fun p => owned v (Var.myid (vars p)) (Var.numprocs (vars p))) g))
      as (idxs & ->); [|reflexivity].
    eapply Forall_impl; [|exact Hall]. intros p (_ & H). exact H. }
  split; [assumption|]. split; [assumption|].
  pose proof (round_Continue_settled g ri _ Hwf Hr) as Hs.
  rewrite Hv in Hs. exact Hs.
Qed.

End FailedReads.

(** A round whose broadcast value leaves room for the loop counter of
    every rank: all ranks take [break], or the round completes with every
    rank on its strided share. *)
Lemma round_broadcast_in_range {D : Type} {ops : DoubleOps D}
  (g : list (proc D)) (ri : round_input D) :
  wf_group g -> broadcast_value g ri + Z.of_nat (length g) <= INT_MAX ->
  (broadcast_value g ri = 0
   /\ round g ri = AllBreak (map (after_bcast (typed ri) 0) g))
  \/ (broadcast_value g ri <> 0
      /\ round g ri
         = Continue (map (round_done ri (broadcast_value g ri)
                            (reduce_sum (partials (broadcast_value g ri) g))) g)
      /\ forall p, In p g ->
           share_of (broadcast_value g ri) p
           = strided (Var.myid (vars p) + 1) (broadcast_value g ri)
               (Z.of_nat (length g))).
Proof.
  intros Hwf Hmax. pose proof (wf_group_nonempty g Hwf) as Hne.
  set (v := broadcast_value g ri) in *.
  assert (Hown : forall p, In p g ->
            owned v (Var.myid (vars p)) (Var.numprocs (vars p))
            = Done (strided (Var.myid (vars p) + 1) v (Z.of_nat (length g)))).
  { intros p Hp. destruct (wf_group_rank g p Hwf Hp) as (Hr & -> & _).
    apply owned_strided; lia. }
  destruct (Z.eq_dec v 0) as [Hz|Hnz].
  - left. split; [assumption|]. now apply round_break.
  - right. split; [assumption|]. split.
    + rewrite round_step by assumption. fold v.
      destruct (proj2 (all_done_Done_iff
                         (fun p => owned v (Var.myid (vars p)) (Var.numprocs (vars p))) g))
        as (idxs & ->); [|reflexivity].
      apply Forall_forall. intros p Hp. eexists. now apply Hown.
    + intros p Hp. unfold share_of. now rewrite (Hown p Hp).
Qed.

(** * Rounds do not depend on one another *)

(** What the integration step leaves in [mypi], [h] and [sum]. *)
Definition step_results {D : Type} (l : locals D) : D * D * D :=
  (Var.mypi l, Var.h l, Var.sum l).

(** The integration step on locals that hold [n], [myid] and [numprocs]
    and nothing else. *)
Definition fresh_step {D : Type} {ops : DoubleOps D} (n myid numprocs : Z)
  : outcome (D * D * D) :=
  outcome_map step_results
    (integrate (Var.mk 0 n myid numprocs 0 d_zero d_zero d_zero d_zero d_zero
                  d_zero d_zero)).

(** The integration step is a function of [n], [myid] and [numprocs]:
    on locals that agree on the three it ends the same way, with the same
    [mypi], [h] and [sum] or with the same failure of the loop, whatever
    the other variables hold; and it leaves [myid] and [numprocs] alone. *)
Definition step_depends_on_triple {D : Type} {ops : DoubleOps D} : Prop :=
  forall l1 l2 : locals D,
    Var.n l1 = Var.n l2 -> Var.myid l1 = Var.myid l2 ->
    Var.numprocs l1 = Var.numprocs l2 ->
    outcome_map step_results (integrate l1) = outcome_map step_results (integrate l2)
    /\ outcome_map (fun l => (Var.myid l, Var.numprocs l)) (integrate l1)
       = outcome_map (fun _ => (Var.myid l1, Var.numprocs l1)) (integrate l1).

(** Two rounds with the same broadcast value [v] on groups of the same
    size: both complete, rank by rank they leave the same [mypi], [h] and
    [sum], namely what the integration step computes from (v, rank, size)
    alone; [myid] and [numprocs] are as before the round; and [n] stays
    [v], which is what rank 0 broadcasts again when its next [scanf]
    converts nothing. *)
Definition rounds_agree {D : Type} {ops : DoubleOps D}
  (g1 g2 : list (proc D)) (ri1 ri2 : round_input D) (v : Z) : Prop :=
  exists g1' g2',
    round g1 ri1 = Continue g1' /\ round g2 ri2 = Continue g2'
    /\ map (fun p => step_results (vars p)) g1'
       = map (fun p => step_results (vars p)) g2'
    /\ map (fun p => Done (step_results (vars p))) g1'
       = map (fun r => fresh_step v r (Z.of_nat (length g1)))
           (ranks (Z.of_nat (length g1)))
    /\ Forall2 (fun p p' => Var.myid (vars p') = Var.myid (vars p)
                            /\ Var.numprocs (vars p') = Var.numprocs (vars p)) g1 g1'
    /\ Forall (fun p' => Var.n (vars p') = v) g1'
    /\ (forall ri', typed ri' = None -> broadcast_value g1' ri' = v).

Lemma integrate_depends_on_triple {D : Type} {ops : DoubleOps D} :
  step_depends_on_triple.
Proof.
  intros l1 l2 En Er Es. rewrite !integrate_owned, <- En, <- Er, <- Es.
  destruct (owned (Var.n l1) (Var.myid l1) (Var.numprocs l1)) as [idx| |];
    cbn [outcome_map]; split; try reflexivity.
  unfold integrated, step_results. cbn [Var.mypi Var.h Var.sum]. now rewrite <- En.
Qed.

Lemma fresh_step_strided {D : Type} {ops : DoubleOps D} (v r size : Z) :
  0 <= r < size -> v + size <= INT_MAX ->
  fresh_step v r size
  = Done (partial_of (step_width v) (strided (r + 1) v size), step_width v,
          fold_left (accumulate (step_width v)) (strided (r + 1) v size) d_zero).
Proof.
  intros Hr Hmax. unfold fresh_step. rewrite integrate_owned.
  cbn [Var.n Var.myid Var.numprocs]. rewrite owned_strided by lia. reflexivity.
Qed.

Lemma round_done_step_results {D : Type} {ops : DoubleOps D}
  (g : list (proc D)) (ri : round_input D) (v : Z) (total : D) :
  wf_group g -> v + Z.of_nat (length g) <= INT_MAX ->
  (forall p, In p g ->
     share_of v p = strided (Var.myid (vars p) + 1) v (Z.of_nat (length g))) ->
  map (fun p => Done (step_results (vars p))) (map (round_done ri v total) g)
  = map (fun r => fresh_step v r (Z.of_nat (length g))) (ranks (Z.of_nat (length g))).
Proof.
  intros Hwf Hmax Hshare. pose proof Hwf as (_ & Hid & _).
  rewrite <- Hid, !map_map. apply map_ext_in. intros p Hp.
  destruct (wf_group_rank g p Hwf Hp) as (Hr & _).
  rewrite fresh_step_strided by lia.
  rewrite round_done_vars, (Hshare p Hp). reflexivity.
Qed.

(** C7, as amended: the partial computation of a round is a function of
    (n, rank, groupSize) alone. The integration step ends the same way on
    any locals that agree on the three. Two rounds with the same n <> 0 in
    range on groups of the same size, whatever earlier rounds left in the
    locals, both produce partial results, and the same ones: [h] and [sum]
    are assigned afresh, [mypi] is computed from them. Rank and group size
    are unchanged, and [n] outlives the round too: it is broadcast again
    when the next read converts nothing. *)
Theorem partial_results_depend_on_n_rank_size {D : Type} {ops : DoubleOps D}
  (g1 g2 : list (proc D)) (ri1 ri2 : round_input D) (v : Z) :
  wf_group g1 -> wf_group g2 -> length g1 = length g2 ->
  broadcast_value g1 ri1 = v -> broadcast_value g2 ri2 = v ->
  v <> 0 -> v + Z.of_nat (length g1) <= INT_MAX ->
  step_depends_on_triple (D := D) /\ rounds_agree g1 g2 ri1 ri2 v.
Proof.
  intros Hwf1 Hwf2 Hlen Hv1 Hv2 Hnz Hmax.
  split; [apply integrate_depends_on_triple|].
  destruct (round_broadcast_in_range g1 ri1 Hwf1 ltac:(now rewrite Hv1))
    as [(Hz & _)|(_ & Hr1 & Hs1)]; [congruence|].
  destruct (round_broadcast_in_range g2 ri2 Hwf2 ltac:(now rewrite Hv2, <- Hlen))
    as [(Hz & _)|(_ & Hr2 & Hs2)]; [congruence|].
  rewrite Hv1 in Hr1, Hs1. rewrite Hv2 in Hr2, Hs2.
  pose proof (round_done_step_results g1 ri1 v (reduce_sum (partials v g1))
                Hwf1 Hmax Hs1) as E1.
  pose proof (round_done_step_results g2 ri2 v (reduce_sum (partials v g2))
                Hwf2 ltac:(now rewrite <- Hlen) Hs2) as E2.
  rewrite <- Hlen in E2.
  eexists. eexists. split; [exact Hr1|]. split; [exact Hr2|]. split.
  { rewrite <- E2 in E1. rewrite <- !(map_map (fun p => step_results (vars p)) Done) in E1.
    revert E1. generalize (map (fun p => step_results (vars p))
                             (map (round_done ri1 v (reduce_sum (partials v g1))) g1)).
    generalize (map (fun p => step_results (vars p))
                  (map (round_done ri2 v (reduce_sum (partials v g2))) g2)).
    intros l2 l1. revert l2. induction l1 as [|a l1 IH]; intros [|b l2] E;
      try discriminate; [reflexivity|].
    cbn [map] in E. injection E as -> E. f_equal. now apply IH. }
  split; [exact E1|]. split.
  { apply Forall2_map_self. intros p _. destruct (round_done_ids ri1 v (reduce_sum (partials v g1)) p)
      as (-> & -> & _). auto. }
  assert (Hn : Forall (fun p' => Var.n (vars p') = v)
                 (map (round_done ri1 v (reduce_sum (partials v g1))) g1)).
  { apply Forall_map. apply Forall_forall. intros p _. now rewrite round_done_vars. }
  split; [exact Hn|].
  intros ri' Ht. rewrite broadcast_value_typed, Ht.
  - destruct g1 as [|p0 g0]; [now destruct Hwf1|]. cbn [map root_n].
    now rewrite round_done_vars.
  - apply wf_group_map; [|assumption]. intros p. apply round_done_ids.
Qed.

Lemma partial_results_depend_on_n_rank_size_witness :
  (wf_group (launch 2 stale_locals)
   /\ wf_group (group_of (main 2 stale_locals [typed_input (Some 4); typed_input (Some 8)]))
   /\ length (launch 2 stale_locals)
      = length (group_of (main 2 stale_locals [typed_input (Some 4); typed_input (Some 8)]))
   /\ broadcast_value (launch 2 stale_locals) (typed_input (Some 8)) = 8
   /\ broadcast_value
        (group_of (main 2 stale_locals [typed_input (Some 4); typed_input (Some 8)]))
        (typed_input None) = 8
   /\ 8 <> 0 /\ 8 + Z.of_nat (length (launch 2 stale_locals)) <= INT_MAX)
  /\ step_depends_on_triple (D := float)
  /\ rounds_agree (launch 2 stale_locals)
       (group_of (main 2 stale_locals [typed_input (Some 4); typed_input (Some 8)]))
       (typed_input (Some 8)) (typed_input None) 8.
Proof.
  assert (H : wf_group (launch 2 stale_locals)
   /\ wf_group (group_of (main 2 stale_locals [typed_input (Some 4); typed_input (Some 8)]))
   /\ length (launch 2 stale_locals)
      = length (group_of (main 2 stale_locals [typed_input (Some 4); typed_input (Some 8)]))
   /\ broadcast_value (launch 2 stale_locals) (typed_input (Some 8)) = 8
   /\ broadcast_value
        (group_of (main 2 stale_locals [typed_input (Some 4); typed_input (Some 8)]))
        (typed_input None) = 8
   /\ 8 <> 0 /\ 8 + Z.of_nat (length (launch 2 stale_locals)) <= INT_MAX).
  { split; [apply launch_wf; lia|]. split.
    { unfold wf_group. vm_compute. split; [discriminate|]. split; [reflexivity|].
      repeat constructor. }
    split; [vm_compute; reflexivity|]. split; [vm_compute; reflexivity|].
    split; [vm_compute; reflexivity|]. split; [discriminate|].
    vm_compute. discriminate. }
  split; [exact H|].
  apply (partial_results_depend_on_n_rank_size (launch 2 stale_locals)
           (group_of (main 2 stale_locals [typed_input (Some 4); typed_input (Some 8)]))
           (typed_input (Some 8)) (typed_input None) 8); apply H.
Defined.

(** C7 as stated fails in its last clause: rank and group size are not
    the only state that outlives a round. Two groups of two ranks, one
    after a round with n = 4 and one after a round with n = 8, agree on
    every rank's [myid] and [numprocs] and are given the same input, a
    read that converts nothing; their next rounds compute different
    partial results, because [n] is still there. *)
Lemma n_outlives_the_round :
  map (fun p => (Var.myid (vars p), Var.numprocs (vars p)))
    (group_of (main 2 stale_locals [typed_input (Some 4)]))
  = map (fun p => (Var.myid (vars p), Var.numprocs (vars p)))
      (group_of (main 2 stale_locals [typed_input (Some 8)]))
  /\ exists g1' g2',
       round (group_of (main 2 stale_locals [typed_input (Some 4)])) (typed_input None)
       = Continue g1'
       /\ round (group_of (main 2 stale_locals [typed_input (Some 8)])) (typed_input None)
          = Continue g2'
       /\ map (fun p => Var.mypi (vars p)) g1' <> map (fun p => Var.mypi (vars p)) g2'.
Proof.
  split; [vm_compute; reflexivity|].
  eexists. eexists. split; [vm_compute; reflexivity|]. split; [vm_compute; reflexivity|].
  intros H. apply (f_equal (map Prim2SF)) in H. vm_compute in H. discriminate H.
Qed.

(** * Finalization *)











(** What follows a completed round when [scanf] converts nothing: the
    same value is broadcast again and the round is computed again, with
    the same results; on end of input the loop goes on for ever. *)
Definition failed_reads_repeat {D : Type} {ops : DoubleOps D}
  (g g' : list (proc D)) (ri : round_input D) : Prop :=
  (forall ri', typed ri' = None ->
     exists g'',
       round g' ri' = Continue g''
       /\ broadcast_value g' ri' = broadcast_value g ri
       /\ map (fun p => Var.mypi (vars p)) g'' = map (fun p => Var.mypi (vars p)) g'
       /\ map (fun p => Var.pi (vars p)) g'' = map (fun p => Var.pi (vars p)) g')
  /\ (forall eof, Forall (fun ri' => typed ri' = None) eof ->
        exists gk, run eof g' = Waiting gk).

(** X9: the result of [scanf] is not checked: after a completed round, a
    read that converts nothing leaves [n] as it was, so the round is
    repeated with the same n, the same partial results and the same total;
    once the input is exhausted no round ever broadcasts 0, and the run
    does not exit. *)
Theorem failed_read_repeats_the_round {D : Type} {ops : DoubleOps D}
  (g g' : list (proc D)) (ri : round_input D) :
  wf_group g -> round g ri = Continue g' -> failed_reads_repeat g g' ri.
Proof.
  intros Hwf Hr. pose proof (round_Continue_settled g ri g' Hwf Hr) as Hs.
  destruct (round_Continue_inv g ri g' Hwf Hr) as (_ & Eg' & _ & _).
  set (v := broadcast_value g ri) in *. split.
  - intros ri' Ht.
    destruct (settled_failed_read v g' ri' Hs Ht) as (Hv & Hr' & _).
    eexists. split; [exact Hr'|]. split; [exact Hv|].
    rewrite Eg', partials_round_done, !map_map. split.
    + apply map_ext. intros p. rewrite !round_done_vars. cbn [Var.mypi].
      now rewrite share_of_round_done.
    + apply map_ext. intros p. rewrite !round_done_vars.
      cbn [Var.pi Var.myid]. destruct (Var.myid (vars p) =? 0); reflexivity.
  - intros eof Heof. clear Hr Eg'. revert g' Hs.
    induction Heof as [|ri' rest Ht _ IH]; intros g' Hs.
    + exists g'. apply run_nil. apply Hs.
    + destruct (settled_failed_read v g' ri' Hs Ht) as (_ & Hr' & Hs').
      rewrite run_cons, Hr' by apply Hs. now apply IH.
Qed.

Lemma failed_read_repeats_the_round_witness :
  exists g',
    (wf_group (launch 2 stale_locals)
     /\ round (launch 2 stale_locals) (typed_input (Some 4)) = Continue g')
    /\ failed_reads_repeat (launch 2 stale_locals) g' (typed_input (Some 4)).
Proof.
  assert (H : exists g', round (launch 2 stale_locals) (typed_input (Some 4))
                         = Continue g')
    by (vm_compute; eexists; reflexivity).
  destruct H as (g' & Hg'). exists g'.
  assert (Hwf : wf_group (launch 2 stale_locals)) by (apply launch_wf; lia).
  split; [split; assumption|].
  exact (failed_read_repeats_the_round (launch 2 stale_locals) g'
           (typed_input (Some 4)) Hwf Hg').
Defined.

(** * The conversion [(double) i] *)

(** The double of a positive integer up to 2^31, as mantissa and
    exponent: no bit of the integer is lost. *)
Lemma of_uint63_exact (p : positive) :
  Z.pos p <= 2147483648 ->
  exists m e,
    Prim2SF (PrimFloat.of_uint63 (Uint63.of_Z (Z.pos p))) = S754_finite false m e
    /\ e <= 0 /\ Z.pos m = Z.pos p * 2 ^ (- e).
Proof.
  intros Hn.
  rewrite of_uint63_spec, Uint63.of_Z_spec.
  rewrite Z.mod_small by (change wB with 9223372036854775808; lia).
  cbn [binary_normalize]. unfold binary_round.
  pose proof (digits2_pos_bounds p) as Dp.
  set (d := Z.pos (digits2_pos p)) in *.
  assert (Hd1 : 1 <= d) by (subst d; lia).
  clearbody d.
  assert (Hd : d <= 32).
  { destruct (Z_le_gt_dec d 32) as [|Hgt]; [assumption|].
    assert (2 ^ 32 <= 2 ^ (d - 1)) by (apply Z.pow_le_mono_r; lia).
    change (2 ^ 32) with 4294967296 in *. lia. }
  assert (Hf : fexp prec emax (d + 0) = d - 53)
    by (unfold fexp, SpecFloat.emin, prec, emax; lia).
  rewrite Hf. unfold shl_align.
  destruct (d - 53 - 0) as [|k|k] eqn:Ek; try lia.
  set (mz := Pos.iter xO p k).
  assert (Hmz : Z.pos mz = Z.pos p * 2 ^ (53 - d)).
  { subst mz. rewrite iter_xO_value. f_equal. f_equal. lia. }
  assert (Hdz : Z.pos (digits2_pos mz) = 53).
  { apply digits2_pos_unique; [|lia]. rewrite Hmz.
    assert (0 < 2 ^ (53 - d)) by (apply Z.pow_pos_nonneg; lia).
    replace (2 ^ (53 - 1)) with (2 ^ (d - 1) * 2 ^ (53 - d))
      by (rewrite <- Z.pow_add_r by lia; f_equal; lia).
    replace (2 ^ 53) with (2 ^ d * 2 ^ (53 - d))
      by (rewrite <- Z.pow_add_r by lia; f_equal; lia).
    split; [apply Z.mul_le_mono_nonneg_r; lia|apply Z.mul_lt_mono_pos_r; lia]. }
  exists mz, (d - 53). split; [|split; [lia|rewrite Hmz; f_equal; f_equal; lia]].
  unfold binary_round_aux, shr_fexp. cbn [Zdigits2]. rewrite Hdz.
  replace (fexp prec emax (53 + (d - 53)) - (d - 53)) with 0
    by (unfold fexp, SpecFloat.emin, prec, emax; lia).
  cbn [shr shr_record_of_loc shr_m loc_of_shr_record round_nearest_even Zdigits2].
  rewrite Hdz.
  replace (fexp prec emax (53 + (d - 53)) - (d - 53)) with 0
    by (unfold fexp, SpecFloat.emin, prec, emax; lia).
  cbn [shr shr_m].
  assert (Hle : (d - 53 <=? emax - prec) = true) by (apply Z.leb_le; unfold emax, prec; lia).
  now rewrite Hle.
Qed.

(** X10: the conversion of an [int] to double is exact: for every
    non-zero int z the double [(double) z] is the finite number
    (-1)^s * m * 2^e with the sign of z and m * 2^e = |z|. *)
Theorem double_of_int_is_exact (z : Z) :
  INT_MIN <= z <= INT_MAX -> z <> 0 ->
  exists m e,
    Prim2SF (float_of_int z) = S754_finite (z <? 0) m e
    /\ e <= 0 /\ Z.pos m = Z.abs z * 2 ^ (- e).
Proof.
  intros Hz Hnz. unfold float_of_int. destruct z as [|p|p]; [contradiction| |].
  - cbn [Z.ltb Z.compare]. apply of_uint63_exact. unfold INT_MAX in Hz. lia.
  - cbn [Z.ltb Z.compare Z.opp]. rewrite FloatAxioms.opp_spec.
    destruct (of_uint63_exact p) as (m & e & -> & He & Hm).
    { unfold INT_MIN in Hz. lia. }
    exists m, e. cbn [SFopp negb Z.abs]. auto.
Qed.

Lemma double_of_int_is_exact_witness :
  (INT_MIN <= -6 <= INT_MAX /\ -6 <> 0)
  /\ exists m e,
       Prim2SF (float_of_int (-6)) = S754_finite (-6 <? 0) m e
       /\ e <= 0 /\ Z.pos m = Z.abs (-6) * 2 ^ (- e).
Proof.
  assert (H : INT_MIN <= -6 <= INT_MAX /\ -6 <> 0)
    by (unfold INT_MIN, INT_MAX; split; [lia|discriminate]).
  split; [exact H|].
  apply (double_of_int_is_exact (-6)); apply H.
Defined.

(** * The size of the result in exact arithmetic *)

From Stdlib Require Import Lqa.

Lemma kernel_bounds (x : Q) :
  (0 <= x)%Q -> (x <= 1)%Q -> (2 <= kernel x <= 4)%Q.
Proof.
  intros H0 H1. unfold kernel. cbn [d_div d_add d_mul d_four d_one exactQ].
  assert (Hp : (0 < 1 + x * x)%Q) by nra.
  split.
  - apply Qle_shift_div_l; [assumption|]. nra.
  - apply Qle_shift_div_r; [assumption|]. nra.
Qed.

Lemma sample_bounds (n j : Z) :
  1 <= n -> 1 <= j <= n ->
  (0 <= sample (step_width n) j)%Q /\ (sample (step_width n) j <= 1)%Q.
Proof.
  intros Hn Hj. unfold sample, step_width.
  cbn [d_div d_sub d_mul d_of_int d_half d_one exactQ].
  assert (Hnq : (1 <= inject_Z n)%Q) by (change 1%Q with (inject_Z 1); rewrite <- Zle_Qle; lia).
  assert (Hjq : (1 <= inject_Z j)%Q) by (change 1%Q with (inject_Z 1); rewrite <- Zle_Qle; lia).
  assert (Hjn : (inject_Z j <= inject_Z n)%Q) by (rewrite <- Zle_Qle; lia).
  assert (Hh : (0 < 1 / inject_Z n)%Q) by (apply Qlt_shift_div_l; lra).
  assert (Hhn : ((1 / inject_Z n) * inject_Z n == 1)%Q) by (field; lra).
  split; nra.
Qed.

Lemma Qsum_bounds (F : Z -> Q) (a b : Q) (l : list Z) :
  (forall j, In j l -> (a <= F j <= b)%Q) ->
  (inject_Z (Z.of_nat (length l)) * a <= Qsum (map F l)
   <= inject_Z (Z.of_nat (length l)) * b)%Q.
Proof.
  induction l as [|j l IH]; intros H.
  - change (Qsum (map F [])) with 0%Q. cbn [length Z.of_nat].
    change (inject_Z 0) with 0%Q. lra.
  - cbn [map length]. rewrite Qsum_cons, Nat2Z.inj_succ.
    unfold Z.succ. rewrite inject_Z_plus.
    destruct (H j ltac:(now left)) as (Ha & Hb).
    destruct IH as (IHa & IHb); [intros; apply H; now right|].
    change (inject_Z 1) with 1%Q. split; lra.
Qed.

(** The result of one worker over all of [1..n] lies between 2 and 4. *)
Lemma sequential_total_bounds (n : Z) :
  1 <= n -> (2 <= partial_of (step_width n) (strided 1 n 1) <= 4)%Q.
Proof.
  intros Hn. rewrite partial_of_Qsum.
  pose proof (Qsum_bounds (fun j => kernel (sample (step_width n) j)) 2 4
                (strided 1 n 1)) as HB.
  rewrite length_strided, Z.div_1_r in HB.
  replace (Z.max 0 (n - 1 + 1)) with n in HB by lia.
  destruct HB as (Hlo & Hhi).
  { intros j Hj. apply in_strided in Hj as (Hj & _); [|lia].
    destruct (sample_bounds n j Hn Hj). now apply kernel_bounds. }
  assert (Hnq : (1 <= inject_Z n)%Q) by (change 1%Q with (inject_Z 1); rewrite <- Zle_Qle; lia).
  assert (Hh : (0 < 1 / inject_Z n)%Q) by (apply Qlt_shift_div_l; lra).
  assert (Hhn : ((1 / inject_Z n) * inject_Z n == 1)%Q) by (field; lra).
  unfold step_width at 1 3. cbn [d_div d_one d_of_int exactQ].
  set (S := Qsum _) in *. split; nra.
Qed.

(** The total of a round in exact arithmetic. *)
Lemma exact_round_total (g : list (proc Q)) (ri : round_input Q) (n : Z) :
  wf_group g -> typed ri = Some n ->
  1 <= n -> n + Z.of_nat (length g) <= INT_MAX ->
  exists root rest,
    round g ri = Continue (root :: rest)
    /\ (Var.pi (vars root) == partial_of (step_width n) (strided 1 n 1))%Q.
Proof.
  intros Hwf Ht Hn Hmax.
  destruct (round_in_range g ri n Hwf Ht Hmax) as [(Hz & _)|(_ & Hr)]; [lia|].
  destruct (partials_by_rank g n Hwf Hn Hmax) as (_ & Hpart).
  destruct (wf_group_root g Hwf) as (p0 & g0 & Eg & Hroot).
  assert (Hlen : 1 <= Z.of_nat (length g)) by (subst g; cbn [length]; lia).
  exists (round_done ri n (reduce_sum (partials n g)) p0),
    (map (round_done ri n (reduce_sum (partials n g))) g0).
  assert (Hmap : forall f : proc Q -> proc Q, map f g = f p0 :: map f g0)
    by (intros f; rewrite Eg; reflexivity).
  split; [rewrite Hr, Hmap; reflexivity|].
  rewrite round_done_vars, Hroot. cbn [Z.eqb Var.pi].
  rewrite reduce_sum_Qsum, Hpart, Qsum_partials.
  apply partial_of_perm, strided_shares_perm. exact Hlen.
Qed.

(** X11: in exact arithmetic the total a round delivers to rank 0 lies
    between 2 and 4, for every n >= 1 in range and every group size: each
    kernel value 4/(1+x^2) is taken at a point x of [0, 1]. *)
Theorem exact_total_between_2_and_4 (g : list (proc Q)) (ri : round_input Q) (n : Z) :
  wf_group g -> typed ri = Some n ->
  1 <= n -> n + Z.of_nat (length g) <= INT_MAX ->
  exists root rest,
    round g ri = Continue (root :: rest)
    /\ (2 <= Var.pi (vars root))%Q /\ (Var.pi (vars root) <= 4)%Q.
Proof.
  intros Hwf Ht Hn Hmax.
  destruct (exact_round_total g ri n Hwf Ht Hn Hmax) as (root & rest & Hr & Hpi).
  exists root, rest. split; [exact Hr|].
  destruct (sequential_total_bounds n Hn) as (Hlo & Hhi).
  rewrite Hpi. auto.
Qed.

Lemma exact_total_between_2_and_4_witness :
  (wf_group (launch 4 stale_exact) /\ typed (exact_input (Some 10)) = Some 10
   /\ 1 <= 10 /\ 10 + Z.of_nat (length (launch 4 stale_exact)) <= INT_MAX)
  /\ exists root rest,
       round (launch 4 stale_exact) (exact_input (Some 10)) = Continue (root :: rest)
       /\ (2 <= Var.pi (vars root))%Q /\ (Var.pi (vars root) <= 4)%Q.
Proof.
  assert (H : wf_group (launch 4 stale_exact) /\ typed (exact_input (Some 10)) = Some 10
              /\ 1 <= 10 /\ 10 + Z.of_nat (length (launch 4 stale_exact)) <= INT_MAX).
  { split; [apply launch_wf; lia|]. split; [reflexivity|]. split; [lia|].
    vm_compute. discriminate. }
  split; [exact H|].
  apply (exact_total_between_2_and_4 (launch 4 stale_exact) (exact_input (Some 10)) 10);
    apply H.
Defined.

(** * What a negative input reports *)

(** 1.0 divided by a number of magnitude at least 1 is finite and has the
    sign of the divisor. *)
Lemma SFdiv_one_signed (s : bool) (m : positive) (e : Z) :
  valid_binary (S754_finite s m e) = true -> -52 <= e <= 0 ->
  match SF64div (S754_finite false 4503599627370496 (-52)) (S754_finite s m e) with
  | S754_zero s' | S754_finite s' _ _ => s' = s
  | _ => False
  end.
Proof.
  intros V He. apply valid_finite, canonical_mantissa_digits in V as (_ & _ & [Hd|Hd]);
    [|lia].
  unfold SF64div, SFdiv, SFdiv_core_binary. cbn [xorb Zdigits2].
  rewrite Hd. change (Z.pos (digits2_pos 4503599627370496)) with 53.
  set (e' := Z.min (fexp prec emax (53 + -52 - (53 + e))) (-52 - e)).
  assert (He' : -105 - e <= e' <= -52 - e /\ -1200 <= e')
    by (subst e'; unfold fexp, SpecFloat.emin, prec, emax; lia).
  set (m' := match -52 - e - e' with
             | 0 => 4503599627370496
             | Z.pos _ => Z.shiftl 4503599627370496 (-52 - e - e')
             | Z.neg _ => 0
             end).
  assert (Hm' : 0 <= m' <= 2 ^ 105).
  { subst m'. destruct (-52 - e - e') as [|k|k] eqn:Ek.
    - change (2 ^ 105) with 40564819207303340847894502572032. lia.
    - rewrite Z.shiftl_mul_pow2 by lia.
      assert (0 < 2 ^ Z.pos k) by (apply Z.pow_pos_nonneg; lia).
      assert (2 ^ Z.pos k <= 2 ^ 53) by (apply Z.pow_le_mono_r; lia).
      change (2 ^ 105) with (4503599627370496 * 2 ^ 53). nia.
    - change (2 ^ 105) with 40564819207303340847894502572032. lia. }
  pose proof (Z_div_mod m' (Z.pos m) ltac:(lia)) as Hdiv.
  destruct (Z.div_eucl m' (Z.pos m)) as [q r]. destruct Hdiv as (Eq & Hr).
  apply binary_round_aux_finite; [|lia].
  assert (0 <= q <= m') by nia.
  assert (2 ^ 105 < 2 ^ 200) by (apply Z.pow_lt_mono_r; lia).
  lia.
Qed.

(** The parts of the double of a negative [int]. *)
Lemma double_of_int_exact_parts (n : Z) :
  INT_MIN <= n < 0 ->
  exists m e,
    Prim2SF (float_of_int n) = S754_finite true m e
    /\ e <= 0 /\ Z.pos m = Z.abs n * 2 ^ (- e).
Proof.
  intros Hn. unfold float_of_int. destruct n as [|p|p]; try lia.
  cbn [Z.ltb Z.compare Z.opp]. rewrite FloatAxioms.opp_spec.
  destruct (of_uint63_exact p) as (m & e & -> & He & Hm).
  { unfold INT_MIN in Hn. lia. }
  exists m, e. cbn [SFopp negb Z.abs]. auto.
Qed.

(** For every negative [int] n, [(1.0 / (double) n) * 0.0] is [-0.0]. *)
Lemma step_width_times_zero_negative (n : Z) :
  INT_MIN <= n < 0 -> (1 / float_of_int n * 0)%float = (-0)%float.
Proof.
  intros Hn. apply Prim2SF_inj.
  rewrite FloatAxioms.mul_spec, FloatAxioms.div_spec.
  destruct (double_of_int_exact_parts n) as (m & e & E & He & Hm); [exact Hn|].
  pose proof (Prim2SF_valid (float_of_int n)) as V. rewrite E in V |- *.
  assert (He2 : -52 <= e).
  { pose proof (valid_finite _ _ _ V) as C.
    apply canonical_mantissa_digits in C as (Hd & _ & _).
    pose proof (digits2_pos_bounds m) as (_ & Hhi).
    assert (2 ^ Z.pos (digits2_pos m) <= 2 ^ 53) by (apply Z.pow_le_mono_r; lia).
    destruct (Z_le_gt_dec (-52) e) as [|Hgt]; [assumption|].
    assert (2 ^ 53 <= 2 ^ (- e)) by (apply Z.pow_le_mono_r; lia).
    assert (1 <= Z.abs n) by lia. nia. }
  change (Prim2SF 1) with (S754_finite false 4503599627370496 (-52)).
  change (Prim2SF 0) with (S754_zero false).
  change (Prim2SF (-0)) with (S754_zero true).
  pose proof (SFdiv_one_signed true m e V ltac:(lia)) as H.
  destruct (SF64div _ _) as [s|s| |s mq eq']; try contradiction; subst s; reflexivity.
Qed.

Lemma round_negative {D : Type} {ops : DoubleOps D}
  (g : list (proc D)) (ri : round_input D) :
  wf_group g -> broadcast_value g ri < 0 ->
  round g ri
  = Continue (map (round_done ri (broadcast_value g ri)
                     (reduce_sum (partials (broadcast_value g ri) g))) g)
  /\ partials (broadcast_value g ri) g
     = map (fun _ => d_mul (step_width (broadcast_value g ri)) d_zero) g.
Proof.
  intros Hwf Hneg. set (v := broadcast_value g ri) in *.
  pose proof (wf_group_nonempty g Hwf) as Hne.
  assert (Hown : forall p, In p g ->
                   owned v (Var.myid (vars p)) (Var.numprocs (vars p)) = Done []).
  { intros p Hp. apply owned_nothing.
    destruct (wf_group_rank g p Hwf Hp) as (Hr & _). lia. }
  split.
  - rewrite round_step by (try assumption; fold v; lia). fold v.
    destruct (proj2 (all_done_Done_iff
                       (fun p => owned v (Var.myid (vars p)) (Var.numprocs (vars p))) g))
      as (idxs & ->); [|reflexivity].
    apply Forall_forall. intros p Hp. exists []. now apply Hown.
  - unfold partials. apply map_ext_in. intros p Hp.
    unfold share_of. now rewrite (Hown p Hp).
Qed.

Lemma reduce_sum_minus_zeros (l : list float) :
  l <> [] -> Forall (fun a => a = (-0)%float) l -> reduce_sum l = (-0)%float.
Proof.
  intros Hne Hall. destruct l as [|a l]; [contradiction|].
  inversion Hall as [|? ? -> Hl]; subst. cbn [reduce_sum].
  clear Hall Hne. induction Hl as [|b l -> _ IH]; [reflexivity|].
  cbn [fold_left d_add binary64].
  change (PrimFloat.add (-0) (-0)) with (-0)%float. exact IH.
Qed.

(** X12: what the program prints for a negative number of intervals: the
    round completes, the partial result [mypi] of every rank is -0.0, and
    rank 0 receives pi = -0.0 and reports it with the error
    fabs(-0.0 - M_PI) = M_PI. *)
Theorem negative_input_reports_minus_zero
  (g : list (proc float)) (ri : round_input float) (v : Z) :
  wf_group g -> typed ri = Some v -> INT_MIN <= v < 0 ->
  exists root rest before,
    round g ri = Continue (root :: rest)
    /\ Forall (fun p => Var.mypi (vars p) = (-0)%float) (root :: rest)
    /\ Var.pi (vars root) = (-0)%float
    /\ log root
       = before ++ [EvReport (PrimFloat.sub (wtime1 ri 0) (wtime0 ri 0))
                      (-0)%float d_M_PI].
Proof.
  intros Hwf Ht Hv.
  assert (Hb : broadcast_value g ri = v) by (now rewrite broadcast_value_typed, Ht).
  destruct (round_negative g ri Hwf ltac:(lia)) as (Hr & Hpart).
  rewrite Hb in Hr, Hpart.
  assert (Hmypi : Forall (fun p => Var.mypi (vars p) = (-0)%float)
                    (map (round_done ri v (reduce_sum (partials v g))) g)).
  { apply Forall_map. apply Forall_forall. intros p Hp.
    rewrite round_done_vars. cbn [Var.mypi]. unfold share_of.
    rewrite owned_nothing by (destruct (wf_group_rank g p Hwf Hp) as (Hrk & _); lia).
    apply step_width_times_zero_negative. exact Hv. }
  assert (Htotal : reduce_sum (partials v g) = (-0)%float).
  { apply reduce_sum_minus_zeros.
    - rewrite Hpart. pose proof (wf_group_nonempty g Hwf). destruct g; [contradiction|discriminate].
    - rewrite Hpart. apply Forall_map. apply Forall_forall. intros p _.
      now apply step_width_times_zero_negative. }
  rewrite Htotal in Hr, Hmypi.
  destruct (wf_group_root g Hwf) as (p0 & g0 & Eg & Hroot).
  assert (Hmap : forall f : proc float -> proc float, map f g = f p0 :: map f g0)
    by (intros f; rewrite Eg; reflexivity).
  rewrite Hmap in Hr, Hmypi.
  eexists. eexists. eexists. split; [exact Hr|]. split; [exact Hmypi|].
  rewrite round_done_vars, round_done_log. unfold round_events.
  rewrite Hroot. cbn [Z.eqb Var.pi]. split; [reflexivity|].
  rewrite !app_assoc. reflexivity.
Qed.

Lemma negative_input_reports_minus_zero_witness :
  (wf_group (launch 3 stale_locals)
   /\ typed (typed_input (Some (-5))) = Some (-5) /\ INT_MIN <= -5 < 0)
  /\ exists root rest before,
       round (launch 3 stale_locals) (typed_input (Some (-5))) = Continue (root :: rest)
       /\ Forall (fun p => Var.mypi (vars p) = (-0)%float) (root :: rest)
       /\ Var.pi (vars root) = (-0)%float
       /\ log root
          = before ++ [EvReport (PrimFloat.sub (wtime1 (typed_input (Some (-5))) 0)
                                   (wtime0 (typed_input (Some (-5))) 0))
                         (-0)%float d_M_PI].
Proof.
  assert (H : wf_group (launch 3 stale_locals)
              /\ typed (typed_input (Some (-5))) = Some (-5) /\ INT_MIN <= -5 < 0).
  { split; [apply launch_wf; lia|]. split; [reflexivity|unfold INT_MIN; lia]. }
  split; [exact H|].
  apply (negative_input_reports_minus_zero (launch 3 stale_locals)
           (typed_input (Some (-5))) (-5)); apply H.
Defined.

(** * The reduction in the program's doubles *)

(** ** The value of a double *)

(** The rational m * 2^e that a mantissa and an exponent stand for. *)
Definition F2Q (m e : Z) : Q := (inject_Z m * 2 ^ e)%Q.

Lemma two_pow_pos (e : Z) : (0 < 2 ^ e)%Q.
Proof. apply Qpower_0_lt. reflexivity. Qed.

Lemma F2Q_shift (m e k : Z) : 0 <= k -> (F2Q (m * 2 ^ k) e == F2Q m (e + k))%Q.
Proof.
  intros Hk. unfold F2Q. rewrite inject_Z_mult, Zpower_Qpower by assumption.
  rewrite Qpower_plus by discriminate. change (inject_Z 2) with 2%Q. ring.
Qed.

Lemma F2Q_le (m m' e : Z) : m <= m' -> (F2Q m e <= F2Q m' e)%Q.
Proof.
  intros H. unfold F2Q. apply Qmult_le_compat_r.
  - now rewrite <- Zle_Qle.
  - apply Qlt_le_weak, two_pow_pos.
Qed.

Lemma F2Q_succ (m e : Z) : (F2Q (m + 1) e == F2Q m e + 2 ^ e)%Q.
Proof. unfold F2Q. rewrite inject_Z_plus. change (inject_Z 1) with 1%Q. ring. Qed.

Lemma shr_1_div mrs : 0 <= shr_m mrs -> shr_m (shr_1 mrs) = shr_m mrs / 2.
Proof.
  destruct mrs as [m r s]. cbn [shr_m]. intros H.
  rewrite <- Z.div2_div.
  destruct m as [|p|p]; [reflexivity| |lia].
  destruct p; reflexivity.
Qed.

Lemma iter_shr_1_div (k : positive) : forall mrs,
  0 <= shr_m mrs ->
  shr_m (SpecFloat.iter_pos shr_1 k mrs) = shr_m mrs / 2 ^ Z.pos k.
Proof.
  induction k as [k IH|k IH|]; intros mrs H; cbn [SpecFloat.iter_pos].
  - rewrite IH, IH, shr_1_div; try assumption.
    + rewrite !Z.div_div by lia. f_equal.
      rewrite (Pos2Z.inj_xI k), Z.pow_add_r, Z.pow_mul_r by lia.
      change (2 ^ 2) with 4. change (2 ^ 1) with 2.
      replace (4 ^ Z.pos k) with (2 ^ Z.pos k * 2 ^ Z.pos k).
      * ring.
      * rewrite <- Z.pow_mul_l. reflexivity.
    + now apply shr_1_nonneg.
    + apply (iter_pos_invariant (fun r => 0 <= shr_m r)); [apply shr_1_nonneg|].
      now apply shr_1_nonneg.
  - rewrite IH, IH; try assumption.
    + rewrite !Z.div_div by lia. f_equal.
      rewrite (Pos2Z.inj_xO k), Z.pow_mul_r by lia.
      change (2 ^ 2) with 4.
      rewrite <- Z.pow_mul_l. reflexivity.
    + apply (iter_pos_invariant (fun r => 0 <= shr_m r)); [apply shr_1_nonneg|assumption].
  - rewrite shr_1_div by assumption. reflexivity.
Qed.

Lemma shr_div mrs e n :
  0 <= shr_m mrs ->
  shr_m (fst (shr mrs e n)) = shr_m mrs / 2 ^ Z.max 0 n.
Proof.
  intros H. unfold shr. destruct n as [|p|p]; cbn [fst].
  - cbn. now rewrite Z.div_1_r.
  - rewrite iter_shr_1_div by assumption. f_equal.
  - cbn. now rewrite Z.div_1_r.
Qed.

Lemma round_nearest_even_ge m l : m <= round_nearest_even m l.
Proof.
  unfold round_nearest_even. destruct l as [|[| |]]; try lia.
  destruct (Z.even m); lia.
Qed.

(** The relative error allowed to one rounding, 2^-52: twice the unit
    roundoff of binary64, so that the direction of the rounding does not
    matter. *)
Definition u52 : Q := (1 # 4503599627370496)%Q.

Lemma Zdigits2_bounds m : 0 < m -> 2 ^ (Zdigits2 m - 1) <= m < 2 ^ Zdigits2 m.
Proof. destruct m as [|p|p]; cbn [Zdigits2]; try lia. intros _. apply digits2_pos_bounds. Qed.

Lemma Zdigits2_unique (m k : Z) : 2 ^ (k - 1) <= m < 2 ^ k -> 1 <= k -> Zdigits2 m = k.
Proof.
  intros H Hk. destruct m as [|p|p]; cbn [Zdigits2].
  - assert (0 < 2 ^ (k - 1)) by (apply Z.pow_pos_nonneg; lia). lia.
  - now apply digits2_pos_unique.
  - assert (0 < 2 ^ (k - 1)) by (apply Z.pow_pos_nonneg; lia). lia.
Qed.

Lemma shr_fexp_div m e l :
  0 <= m ->
  shr_m (fst (shr_fexp prec emax m e l))
  = m / 2 ^ Z.max 0 (fexp prec emax (Zdigits2 m + e) - e).
Proof.
  intros H. unfold shr_fexp. rewrite shr_div.
  - f_equal. destruct l as [|[| |]]; reflexivity.
  - destruct l as [|[| |]]; exact H.
Qed.

(** Rounding to 53 bits a mantissa of at least 53 bits, with whatever
    was cut off before: the result is within a factor 1 +- 2^-52 of any
    number between m * 2^e and (m + 1) * 2^e. *)
Lemma binary_round_aux_accurate s m e l (rho : Q) :
  2 ^ 52 <= m -> -1074 <= e -> Zdigits2 m + e <= 1023 ->
  (F2Q m e <= rho)%Q -> (rho <= F2Q (m + 1) e)%Q ->
  exists m2 e2,
    binary_round_aux prec emax s m e l = S754_finite s m2 e2
    /\ 2 ^ 52 <= Z.pos m2 < 2 ^ 53
    /\ ((1 - u52) * rho <= F2Q (Z.pos m2) e2)%Q
    /\ (F2Q (Z.pos m2) e2 <= (1 + u52) * rho)%Q.
Proof.
  intros Hm He Hmax Hlo Hhi.
  assert (Hpos : 0 < m) by (change (2 ^ 52) with 4503599627370496 in Hm; lia).
  pose proof (Zdigits2_bounds m Hpos) as (Dlo & Dhi).
  set (d := Zdigits2 m) in *.
  assert (Hd : 53 <= d).
  { destruct (Z_le_gt_dec 53 d) as [|Hgt]; [assumption|].
    assert (2 ^ d <= 2 ^ 52) by (apply Z.pow_le_mono_r; lia). lia. }
  set (k := d - 53). assert (Hk : 0 <= k) by lia.
  set (P := 2 ^ k). assert (HP : 0 < P) by (apply Z.pow_pos_nonneg; lia).
  assert (E52 : 2 ^ (d - 1) = 2 ^ 52 * P).
  { unfold P. rewrite <- Z.pow_add_r by lia. f_equal. lia. }
  assert (E53 : 2 ^ d = 2 ^ 53 * P).
  { unfold P. rewrite <- Z.pow_add_r by lia. f_equal. lia. }
  set (m' := m / P).
  assert (Hdiv : m' * P <= m < (m' + 1) * P).
  { pose proof (Z.div_mod m P ltac:(lia)) as Hdm.
    pose proof (Z.mod_pos_bound m P HP) as Hmod. fold m' in Hdm. lia. }
  assert (Hm' : 2 ^ 52 <= m' < 2 ^ 53).
  { split.
    - apply Z.div_le_lower_bound; lia.
    - apply Z.div_lt_upper_bound; lia. }
  unfold binary_round_aux.
  pose proof (shr_fexp_div m e l ltac:(lia)) as F1.
  destruct (shr_fexp_spec m e l ltac:(lia)) as (_ & S1).
  destruct (shr_fexp prec emax m e l) as [mrs' e']. cbn [fst snd] in F1, S1.
  fold d in F1, S1.
  replace (Z.max 0 (fexp prec emax (d + e) - e)) with k in F1
    by (unfold fexp, SpecFloat.emin, prec, emax, k; lia).
  fold P in F1. fold m' in F1.
  assert (Ee' : e' = e + k) by (unfold k; lia). clear S1.
  set (m1 := round_nearest_even (shr_m mrs') (loc_of_shr_record mrs')).
  assert (Hm1 : m' <= m1 <= m' + 1).
  { unfold m1. rewrite F1. split; [apply round_nearest_even_ge|apply round_nearest_even_le]. }
  pose proof (shr_fexp_div m1 e' loc_Exact ltac:(lia)) as F2.
  destruct (shr_fexp_spec m1 e' loc_Exact ltac:(lia)) as (_ & S2).
  destruct (shr_fexp prec emax m1 e' loc_Exact) as [mrs'' e'']. cbn [fst snd] in F2, S2.
  assert (HA : (F2Q m' e' <= rho)%Q).
  { eapply Qle_trans; [|exact Hlo]. rewrite Ee', <- F2Q_shift by assumption.
    apply F2Q_le. fold P. lia. }
  assert (HB : (rho <= F2Q m' e' + 2 ^ e')%Q).
  { eapply Qle_trans; [exact Hhi|]. rewrite <- F2Q_succ, Ee', <- F2Q_shift by assumption.
    apply F2Q_le. fold P. lia. }
  assert (HE : (2 ^ e' <= u52 * F2Q m' e')%Q).
  { unfold F2Q, u52. pose proof (two_pow_pos e') as He'.
    assert (Hq : (inject_Z (2 ^ 52) <= inject_Z m')%Q) by (rewrite <- Zle_Qle; lia).
    change (inject_Z (2 ^ 52)) with (4503599627370496 # 1)%Q in Hq.
    nra. }
  assert (Hv : (F2Q m' e' <= F2Q m1 e')%Q /\ (F2Q m1 e' <= F2Q m' e' + 2 ^ e')%Q).
  { split; [apply F2Q_le; lia|]. rewrite <- F2Q_succ. apply F2Q_le. lia. }
  assert (Hfin : exists m2 e2, shr_m mrs'' = Z.pos m2 /\ e'' = e2
                   /\ 2 ^ 52 <= Z.pos m2 < 2 ^ 53 /\ e2 <= 971
                   /\ (F2Q (Z.pos m2) e2 == F2Q m1 e')%Q).
  { destruct (Z_lt_ge_dec m1 (2 ^ 53)) as [Hlt|Hge].
    - assert (D1 : Zdigits2 m1 = 53) by (apply Zdigits2_unique; [change (53 - 1) with 52|]; lia).
      rewrite D1 in F2, S2.
      replace (Z.max 0 (fexp prec emax (53 + e') - e')) with 0 in F2
        by (unfold fexp, SpecFloat.emin, prec, emax; lia).
      rewrite Z.div_1_r in F2.
      destruct m1 as [|p1|p1]; try (change (2 ^ 52) with 4503599627370496 in *; lia).
      exists p1, e''. split; [assumption|]. split; [reflexivity|].
      split; [lia|]. split; [lia|].
      replace e'' with e' by lia. reflexivity.
    - assert (E1 : m1 = 2 ^ 53) by lia.
      assert (D1 : Zdigits2 m1 = 54) by (rewrite E1; reflexivity).
      rewrite D1 in F2, S2.
      replace (Z.max 0 (fexp prec emax (54 + e') - e')) with 1 in F2
        by (unfold fexp, SpecFloat.emin, prec, emax; lia).
      rewrite E1 in F2. change (2 ^ 53 / 2 ^ 1) with (Z.pos 4503599627370496) in F2.
      exists 4503599627370496%positive, e''. split; [assumption|]. split; [reflexivity|].
      split; [change (2 ^ 52) with 4503599627370496; change (2 ^ 53) with 9007199254740992; lia|].
      split; [lia|].
      replace e'' with (e' + 1) by lia. rewrite <- F2Q_shift by lia.
      rewrite E1. reflexivity. }
  destruct Hfin as (m2 & e2 & -> & -> & Hm2 & He2 & Hval).
  exists m2, e2.
  assert (Hle : (e2 <=? emax - prec) = true) by (apply Z.leb_le; unfold emax, prec; lia).
  rewrite Hle. split; [reflexivity|]. split; [assumption|].
  rewrite Hval. destruct Hv as (Hv1 & Hv2). unfold u52 in *. split; lra.
Qed.

Lemma F2Q_mul (m1 e1 m2 e2 : Z) :
  (F2Q (m1 * m2) (e1 + e2) == F2Q m1 e1 * F2Q m2 e2)%Q.
Proof.
  unfold F2Q. rewrite inject_Z_mult, Qpower_plus by discriminate. ring.
Qed.

Lemma F2Q_add (m1 m2 e : Z) : (F2Q (m1 + m2) e == F2Q m1 e + F2Q m2 e)%Q.
Proof. unfold F2Q. rewrite inject_Z_plus. ring. Qed.

Lemma F2Q_pos (m e : Z) : 0 < m -> (0 < F2Q m e)%Q.
Proof.
  intros H. unfold F2Q. apply Qmult_lt_0_compat; [|apply two_pow_pos].
  change 0%Q with (inject_Z 0). now rewrite <- Zlt_Qlt.
Qed.

(** The product of two normal positive doubles. *)
Lemma SFmul_accurate (mx my : positive) (ex ey : Z) :
  2 ^ 52 <= Z.pos mx < 2 ^ 53 -> 2 ^ 52 <= Z.pos my < 2 ^ 53 ->
  -400 <= ex <= 400 -> -400 <= ey <= 400 ->
  exists m e,
    SF64mul (S754_finite false mx ex) (S754_finite false my ey) = S754_finite false m e
    /\ 2 ^ 52 <= Z.pos m < 2 ^ 53
    /\ ((1 - u52) * (F2Q (Z.pos mx) ex * F2Q (Z.pos my) ey) <= F2Q (Z.pos m) e)%Q
    /\ (F2Q (Z.pos m) e <= (1 + u52) * (F2Q (Z.pos mx) ex * F2Q (Z.pos my) ey))%Q.
Proof.
  intros Hx Hy Hex Hey. unfold SF64mul, SFmul. cbn [xorb].
  change (2 ^ 52) with 4503599627370496 in *.
  change (2 ^ 53) with 9007199254740992 in *.
  assert (Hd : Zdigits2 (Z.pos (mx * my)) <= 106).
  { apply Zdigits2_le; [lia|]. rewrite Pos2Z.inj_mul.
    change (2 ^ 106) with (9007199254740992 * 9007199254740992). nia. }
  apply binary_round_aux_accurate.
  - rewrite Pos2Z.inj_mul. change (2 ^ 52) with 4503599627370496. nia.
  - lia.
  - lia.
  - rewrite Pos2Z.inj_mul, F2Q_mul. apply Qle_refl.
  - rewrite F2Q_succ, Pos2Z.inj_mul, F2Q_mul.
    pose proof (two_pow_pos (ex + ey)). lra.
Qed.

(** Normalizing a mantissa of at least 53 bits. *)
Lemma binary_normalize_accurate (M ez : Z) :
  2 ^ 52 <= M -> -1074 <= ez -> Zdigits2 M + ez <= 1023 ->
  exists m e,
    binary_normalize prec emax M ez false = S754_finite false m e
    /\ 2 ^ 52 <= Z.pos m < 2 ^ 53
    /\ ((1 - u52) * F2Q M ez <= F2Q (Z.pos m) e)%Q
    /\ (F2Q (Z.pos m) e <= (1 + u52) * F2Q M ez)%Q.
Proof.
  intros HM Hez Hmax.
  destruct M as [|p|p]; try (change (2 ^ 52) with 4503599627370496 in HM; lia).
  cbn [binary_normalize]. unfold binary_round.
  pose proof (Zdigits2_bounds (Z.pos p) ltac:(lia)) as (Dlo & Dhi).
  cbn [Zdigits2] in Dlo, Dhi, Hmax.
  assert (Hd : 53 <= Z.pos (digits2_pos p)).
  { destruct (Z_le_gt_dec 53 (Z.pos (digits2_pos p))) as [|Hgt]; [assumption|].
    assert (2 ^ Z.pos (digits2_pos p) <= 2 ^ 52) by (apply Z.pow_le_mono_r; lia). lia. }
  assert (Hsh : shl_align p ez (fexp prec emax (Z.pos (digits2_pos p) + ez)) = (p, ez)).
  { unfold shl_align.
    destruct (fexp prec emax (Z.pos (digits2_pos p) + ez) - ez) as [|k|k] eqn:E;
      try reflexivity.
    unfold fexp, SpecFloat.emin, prec, emax in E. lia. }
  rewrite Hsh. apply binary_round_aux_accurate; try assumption.
  - apply Qle_refl.
  - rewrite F2Q_succ. pose proof (two_pow_pos ez). lra.
Qed.

(** The sum of two normal positive doubles. *)
Lemma SFadd_accurate (mx my : positive) (ex ey : Z) :
  2 ^ 52 <= Z.pos mx < 2 ^ 53 -> 2 ^ 52 <= Z.pos my < 2 ^ 53 ->
  -400 <= ex <= 400 -> -400 <= ey <= 400 ->
  exists m e,
    SF64add (S754_finite false mx ex) (S754_finite false my ey) = S754_finite false m e
    /\ 2 ^ 52 <= Z.pos m < 2 ^ 53
    /\ ((1 - u52) * (F2Q (Z.pos mx) ex + F2Q (Z.pos my) ey) <= F2Q (Z.pos m) e)%Q
    /\ (F2Q (Z.pos m) e <= (1 + u52) * (F2Q (Z.pos mx) ex + F2Q (Z.pos my) ey))%Q.
Proof.
  intros Hx Hy Hex Hey. unfold SF64add, SFadd. cbn [cond_Zopp].
  set (ez := Z.min ex ey).
  rewrite !shl_align_value by (unfold ez; lia).
  set (M := Z.pos mx * 2 ^ (ex - ez) + Z.pos my * 2 ^ (ey - ez)).
  assert (Hval : (F2Q M ez == F2Q (Z.pos mx) ex + F2Q (Z.pos my) ey)%Q).
  { unfold M. rewrite F2Q_add, !F2Q_shift by (unfold ez; lia).
    replace (ez + (ex - ez)) with ex by lia. replace (ez + (ey - ez)) with ey by lia.
    reflexivity. }
  assert (Px : 0 < 2 ^ (ex - ez)) by (apply Z.pow_pos_nonneg; unfold ez; lia).
  assert (Py : 0 < 2 ^ (ey - ez)) by (apply Z.pow_pos_nonneg; unfold ez; lia).
  set (top := Z.max ex ey - ez).
  assert (Tx : 2 ^ (ex - ez) <= 2 ^ top) by (apply Z.pow_le_mono_r; unfold top, ez; lia).
  assert (Ty : 2 ^ (ey - ez) <= 2 ^ top) by (apply Z.pow_le_mono_r; unfold top, ez; lia).
  assert (Hone : 2 ^ (ex - ez) = 1 \/ 2 ^ (ey - ez) = 1).
  { destruct (Z.le_ge_cases ex ey).
    - left. replace (ex - ez) with 0 by (unfold ez; lia). reflexivity.
    - right. replace (ey - ez) with 0 by (unfold ez; lia). reflexivity. }
  destruct (binary_normalize_accurate M ez) as (m & e & E & Hm & H1 & H2).
  - unfold M. nia.
  - unfold ez. lia.
  - assert (Zdigits2 M <= 54 + top); [|unfold top, ez in *; lia].
    apply Zdigits2_le; [unfold top, ez; lia|].
    rewrite Z.pow_add_r by (unfold top, ez; lia).
    change (2 ^ 54) with (2 * 2 ^ 53). unfold M. split; nia.
  - exists m, e. rewrite <- Hval. auto.
Qed.

(** The quotient of two normal positive doubles. *)
Lemma SFdiv_accurate (mx my : positive) (ex ey : Z) :
  2 ^ 52 <= Z.pos mx < 2 ^ 53 -> 2 ^ 52 <= Z.pos my < 2 ^ 53 ->
  -400 <= ex <= 400 -> -400 <= ey <= 400 ->
  exists m e,
    SF64div (S754_finite false mx ex) (S754_finite false my ey) = S754_finite false m e
    /\ 2 ^ 52 <= Z.pos m < 2 ^ 53
    /\ ((1 - u52) * (F2Q (Z.pos mx) ex / F2Q (Z.pos my) ey) <= F2Q (Z.pos m) e)%Q
    /\ (F2Q (Z.pos m) e <= (1 + u52) * (F2Q (Z.pos mx) ex / F2Q (Z.pos my) ey))%Q.
Proof.
  intros Hx Hy Hex Hey. unfold SF64div, SFdiv, SFdiv_core_binary. cbn [xorb].
  rewrite (Zdigits2_unique (Z.pos mx) 53), (Zdigits2_unique (Z.pos my) 53)
    by (try lia; assumption).
  set (e' := Z.min (fexp prec emax (53 + ex - (53 + ey))) (ex - ey)).
  assert (He' : e' = ex - ey - 53)
    by (unfold e', fexp, SpecFloat.emin, prec, emax; lia).
  replace (ex - ey - e') with 53 by lia.
  rewrite Z.shiftl_mul_pow2 by lia.
  change (2 ^ 52) with 4503599627370496 in *.
  change (2 ^ 53) with 9007199254740992 in *.
  pose proof (Z_div_mod (Z.pos mx * 9007199254740992) (Z.pos my) ltac:(lia)) as Hdiv.
  destruct (Z.div_eucl (Z.pos mx * 9007199254740992) (Z.pos my)) as [q r].
  destruct Hdiv as (Eq & Hr).
  assert (Hq : 4503599627370496 <= q < 18014398509481984) by nia.
  pose proof (F2Q_pos (Z.pos my) ey ltac:(lia)) as Py.
  assert (Hmx : (F2Q (Z.pos mx) ex == F2Q (Z.pos mx * 2 ^ 53) (ex - 53))%Q).
  { rewrite F2Q_shift by lia. replace (ex - 53 + 53) with ex by lia. reflexivity. }
  apply binary_round_aux_accurate.
  - change (2 ^ 52) with 4503599627370496. lia.
  - lia.
  - assert (Zdigits2 q <= 54)
      by (apply Zdigits2_le; [lia|change (2 ^ 54) with 18014398509481984; lia]).
    lia.
  - apply Qle_shift_div_l; [assumption|].
    rewrite <- F2Q_mul, Hmx. replace (e' + ey) with (ex - 53) by lia.
    apply F2Q_le. change (2 ^ 53) with 9007199254740992. nia.
  - apply Qle_shift_div_r; [assumption|].
    rewrite <- F2Q_mul, Hmx. replace (e' + ey) with (ex - 53) by lia.
    apply F2Q_le. change (2 ^ 53) with 9007199254740992. nia.
Qed.

Lemma F2Q_lt (m m' e : Z) : m < m' -> (F2Q m e < F2Q m' e)%Q.
Proof.
  intros H. unfold F2Q. apply Qmult_lt_compat_r; [apply two_pow_pos|].
  now rewrite <- Zlt_Qlt.
Qed.

Lemma F2Q_pow2 (k e : Z) : 0 <= k -> (F2Q (2 ^ k) e == 2 ^ (e + k))%Q.
Proof.
  intros Hk. rewrite <- (Z.mul_1_l (2 ^ k)), F2Q_shift by assumption.
  unfold F2Q. change (inject_Z 1) with 1%Q. ring.
Qed.

(** The exponent of a full mantissa, from the size of the value. *)
Lemma exp_range (m e lo hi : Z) :
  2 ^ 52 <= m < 2 ^ 53 -> (2 ^ lo <= F2Q m e)%Q -> (F2Q m e <= 2 ^ hi)%Q ->
  lo - 53 < e <= hi - 52.
Proof.
  intros Hm Hlo Hhi. split.
  - assert (H : (2 ^ lo < 2 ^ (e + 53))%Q).
    { eapply Qle_lt_trans; [exact Hlo|]. rewrite <- F2Q_pow2 by lia.
      apply F2Q_lt. lia. }
    apply Qpower_lt_compat_l_inv in H; [lia|reflexivity].
  - assert (H : (2 ^ (e + 52) <= 2 ^ hi)%Q).
    { eapply Qle_trans; [|exact Hhi]. rewrite <- F2Q_pow2 by lia.
      apply F2Q_le. lia. }
    apply Qpower_le_compat_l_inv in H; [lia|reflexivity].
Qed.

(** ** Doubles as rationals *)

(** The number a finite [spec_float] stands for. *)
Definition SF2Q (x : spec_float) : Q :=
  match x with
  | S754_finite s m e => F2Q (cond_Zopp s (Z.pos m)) e
  | _ => 0%Q
  end.

(** The number a double stands for (0 for infinities and NaN). *)
Definition float_value (f : float) : Q := SF2Q (Prim2SF f).

(** A positive double with a full mantissa and a moderate exponent. *)
Definition normal (f : float) : Prop :=
  exists m e, Prim2SF f = S754_finite false m e
              /\ 2 ^ 52 <= Z.pos m < 2 ^ 53 /\ -400 <= e <= 400.

Lemma normal_of_bounds (f : float) (m : positive) (e : Z) (rho : Q) :
  Prim2SF f = S754_finite false m e -> 2 ^ 52 <= Z.pos m < 2 ^ 53 ->
  ((1 - u52) * rho <= F2Q (Z.pos m) e)%Q -> (F2Q (Z.pos m) e <= (1 + u52) * rho)%Q ->
  (2 ^ (-300) <= rho)%Q -> (rho <= 2 ^ 300)%Q ->
  normal f
  /\ ((1 - u52) * rho <= float_value f)%Q /\ (float_value f <= (1 + u52) * rho)%Q.
Proof.
  intros E Hm H1 H2 Hlo Hhi. split.
  - exists m, e. split; [exact E|]. split; [exact Hm|].
    assert (A : (2 ^ (-301) <= F2Q (Z.pos m) e)%Q).
    { eapply Qle_trans; [|exact H1].
      assert (E2 : (2 ^ (-300) == 2 * 2 ^ (-301))%Q) by reflexivity.
      pose proof (two_pow_pos (-301)). unfold u52. rewrite E2 in Hlo. nra. }
    assert (B : (F2Q (Z.pos m) e <= 2 ^ 301)%Q).
    { eapply Qle_trans; [exact H2|].
      assert (E2 : (2 ^ 301 == 2 * 2 ^ 300)%Q) by reflexivity.
      pose proof (two_pow_pos 300). unfold u52. rewrite E2. nra. }
    pose proof (exp_range _ _ _ _ Hm A B). lia.
  - unfold float_value. rewrite E. cbn [SF2Q cond_Zopp]. auto.
Qed.

Lemma normal_value (f : float) :
  normal f ->
  exists m e, Prim2SF f = S754_finite false m e
              /\ 2 ^ 52 <= Z.pos m < 2 ^ 53 /\ -400 <= e <= 400
              /\ float_value f = F2Q (Z.pos m) e.
Proof.
  intros (m & e & E & Hm & He). exists m, e. repeat split; try assumption; try lia.
  unfold float_value. now rewrite E.
Qed.

Lemma mul_accurate (f1 f2 : float) :
  normal f1 -> normal f2 ->
  (2 ^ (-300) <= float_value f1 * float_value f2)%Q ->
  (float_value f1 * float_value f2 <= 2 ^ 300)%Q ->
  normal (f1 * f2)
  /\ ((1 - u52) * (float_value f1 * float_value f2) <= float_value (f1 * f2))%Q
  /\ (float_value (f1 * f2) <= (1 + u52) * (float_value f1 * float_value f2))%Q.
Proof.
  intros N1 N2 Hlo Hhi.
  destruct (normal_value f1 N1) as (m1 & e1 & E1 & Hm1 & He1 & V1).
  destruct (normal_value f2 N2) as (m2 & e2 & E2 & Hm2 & He2 & V2).
  rewrite V1, V2 in *.
  destruct (SFmul_accurate m1 m2 e1 e2 Hm1 Hm2 He1 He2) as (m & e & E & Hm & H1 & H2).
  apply (normal_of_bounds _ m e); try assumption.
  now rewrite FloatAxioms.mul_spec, E1, E2.
Qed.

Lemma add_accurate (f1 f2 : float) :
  normal f1 -> normal f2 ->
  (2 ^ (-300) <= float_value f1 + float_value f2)%Q ->
  (float_value f1 + float_value f2 <= 2 ^ 300)%Q ->
  normal (f1 + f2)
  /\ ((1 - u52) * (float_value f1 + float_value f2) <= float_value (f1 + f2))%Q
  /\ (float_value (f1 + f2) <= (1 + u52) * (float_value f1 + float_value f2))%Q.
Proof.
  intros N1 N2 Hlo Hhi.
  destruct (normal_value f1 N1) as (m1 & e1 & E1 & Hm1 & He1 & V1).
  destruct (normal_value f2 N2) as (m2 & e2 & E2 & Hm2 & He2 & V2).
  rewrite V1, V2 in *.
  destruct (SFadd_accurate m1 m2 e1 e2 Hm1 Hm2 He1 He2) as (m & e & E & Hm & H1 & H2).
  apply (normal_of_bounds _ m e); try assumption.
  now rewrite FloatAxioms.add_spec, E1, E2.
Qed.

Lemma div_accurate (f1 f2 : float) :
  normal f1 -> normal f2 ->
  (2 ^ (-300) <= float_value f1 / float_value f2)%Q ->
  (float_value f1 / float_value f2 <= 2 ^ 300)%Q ->
  normal (f1 / f2)
  /\ ((1 - u52) * (float_value f1 / float_value f2) <= float_value (f1 / f2))%Q
  /\ (float_value (f1 / f2) <= (1 + u52) * (float_value f1 / float_value f2))%Q.
Proof.
  intros N1 N2 Hlo Hhi.
  destruct (normal_value f1 N1) as (m1 & e1 & E1 & Hm1 & He1 & V1).
  destruct (normal_value f2 N2) as (m2 & e2 & E2 & Hm2 & He2 & V2).
  rewrite V1, V2 in *.
  destruct (SFdiv_accurate m1 m2 e1 e2 Hm1 Hm2 He1 He2) as (m & e & E & Hm & H1 & H2).
  apply (normal_of_bounds _ m e); try assumption.
  now rewrite FloatAxioms.div_spec, E1, E2.
Qed.

(** ** Accumulated rounding errors *)

(** [dn c] and [up c] bound the factor by which [c] roundings can make a
    positive result smaller or larger. *)
Definition dn (c : Z) : Q := ((1 - u52) ^ c)%Q.
Definition up (c : Z) : Q := (/ (1 - u52) ^ c)%Q.

Lemma w52_pos : (0 < 1 - u52)%Q.
Proof. reflexivity. Qed.

Lemma w52_neq : ~ (1 - u52 == 0)%Q.
Proof. discriminate. Qed.

Lemma dn_pos (c : Z) : (0 < dn c)%Q.
Proof. apply Qpower_0_lt, w52_pos. Qed.

Lemma up_pos (c : Z) : (0 < up c)%Q.
Proof. apply Qinv_lt_0_compat, dn_pos. Qed.

Lemma up_dn (c : Z) : (up c * dn c == 1)%Q.
Proof. unfold up. fold (dn c). pose proof (dn_pos c). field. lra. Qed.

Lemma dn_0 : (dn 0 == 1)%Q.
Proof. reflexivity. Qed.

Lemma up_0 : (up 0 == 1)%Q.
Proof. reflexivity. Qed.

Lemma dn_add (a b : Z) : (dn (a + b) == dn a * dn b)%Q.
Proof. unfold dn. apply Qpower_plus, w52_neq. Qed.

Lemma up_add (a b : Z) : (up (a + b) == up a * up b)%Q.
Proof.
  unfold up. fold (dn (a + b)) (dn a) (dn b). rewrite dn_add.
  pose proof (dn_pos a). pose proof (dn_pos b). field. split; lra.
Qed.

Lemma dn_1 : (dn 1 == 1 - u52)%Q.
Proof. reflexivity. Qed.

Lemma dn_le_1 (c : Z) : 0 <= c -> (dn c <= 1)%Q.
Proof.
  intros Hc. pattern c. apply natlike_ind; [discriminate| |assumption].
  intros k Hk IH. unfold Z.succ. rewrite dn_add, dn_1.
  pose proof (dn_pos k). unfold u52. nra.
Qed.

Lemma up_ge_1 (c : Z) : 0 <= c -> (1 <= up c)%Q.
Proof.
  intros Hc. pose proof (dn_le_1 c Hc). pose proof (dn_pos c).
  pose proof (up_dn c). pose proof (up_pos c). nra.
Qed.

Lemma dn_mono (a b : Z) : 0 <= a <= b -> (dn b <= dn a)%Q.
Proof.
  intros H. replace b with (a + (b - a)) by lia. rewrite dn_add.
  pose proof (dn_le_1 (b - a) ltac:(lia)). pose proof (dn_pos a). nra.
Qed.

Lemma up_mono (a b : Z) : 0 <= a <= b -> (up a <= up b)%Q.
Proof.
  intros H. replace b with (a + (b - a)) by lia. rewrite up_add.
  pose proof (up_ge_1 (b - a) ltac:(lia)). pose proof (up_pos a). nra.
Qed.

Lemma up_1 : (1 + u52 <= up 1)%Q.
Proof. unfold up, u52. vm_compute. discriminate. Qed.

(** Bernoulli's inequality. *)
Lemma dn_bernoulli (c : Z) : 0 <= c -> (1 - inject_Z c * u52 <= dn c)%Q.
Proof.
  intros Hc. pattern c. apply natlike_ind; [discriminate| |assumption].
  intros k Hk IH. unfold Z.succ. rewrite dn_add, dn_1, inject_Z_plus.
  change (inject_Z 1) with 1%Q.
  assert (0 <= inject_Z k)%Q by (change 0%Q with (inject_Z 0); now rewrite <- Zle_Qle).
  unfold u52 in *. nra.
Qed.

Lemma up_bound (c : Z) :
  0 <= c <= 2 ^ 33 -> (up c <= 1 + inject_Z c * (2 * u52))%Q.
Proof.
  intros Hc. pose proof (dn_bernoulli c ltac:(lia)) as B.
  pose proof (up_dn c) as E. pose proof (up_pos c) as P. pose proof (dn_pos c) as D.
  assert (H0 : (0 <= inject_Z c)%Q) by (change 0%Q with (inject_Z 0); rewrite <- Zle_Qle; lia).
  assert (H1 : (inject_Z c <= inject_Z (2 ^ 33))%Q) by (rewrite <- Zle_Qle; lia).
  change (inject_Z (2 ^ 33)) with (8589934592 # 1)%Q in H1.
  unfold u52 in *.
  set (x := inject_Z c) in *. set (U := up c) in *. set (Dn := dn c) in *.
  assert (Hx : (x * (1 # 4503599627370496) <= 1 # 2)%Q) by lra.
  (* U = 1 / Dn <= 1 / (1 - x u) <= 1 + 2 x u *)
  assert (Hk : ((1 + x * (2 * (1 # 4503599627370496))) * Dn >= 1)%Q) by nra.
  nra.
Qed.

Lemma dn_ge_half (c : Z) : 0 <= c <= 2 ^ 33 -> (1 # 2 <= dn c)%Q.
Proof.
  intros Hc. pose proof (dn_bernoulli c ltac:(lia)) as B.
  assert (H1 : (inject_Z c <= inject_Z (2 ^ 33))%Q) by (rewrite <- Zle_Qle; lia).
  change (inject_Z (2 ^ 33)) with (8589934592 # 1)%Q in H1.
  unfold u52 in *. lra.
Qed.

Lemma up_le_2 (c : Z) : 0 <= c <= 2 ^ 33 -> (up c <= 2)%Q.
Proof.
  intros Hc. pose proof (up_bound c Hc) as B.
  assert (H1 : (inject_Z c <= inject_Z (2 ^ 33))%Q) by (rewrite <- Zle_Qle; lia).
  change (inject_Z (2 ^ 33)) with (8589934592 # 1)%Q in H1.
  unfold u52 in *. lra.
Qed.

(** Magnitudes between which no operation of the program overflows or
    underflows: 2^-100 and 2^100. *)
Definition tiny : Q := 1 # 1267650600228229401496703205376.
Definition huge : Q := 1267650600228229401496703205376 # 1.

(** [f] is a normal double within [c] roundings of the positive
    rational [q]. *)
Definition approx (c : Z) (q : Q) (f : float) : Prop :=
  normal f /\ (q * dn c <= float_value f)%Q /\ (float_value f <= q * up c)%Q.

Lemma normal_pos (f : float) : normal f -> (0 < float_value f)%Q.
Proof.
  intros N. destruct (normal_value f N) as (m & e & _ & _ & _ & ->).
  apply F2Q_pos. lia.
Qed.

Lemma approx_pos (c : Z) (q : Q) (f : float) : approx c q f -> (0 < q)%Q.
Proof.
  intros (N & _ & H). pose proof (normal_pos f N). pose proof (up_pos c).
  destruct (Qlt_le_dec 0 q) as [|Hq]; [assumption|]. nra.
Qed.

Lemma approx_exact (f : float) : normal f -> approx 0 (float_value f) f.
Proof.
  intros N. split; [assumption|]. rewrite dn_0, up_0. split; lra.
Qed.

Lemma approx_eq (c : Z) (q q' : Q) (f : float) :
  (q == q')%Q -> approx c q f -> approx c q' f.
Proof. intros E (N & H1 & H2). split; [assumption|]. rewrite <- E. auto. Qed.

Lemma approx_weaken (c c' : Z) (q : Q) (f : float) :
  0 <= c <= c' -> approx c q f -> approx c' q f.
Proof.
  intros Hc H. pose proof (approx_pos c q f H) as Hq. destruct H as (N & H1 & H2).
  split; [assumption|].
  pose proof (dn_mono c c' Hc). pose proof (up_mono c c' Hc). split; nra.
Qed.

Lemma range_lo : (2 ^ (-300) <= tiny * (1 # 2))%Q.
Proof. vm_compute. discriminate. Qed.

Lemma range_hi : (huge * 2 <= 2 ^ 300)%Q.
Proof. vm_compute. discriminate. Qed.

Lemma approx_mul (c1 c2 : Z) (q1 q2 : Q) (f1 f2 : float) :
  approx c1 q1 f1 -> approx c2 q2 f2 ->
  0 <= c1 -> 0 <= c2 -> c1 + c2 + 1 <= 2 ^ 33 ->
  (tiny <= q1 * q2)%Q -> (q1 * q2 <= huge)%Q ->
  approx (c1 + c2 + 1) (q1 * q2) (f1 * f2).
Proof.
  intros A1 A2 Hc1 Hc2 Hc Hlo Hhi.
  pose proof (approx_pos _ _ _ A1) as Q1. pose proof (approx_pos _ _ _ A2) as Q2.
  destruct A1 as (N1 & L1 & U1). destruct A2 as (N2 & L2 & U2).
  pose proof (normal_pos f1 N1) as P1. pose proof (normal_pos f2 N2) as P2.
  pose proof (dn_pos c1) as D1. pose proof (dn_pos c2) as D2.
  pose proof (up_pos c1) as V1. pose proof (up_pos c2) as V2.
  set (v1 := float_value f1) in *. set (v2 := float_value f2) in *.
  assert (L : (q1 * q2 * dn (c1 + c2) <= v1 * v2)%Q).
  { rewrite dn_add.
    setoid_replace (q1 * q2 * (dn c1 * dn c2))%Q with ((q1 * dn c1) * (q2 * dn c2))%Q by ring.
    apply Qmult_le_compat_nonneg; split; try assumption; nra. }
  assert (U : (v1 * v2 <= q1 * q2 * up (c1 + c2))%Q).
  { rewrite up_add.
    setoid_replace (q1 * q2 * (up c1 * up c2))%Q with ((q1 * up c1) * (q2 * up c2))%Q by ring.
    apply Qmult_le_compat_nonneg; split; try assumption; lra. }
  pose proof (dn_ge_half (c1 + c2) ltac:(lia)) as DH.
  pose proof (up_le_2 (c1 + c2) ltac:(lia)) as UH.
  pose proof range_lo as RL. pose proof range_hi as RH.
  assert (Qp : (0 < q1 * q2)%Q) by nra.
  destruct (mul_accurate f1 f2 N1 N2) as (N & HL & HU).
  { fold v1 v2. eapply Qle_trans; [exact RL|]. eapply Qle_trans; [|exact L]. nra. }
  { fold v1 v2. eapply Qle_trans; [|exact RH]. eapply Qle_trans; [exact U|]. nra. }
  fold v1 v2 in HL, HU.
  split; [exact N|].
  rewrite dn_add, up_add, dn_1. pose proof up_1 as U1'.
  pose proof (dn_pos (c1 + c2)) as D12. pose proof (up_pos (c1 + c2)) as V12.
  set (A := (q1 * q2)%Q) in *. set (vv := (v1 * v2)%Q) in *.
  set (DD := dn (c1 + c2)) in *. set (UU := up (c1 + c2)) in *.
  set (r := float_value (f1 * f2)) in *. unfold u52 in *.
  split.
  - eapply Qle_trans; [|exact HL]. nra.
  - eapply Qle_trans; [exact HU|].
    setoid_replace (A * (UU * up 1))%Q with ((A * UU) * up 1)%Q by ring.
    rewrite (Qmult_comm _ vv).
    apply Qmult_le_compat_nonneg; split; try assumption; try lra.
Qed.

Lemma approx_add (c1 c2 c : Z) (q1 q2 : Q) (f1 f2 : float) :
  approx c1 q1 f1 -> approx c2 q2 f2 ->
  0 <= c1 <= c -> 0 <= c2 <= c -> c + 1 <= 2 ^ 33 ->
  (tiny <= q1 + q2)%Q -> (q1 + q2 <= huge)%Q ->
  approx (c + 1) (q1 + q2) (f1 + f2).
Proof.
  intros A1 A2 Hc1 Hc2 Hc Hlo Hhi.
  apply (approx_weaken c1 c) in A1; [|assumption].
  apply (approx_weaken c2 c) in A2; [|assumption].
  pose proof (approx_pos _ _ _ A1) as Q1. pose proof (approx_pos _ _ _ A2) as Q2.
  destruct A1 as (N1 & L1 & U1). destruct A2 as (N2 & L2 & U2).
  pose proof (dn_pos c) as D. pose proof (up_pos c) as V.
  pose proof (dn_ge_half c ltac:(lia)) as DH.
  pose proof (up_le_2 c ltac:(lia)) as UH.
  pose proof range_lo as RL. pose proof range_hi as RH.
  set (v1 := float_value f1) in *. set (v2 := float_value f2) in *.
  destruct (add_accurate f1 f2 N1 N2) as (N & HL & HU).
  { fold v1 v2. eapply Qle_trans; [exact RL|]. nra. }
  { fold v1 v2. eapply Qle_trans; [|exact RH]. nra. }
  fold v1 v2 in HL, HU.
  split; [exact N|].
  rewrite dn_add, up_add, dn_1. pose proof up_1 as U1'.
  set (r := float_value (f1 + f2)) in *.
  set (DD := dn c) in *. set (UU := up c) in *. unfold u52 in *.
  split.
  - eapply Qle_trans; [|exact HL]. nra.
  - eapply Qle_trans; [exact HU|].
    setoid_replace ((q1 + q2) * (UU * up 1))%Q with (((q1 + q2) * UU) * up 1)%Q by ring.
    rewrite (Qmult_comm _ (v1 + v2)).
    apply Qmult_le_compat_nonneg; split; try assumption; try lra; nra.
Qed.

Lemma approx_div (c1 c2 : Z) (q1 q2 : Q) (f1 f2 : float) :
  approx c1 q1 f1 -> approx c2 q2 f2 ->
  0 <= c1 -> 0 <= c2 -> c1 + c2 + 1 <= 2 ^ 33 ->
  (tiny <= q1 / q2)%Q -> (q1 / q2 <= huge)%Q ->
  approx (c1 + c2 + 1) (q1 / q2) (f1 / f2).
Proof.
  intros A1 A2 Hc1 Hc2 Hc Hlo Hhi.
  pose proof (approx_pos _ _ _ A1) as Q1. pose proof (approx_pos _ _ _ A2) as Q2.
  destruct A1 as (N1 & L1 & U1). destruct A2 as (N2 & L2 & U2).
  pose proof (normal_pos f1 N1) as P1. pose proof (normal_pos f2 N2) as P2.
  pose proof (dn_pos c1) as D1. pose proof (dn_pos c2) as D2.
  pose proof (up_pos c1) as V1. pose proof (up_pos c2) as V2.
  pose proof (up_dn c1) as E1. pose proof (up_dn c2) as E2.
  set (v1 := float_value f1) in *. set (v2 := float_value f2) in *.
  assert (EX : (q1 / q2 * q2 == q1)%Q) by (field; lra).
  assert (Xp : (0 < q1 / q2)%Q) by (apply Qlt_shift_div_l; lra).
  set (X := (q1 / q2)%Q) in *.
  assert (PD : (0 < X * (dn c1 * dn c2))%Q)
    by (apply Qmult_lt_0_compat; [assumption|apply Qmult_lt_0_compat; assumption]).
  assert (PU : (0 < X * (up c1 * up c2))%Q)
    by (apply Qmult_lt_0_compat; [assumption|apply Qmult_lt_0_compat; assumption]).
  assert (L : (X * dn (c1 + c2) <= v1 / v2)%Q).
  { apply Qle_shift_div_l; [assumption|]. rewrite dn_add.
    eapply Qle_trans; [|exact L1].
    setoid_replace (q1 * dn c1)%Q with (X * (dn c1 * dn c2) * (q2 * up c2))%Q.
    - apply Qmult_le_compat_nonneg; split; try assumption; try lra.
    - rewrite <- EX. setoid_replace (X * (dn c1 * dn c2) * (q2 * up c2))%Q
        with (X * q2 * dn c1 * (up c2 * dn c2))%Q by ring.
      rewrite E2. ring. }
  assert (U : (v1 / v2 <= X * up (c1 + c2))%Q).
  { apply Qle_shift_div_r; [assumption|]. rewrite up_add.
    eapply Qle_trans; [exact U1|].
    setoid_replace (q1 * up c1)%Q with (X * (up c1 * up c2) * (q2 * dn c2))%Q.
    - apply Qmult_le_compat_nonneg; split; try assumption; try lra; nra.
    - rewrite <- EX. setoid_replace (X * (up c1 * up c2) * (q2 * dn c2))%Q
        with (X * q2 * up c1 * (up c2 * dn c2))%Q by ring.
      rewrite E2. ring. }
  pose proof (dn_ge_half (c1 + c2) ltac:(lia)) as DH.
  pose proof (up_le_2 (c1 + c2) ltac:(lia)) as UH.
  pose proof range_lo as RL. pose proof range_hi as RH.
  destruct (div_accurate f1 f2 N1 N2) as (N & HL & HU).
  { fold v1 v2. eapply Qle_trans; [exact RL|]. eapply Qle_trans; [|exact L]. nra. }
  { fold v1 v2. eapply Qle_trans; [|exact RH]. eapply Qle_trans; [exact U|]. nra. }
  fold v1 v2 in HL, HU.
  split; [exact N|].
  rewrite dn_add, up_add, dn_1. pose proof up_1 as U1'.
  pose proof (dn_pos (c1 + c2)) as D12. pose proof (up_pos (c1 + c2)) as V12.
  set (vv := (v1 / v2)%Q) in *.
  set (DD := dn (c1 + c2)) in *. set (UU := up (c1 + c2)) in *.
  set (r := float_value (f1 / f2)) in *. unfold u52 in *.
  split.
  - eapply Qle_trans; [|exact HL]. nra.
  - eapply Qle_trans; [exact HU|].
    setoid_replace (X * (UU * up 1))%Q with ((X * UU) * up 1)%Q by ring.
    rewrite (Qmult_comm _ vv).
    apply Qmult_le_compat_nonneg; split; try assumption; try lra; nra.
Qed.

(** ** The doubles of the program *)

Lemma normal_one : normal 1%float /\ (float_value 1%float == 1)%Q.
Proof.
  split; [|reflexivity].
  exists 4503599627370496%positive, (-52). split; [reflexivity|].
  change (2 ^ 52) with 4503599627370496. change (2 ^ 53) with 9007199254740992. lia.
Qed.

Lemma normal_four : normal 4%float /\ (float_value 4%float == 4)%Q.
Proof.
  split; [|reflexivity].
  exists 4503599627370496%positive, (-50). split; [reflexivity|].
  change (2 ^ 52) with 4503599627370496. change (2 ^ 53) with 9007199254740992. lia.
Qed.

(** [(double) i] is normal and stands for [i]. *)
Lemma float_of_int_value (i : Z) :
  1 <= i <= INT_MAX ->
  normal (float_of_int i) /\ (float_value (float_of_int i) == inject_Z i)%Q.
Proof.
  intros Hi.
  destruct (float_of_int_positive i Hi) as (m & e & E & He).
  assert (Ei : float_of_int i = PrimFloat.of_uint63 (Uint63.of_Z i)).
  { unfold float_of_int. destruct (Z.ltb_spec i 0); [lia|reflexivity]. }
  destruct i as [|p|p]; try lia.
  destruct (of_uint63_exact p) as (m' & e' & E' & _ & Hm').
  { unfold INT_MAX in Hi. lia. }
  rewrite <- Ei, E in E'. injection E' as <- <-.
  pose proof (Prim2SF_valid (float_of_int (Z.pos p))) as V. rewrite E in V.
  apply valid_finite, canonical_mantissa_digits in V as (_ & _ & [Hd|Hd]); [|lia].
  pose proof (digits2_pos_bounds m) as B. rewrite Hd in B. change (53 - 1) with 52 in B.
  split.
  - exists m, e. split; [exact E|]. split; [exact B|lia].
  - unfold float_value. rewrite E. cbn [SF2Q cond_Zopp]. rewrite Hm'.
    rewrite F2Q_shift by lia. replace (e + - e) with 0 by lia.
    unfold F2Q. change (2 ^ 0)%Q with 1%Q. ring.
Qed.

(** [(double) i - 0.5] *)
Lemma sample_offset (i : Z) :
  1 <= i <= INT_MAX ->
  approx 1 (inject_Z i - (1 # 2)) (float_of_int i - 0.5)%float.
Proof.
  intros Hi.
  destruct (float_of_int_positive i Hi) as (m & e & E & He).
  assert (Ei : float_of_int i = PrimFloat.of_uint63 (Uint63.of_Z i)).
  { unfold float_of_int. destruct (Z.ltb_spec i 0); [lia|reflexivity]. }
  destruct i as [|p|p]; try lia.
  destruct (of_uint63_exact p) as (m' & e' & E' & _ & Hm').
  { unfold INT_MAX in Hi. lia. }
  rewrite <- Ei, E in E'. injection E' as <- <-.
  set (M := Z.pos p * 2 ^ 53 - 2 ^ 52).
  assert (HS : Prim2SF (float_of_int (Z.pos p) - 0.5)
               = binary_normalize prec emax M (-53) false).
  { rewrite FloatAxioms.sub_spec, E.
    change (Prim2SF 0.5) with (S754_finite false 4503599627370496 (-53)).
    unfold SF64sub, SFsub. cbn [cond_Zopp].
    replace (Z.min e (-53)) with (-53) by lia.
    rewrite !shl_align_value by lia. f_equal. unfold M.
    change (2 ^ (-53 - -53)) with 1. rewrite Hm', <- Z.mul_assoc, <- Z.pow_add_r by lia.
    replace (- e + (e - -53)) with 53 by lia.
    change (2 ^ 52) with 4503599627370496. lia. }
  assert (HM : 2 ^ 52 <= M < 2 ^ 84).
  { unfold M, INT_MAX in *. change (2 ^ 84) with (2147483648 * 2 ^ 53).
    change (2 ^ 53) with (2 * 2 ^ 52). change (2 ^ 52) with 4503599627370496. lia. }
  destruct (binary_normalize_accurate M (-53)) as (m2 & e2 & E2 & Hm2 & H1 & H2).
  - lia.
  - lia.
  - pose proof (Zdigits2_le M 84 ltac:(lia) ltac:(lia)). lia.
  - assert (Hval : (F2Q M (-53) == inject_Z (Z.pos p) - (1 # 2))%Q).
    { unfold M, F2Q. unfold Z.sub. rewrite inject_Z_plus, inject_Z_mult, inject_Z_opp.
      change (inject_Z (2 ^ 53)) with (9007199254740992 # 1)%Q.
      change (inject_Z (2 ^ 52)) with (4503599627370496 # 1)%Q.
      change (2 ^ (-53))%Q with (1 # 9007199254740992)%Q. field. }
    rewrite Hval in H1, H2.
    assert (Hq : (1 # 2 <= inject_Z (Z.pos p) - (1 # 2))%Q).
    { assert (1 <= inject_Z (Z.pos p))%Q
        by (change 1%Q with (inject_Z 1); rewrite <- Zle_Qle; lia). lra. }
    assert (Hq' : (inject_Z (Z.pos p) - (1 # 2) <= 2147483647 # 1)%Q).
    { assert (inject_Z (Z.pos p) <= inject_Z INT_MAX)%Q by (rewrite <- Zle_Qle; lia).
      change (inject_Z INT_MAX) with (2147483647 # 1)%Q in H. lra. }
    rewrite <- HS in E2.
    destruct (normal_of_bounds _ m2 e2 _ E2 Hm2 H1 H2) as (N & L & U).
    + eapply Qle_trans; [|exact Hq]. vm_compute. discriminate.
    + eapply Qle_trans; [exact Hq'|]. vm_compute. discriminate.
    + split; [exact N|]. rewrite dn_1. pose proof up_1.
      set (q := (inject_Z (Z.pos p) - (1 # 2))%Q) in *. unfold u52 in *. split; [lra|].
      eapply Qle_trans; [exact U|]. nra.
Qed.



(** ** The rounding error of a round *)






Section RoundingError.
Variable n : Z.
Hypothesis Hn : 1 <= n <= INT_MAX.

(** The step width, the sample points and the kernel values, in doubles
    and in exact arithmetic. *)
Let hf : float := step_width n.
Let hq : Q := step_width n.

Lemma inject_Z_n_bounds : (1 <= inject_Z n)%Q /\ (inject_Z n <= 2147483647 # 1)%Q.
Proof.
  split.
  - change 1%Q with (inject_Z 1). rewrite <- Zle_Qle. lia.
  - change (2147483647 # 1)%Q with (inject_Z INT_MAX). rewrite <- Zle_Qle. lia.
Qed.

Lemma hq_bounds : (1 # 2147483647 <= hq)%Q /\ (hq <= 1)%Q /\ (hq * inject_Z n == 1)%Q.
Proof.
  destruct inject_Z_n_bounds as (H1 & H2). unfold hq, step_width.
  cbn [d_div d_one d_of_int exactQ].
  assert (E : (1 / inject_Z n * inject_Z n == 1)%Q) by (field; lra).
  split; [|split; [|exact E]].
  - apply Qle_shift_div_l; lra.
  - apply Qle_shift_div_r; lra.
Qed.

Lemma step_width_approx : approx 1 hq hf.
Proof.
  destruct inject_Z_n_bounds as (H1 & H2). destruct hq_bounds as (B1 & B2 & _).
  unfold hq, hf, step_width in *. cbn [d_div d_one d_of_int exactQ binary64] in *.
  apply (approx_div 0 0); try lia.
  - destruct normal_one as (N & V). apply (approx_eq 0 _ _ _ V). now apply approx_exact.
  - destruct (float_of_int_value n Hn) as (N & V).
    apply (approx_eq 0 _ _ _ V). now apply approx_exact.
  - unfold tiny. lra.
  - unfold huge. lra.
Qed.

Lemma sample_range (j : Z) :
  1 <= j <= n ->
  (1 # 4294967294 <= sample hq j)%Q /\ (sample hq j <= 1)%Q.
Proof.
  intros Hj. destruct hq_bounds as (B1 & B2 & B3).
  destruct inject_Z_n_bounds as (H1 & H2).
  assert (J1 : (1 <= inject_Z j)%Q) by (change 1%Q with (inject_Z 1); rewrite <- Zle_Qle; lia).
  assert (J2 : (inject_Z j <= inject_Z n)%Q) by (rewrite <- Zle_Qle; lia).
  unfold sample. cbn [d_mul d_sub d_of_int d_half exactQ].
  split; nra.
Qed.

Lemma sample_approx (j : Z) : 1 <= j <= n -> approx 3 (sample hq j) (sample hf j).
Proof.
  intros Hj. destruct (sample_range j Hj) as (R1 & R2).
  unfold sample in *. cbn [d_mul d_sub d_of_int d_half exactQ binary64] in *.
  apply (approx_mul 1 1); try lia.
  - apply step_width_approx.
  - apply sample_offset. lia.
  - unfold tiny. lra.
  - unfold huge. lra.
Qed.

Lemma kernel_range (j : Z) :
  1 <= j <= n -> (2 <= kernel (sample hq j))%Q /\ (kernel (sample hq j) <= 4)%Q.
Proof.
  intros Hj. destruct (sample_range j Hj) as (R1 & R2).
  apply kernel_bounds; lra.
Qed.

Lemma kernel_approx (j : Z) :
  1 <= j <= n -> approx 9 (kernel (sample hq j)) (kernel (sample hf j)).
Proof.
  intros Hj. destruct (sample_range j Hj) as (R1 & R2).
  destruct (kernel_range j Hj) as (K1 & K2).
  pose proof (sample_approx j Hj) as A.
  set (x := sample hf j) in *. set (xi := sample hq j) in *.
  unfold kernel in *. cbn [d_div d_add d_mul d_four d_one exactQ binary64] in *.
  assert (A2 : approx 7 (xi * xi) (x * x)).
  { apply (approx_mul 3 3); try assumption; try lia.
    - unfold tiny. nra.
    - unfold huge. nra. }
  assert (A3 : approx 8 (1 + xi * xi) (1 + x * x)).
  { apply (approx_add 0 7 7); try assumption; try lia.
    - destruct normal_one as (N & V). apply (approx_eq 0 _ _ _ V). now apply approx_exact.
    - unfold tiny. nra.
    - unfold huge. nra. }
  apply (approx_div 0 8); try assumption; try lia.
  - destruct normal_four as (N & V). apply (approx_eq 0 _ _ _ V). now apply approx_exact.
  - unfold tiny. lra.
  - unfold huge. lra.
Qed.














End RoundingError.

(** X13: the loop body in the program's doubles: for every index j of
    [1..n], the kernel value 4.0 / (1.0 + x*x) computed at
    x = h * ((double) j - 0.5), h = 1.0 / (double) n, is a normal double
    within 9 * 2^-49 of the exact 4 / (1 + ((j - 1/2) / n)^2). *)
Theorem kernel_value_is_accurate (n j : Z) :
  1 <= j <= n -> n <= INT_MAX ->
  normal (kernel (sample (step_width n) j))
  /\ (Qabs (float_value (kernel (sample (step_width n) j))
            - kernel (sample (step_width n) j))
      <= 9 # 562949953421312)%Q.
Proof.
  intros Hj Hmax. assert (Hn : 1 <= n <= INT_MAX) by lia.
  destruct (kernel_approx n Hn j Hj) as (N & L & U).
  destruct (kernel_range n Hn j Hj) as (K1 & K2).
  split; [exact N|].
  pose proof (dn_bernoulli 9 ltac:(lia)) as B.
  pose proof (up_bound 9 ltac:(change (2 ^ 33) with 8589934592; lia)) as B'.
  change (inject_Z 9) with 9%Q in B, B'.
  set (v := float_value (kernel (sample (step_width n) j))) in *.
  set (k := @kernel Q exactQ (sample (step_width n) j)) in *.
  set (D9 := dn 9) in *. set (U9 := up 9) in *. unfold u52 in *.
  apply Qabs_Qle_condition. split.
  - assert (k * (1 - 9 * (1 # 4503599627370496)) <= v)%Q by nra. nra.
  - assert (v <= k * (1 + 9 * (2 * (1 # 4503599627370496))))%Q by nra. nra.
Qed.

Lemma kernel_value_is_accurate_witness :
  (1 <= 3 <= 10 /\ 10 <= INT_MAX)
  /\ normal (kernel (sample (step_width 10) 3))
  /\ (Qabs (float_value (kernel (sample (step_width 10) 3))
            - kernel (sample (step_width 10) 3))
      <= 9 # 562949953421312)%Q.
Proof.
  assert (H : 1 <= 3 <= 10 /\ 10 <= INT_MAX) by (unfold INT_MAX; lia).
  split; [exact H|].
  apply (kernel_value_is_accurate 10 3); apply H.
Defined.






